(** * salve: name patterns, element tree, step 10, patterns and walkers

    A shallow embedding of the parts of salve that the specification
    talks about:

    - [name_patterns]: lib/salve/name_patterns.ts
    - [patterns]: lib/salve/patterns/ref.ts, lib/salve/patterns/not_allowed.ts
    - [grammar]: the file of the classes Grammar and GrammarWalker
      (unnamed/part_000)
    - [parser]: the Element tree of conversion/parser.ts, as it stands in
      lib/salve/conversion/simplifier/step10.ts
    - [step10]: the functions of step 10 in the same file

    The definitions come first, one module for each file; the lemmas and
    theorems follow, in the modules whose names end in [_facts].

    JavaScript objects that are mutated in place are modelled by explicit
    state passing: a walker is a record that a call hands back changed, the
    nodes of the Element tree live in a store that maps references to
    their fields. A [throw] is an outcome of its own. Recursion that is not
    structural takes fuel. *)

From Stdlib Require Import String Ascii List Bool Arith Lia.
From stdpp Require Import base option list gmap strings.

Local Open Scope string_scope.
Local Open Scope list_scope.
Local Set Warnings "-register-all".

(** ** Outcomes of JavaScript code *)

Inductive JsError : Type :=
| Error (msg : string)
| TypeError (msg : string)
| SchemaValidationError (msg : string).

(** A call returns a value, throws, or is still running when the fuel of
    the model is used up. *)
Inductive outcome (A : Type) : Type :=
| Ret (a : A)
| Throw (e : JsError)
| OutOfFuel.

Arguments Ret {A} a.
Arguments Throw {A} e.
Arguments OutOfFuel {A}.

Definition bind {A B : Type} (c : outcome A) (k : A -> outcome B) : outcome B :=
  match c with
  | Ret a => k a
  | Throw e => Throw e
  | OutOfFuel => OutOfFuel
  end.

Notation "'let*' x ':=' c1 'in' c2" := (bind c1 (fun x => c2))
  (at level 10, x name, c1 at level 100, c2 at level 200).
Notation "'let*' ' pat ':=' c1 'in' c2" :=
  (bind c1 (fun x => match x with pat => c2 end))
  (at level 10, pat pattern, c1 at level 100, c2 at level 200).

(** The double quote, for the JSON-like strings. *)
Definition dquote : string := String (ascii_of_nat 34) EmptyString.

(** ** name_patterns.ts *)

Module name_patterns.

Inductive ConcreteName : Type :=
| Name (ns name : string)
| NameChoice (a b : ConcreteName)
| NsName (ns : string) (except : option ConcreteName)
| AnyName (except : option ConcreteName).

Definition isName (p : ConcreteName) : bool :=
  match p with Name _ _ => true | _ => false end.
Definition isNameChoice (p : ConcreteName) : bool :=
  match p with NameChoice _ _ => true | _ => false end.
Definition isNsName (p : ConcreteName) : bool :=
  match p with NsName _ _ => true | _ => false end.

(** [match(ns, name)] of the four classes. *)
Fixpoint match_ (p : ConcreteName) (ns name : string) : bool :=
  match p with
  | Name pns pname => String.eqb pname name && String.eqb pns ns
  | NameChoice a b => match_ a ns name || match_ b ns name
  | NsName pns except =>
      String.eqb pns ns &&
      negb (match except with
            | Some e => match_ e ns name
            | None => false
            end)
  | AnyName except =>
      match except with
      | None => true
      | Some e => negb (match_ e ns name)
      end
  end.

(** [wildcardMatch(ns, name)]. *)
Fixpoint wildcardMatch (p : ConcreteName) (ns name : string) : bool :=
  match p with
  | Name _ _ => false
  | NameChoice a b => wildcardMatch a ns name || wildcardMatch b ns name
  | NsName _ _ => match_ p ns name
  | AnyName _ => match_ p ns name
  end.

(** [simple()]. *)
Fixpoint simple (p : ConcreteName) : bool :=
  match p with
  | Name _ _ => true
  | NameChoice a b => simple a && simple b
  | NsName _ _ => false
  | AnyName _ => false
  end.

(** [toArray()]: the names as (ns, name) pairs, [None] for [null]. *)
Fixpoint toArray (p : ConcreteName) : option (list (string * string)) :=
  match p with
  | Name ns name => Some [(ns, name)]
  | NameChoice a b =>
      match toArray a with
      | None => None
      | Some aArr =>
          match toArray b with
          | None => None
          | Some bArr => Some (aArr ++ bArr)
          end
      end
  | NsName _ _ => None
  | AnyName _ => None
  end.

Definition toName (n : string * string) : ConcreteName := Name (fst n) (snd n).

(** [NameChoice.makeTree(names)]. *)
Definition makeTree (names : list ConcreteName) : outcome ConcreteName :=
  match names with
  | [] => Throw (Error "trying to make a tree out of nothing")
  | [n] => Ret n
  | n0 :: n1 :: rest => Ret (fold_left NameChoice rest (NameChoice n0 n1))
  end.

(** The value [0 | ConcreteName] that [intersection] and [subtract] return:
    [None] is [0], the empty set. *)
Definition orNothing (newA newB : option ConcreteName) : option ConcreteName :=
  match newA with
  | None => newB
  | Some x =>
      match newB with
      | None => newA
      | Some y => Some (NameChoice x y)
      end
  end.

(** [isNameChoice(x) ? x.applyRecursively(fn) : fn(x)], the expression that
    [applyRecursively] evaluates on each of its two children. *)
Fixpoint applyTo (fn : ConcreteName -> outcome (option ConcreteName))
  (x : ConcreteName) : outcome (option ConcreteName) :=
  match x with
  | NameChoice a b =>
      let* newA := applyTo fn a in
      let* newB := applyTo fn b in
      Ret (orNothing newA newB)
  | _ => fn x
  end.

(** [NameChoice.applyRecursively(fn)] on the choice of [a] and [b]. *)
Definition applyRecursively (a b : ConcreteName)
  (fn : ConcreteName -> outcome (option ConcreteName)) :
  outcome (option ConcreteName) :=
  let* newA := applyTo fn a in
  let* newB := applyTo fn b in
  Ret (orNothing newA newB).

(** The key [`{${name.ns}}${name.name}`] of the Map that removes duplicates. *)
Definition nameKey (n : string * string) : string :=
  "{" ++ fst n ++ "}" ++ snd n.

(** [Map.prototype.set] on a Map kept in insertion order. *)
Fixpoint mapSet {V : Type} (k : string) (v : V) (m : list (string * V)) :
  list (string * V) :=
  match m with
  | [] => [(k, v)]
  | (k', v') :: m' =>
      if String.eqb k k' then (k, v) :: m' else (k', v') :: mapSet k v m'
  end.

(** [Array.from(new Map(names.map(name => [key, name])).values())]. *)
Definition uniqueNames (names : list (string * string)) : list (string * string) :=
  map snd (fold_left (fun m n => mapSet (nameKey n) n m) names []).

(** [NsName.subtract(other)] for [other] that is not a [NameChoice]; [ns]
    and [except] are the fields of [this]. An [AnyName] has no [ns] field,
    so that [this.ns !== other.ns] holds for it. *)
Definition subtractOne (ns : string) (except : option ConcreteName)
  (other : ConcreteName) : outcome (option ConcreteName) :=
  match other with
  | Name ons oname =>
      if negb (String.eqb ns ons) then Ret (Some (NsName ns except))
      else Ret (Some (NsName ns (Some match except with
                                      | None => other
                                      | Some e => NameChoice e other
                                      end)))
  | NsName ons oexcept =>
      if negb (String.eqb ns ons) then Ret (Some (NsName ns except))
      else
        match oexcept with
        | None => Ret None
        | Some oe =>
            match except with
            | None => Ret (Some oe)
            | Some e =>
                match toArray e, toArray oe with
                | Some theseNames, Some otherNames =>
                    let result :=
                      List.filter (fun name =>
                                negb (existsb (fun thisName =>
                                                 String.eqb (fst name) (fst thisName) &&
                                                 String.eqb (snd name) (snd thisName))
                                        theseNames))
                        otherNames in
                    match result with
                    | [] => Ret None
                    | _ => let* t := makeTree (map toName result) in Ret (Some t)
                    end
                | _, _ =>
                    Throw (Error "NsName contains an except pattern which is not simple.")
                end
            end
        end
  | _ => Ret (Some (NsName ns except))
  end.

(** [NsName.subtract(other)]. The function handed to [applyRecursively]
    calls [this.subtract(child)] on a child that is not a [NameChoice]. *)
Definition subtract (ns : string) (except : option ConcreteName)
  (other : ConcreteName) : outcome (option ConcreteName) :=
  match other with
  | NameChoice a b =>
      applyRecursively a b
        (fun child =>
           if negb (isName child || isNsName child)
           then Throw (Error "child is not Name or NsName")
           else subtractOne ns except child)
  | _ => subtractOne ns except other
  end.

(** [intersection(other)] of the four classes. The methods call each other
    with the two patterns swapped ("delegate to the other classes"), which
    is not a structural recursion: every call uses one unit of [fuel]. *)
Fixpoint intersection_fuel (fuel : nat) (this : ConcreteName)
  (other : option ConcreteName) : outcome (option ConcreteName) :=
  match fuel with
  | O => OutOfFuel
  | S fuel =>
      match other with
      | None => Ret None
      | Some other =>
          match this with
          | Name ns name =>
              match other with
              | Name ons oname =>
                  Ret (if match_ this ons oname then Some this else None)
              | _ => intersection_fuel fuel other (Some this)
              end
          | NameChoice a b =>
              let* a' := intersection_fuel fuel a (Some other) in
              let* b' := intersection_fuel fuel b (Some other) in
              Ret (orNothing a' b')
          | NsName ns except =>
              match other with
              | Name ons oname =>
                  if negb (String.eqb ns ons) then Ret None
                  else
                    match except with
                    | Some e =>
                        let* r := intersection_fuel fuel other (Some e) in
                        Ret (match r with None => Some other | Some _ => None end)
                    | None => Ret (Some other)
                    end
              | NsName ons oexcept =>
                  if negb (String.eqb ns ons) then Ret None
                  else
                    match except, oexcept with
                    | Some e, Some oe =>
                        match toArray e, toArray oe with
                        | Some theseNames, Some otherNames =>
                            let names := uniqueNames (theseNames ++ otherNames) in
                            let* t := makeTree (map toName names) in
                            Ret (Some (NsName ns (Some t)))
                        | _, _ =>
                            Throw (Error "complex pattern found in NsName except")
                        end
                    | _, Some _ => Ret (Some other)
                    | _, None => Ret (Some this)
                    end
              | _ => intersection_fuel fuel other (Some this)
              end
          | AnyName except =>
              match except with
              | None => Ret (Some other)
              | Some e =>
                  match other with
                  | Name _ _ =>
                      let* r := intersection_fuel fuel e (Some other) in
                      Ret (match r with None => Some other | Some _ => None end)
                  | NsName ons oexcept =>
                      let* negation := intersection_fuel fuel e (Some other) in
                      match negation with
                      | None => Ret (Some other)
                      | Some n => subtract ons oexcept n
                      end
                  | AnyName oexcept =>
                      match oexcept with
                      | Some oe => Ret (Some (AnyName (Some (NameChoice e oe))))
                      | None => Ret (Some this)
                      end
                  | NameChoice _ _ => Throw (Error "cannot compute intersection!")
                  end
              end
          end
      end
  end.

(** [intersects(other)] of the four classes, with the same delegation. *)
Fixpoint intersects_fuel (fuel : nat) (this other : ConcreteName) : outcome bool :=
  match fuel with
  | O => OutOfFuel
  | S fuel =>
      match this with
      | Name ns name =>
          match other with
          | Name ons oname => Ret (match_ this ons oname)
          | _ => intersects_fuel fuel other this
          end
      | NameChoice a b =>
          let* ra := intersects_fuel fuel a other in
          if ra then Ret true else intersects_fuel fuel b other
      | NsName ns except =>
          match other with
          | Name ons oname =>
              if String.eqb ns ons then
                match except with
                | None => Ret true
                | Some e =>
                    let* r := intersects_fuel fuel other e in Ret (negb r)
                end
              else Ret false
          | NsName ons _ => Ret (String.eqb ns ons)
          | _ => intersects_fuel fuel other this
          end
      | AnyName except =>
          match except with
          | None => Ret true
          | Some e =>
              match other with
              | AnyName _ => Ret true
              | Name _ _ =>
                  let* r := intersects_fuel fuel e other in Ret (negb r)
              | NsName ons oexcept =>
                  let* negation := intersection_fuel fuel e (Some other) in
                  match negation with
                  | None => Ret true
                  | Some n =>
                      let* d := subtract ons oexcept n in
                      Ret (match d with None => false | Some _ => true end)
                  end
              | NameChoice _ _ => Throw (Error "cannot compute intersection!")
              end
          end
      end
  end.

(** The number of objects of a pattern. *)
Fixpoint size (p : ConcreteName) : nat :=
  match p with
  | Name _ _ => 1
  | NameChoice a b => S (size a + size b)
  | NsName _ except => S (match except with Some e => size e | None => 0 end)
  | AnyName except => S (match except with Some e => size e | None => 0 end)
  end.

(** Fuel that is enough for any call on [this] and [other] (see
    [intersection_fuel_enough] and [intersects_fuel_enough]). *)
Definition enough (this other : ConcreteName) : nat :=
  2 * (size this + size other) + 2.

(** One more unit is needed when the call only hands over to the other
    class. *)
Definition pending (this other : ConcreteName) : nat :=
  match this, other with
  | Name _ _, Name _ _ => 0
  | Name _ _, _ => 1
  | NsName _ _, (NameChoice _ _ | AnyName _) => 1
  | _, _ => 0
  end.

Definition intersection (this : ConcreteName) (other : option ConcreteName) :
  outcome (option ConcreteName) :=
  match other with
  | None => Ret None
  | Some o => intersection_fuel (enough this o) this other
  end.

Definition intersects (this other : ConcreteName) : outcome bool :=
  intersects_fuel (enough this other) this other.

(** [this.x === v] for a string field and a value that may be [undefined]. *)
Definition strictEq (x : string) (v : option string) : bool :=
  match v with
  | Some y => String.eqb x y
  | None => false
  end.

(** [match(ns, name)] as JavaScript runs it when a caller hands over array
    entries that may be missing ([params[0]], [params[1]]). *)
Fixpoint matchValue (p : ConcreteName) (ns name : option string) : bool :=
  match p with
  | Name pns pname => strictEq pname name && strictEq pns ns
  | NameChoice a b => matchValue a ns name || matchValue b ns name
  | NsName pns except =>
      strictEq pns ns &&
      negb (match except with
            | Some e => matchValue e ns name
            | None => false
            end)
  | AnyName except =>
      match except with
      | None => true
      | Some e => negb (matchValue e ns name)
      end
  end.

(** [escapeString]: a backslash before every double quote and backslash. *)
Fixpoint escapeString (str : string) : string :=
  match str with
  | EmptyString => EmptyString
  | String c rest =>
      if (Ascii.eqb c (ascii_of_nat 34) || Ascii.eqb c (ascii_of_nat 92))%bool
      then String (ascii_of_nat 92) (String c (escapeString rest))
      else String c (escapeString rest)
  end.

(** [toString()], that is [asString()] without its cache. *)
Fixpoint toString (p : ConcreteName) : string :=
  match p with
  | Name ns name =>
      "{" ++ dquote ++ "ns" ++ dquote ++ ":" ++ dquote ++ escapeString ns ++
      dquote ++ "," ++ dquote ++ "name" ++ dquote ++ ":" ++ dquote ++ name ++
      dquote ++ "}"
  | NameChoice a b =>
      "{" ++ dquote ++ "a" ++ dquote ++ ":" ++ toString a ++ "," ++
      dquote ++ "b" ++ dquote ++ ":" ++ toString b ++ "}"
  | NsName ns except =>
      "{" ++ dquote ++ "ns" ++ dquote ++ ":" ++ dquote ++ escapeString ns ++
      dquote ++
      match except with
      | None => ""
      | Some e => "," ++ dquote ++ "except" ++ dquote ++ ":" ++ toString e
      end ++ "}"
  | AnyName except =>
      "{" ++ dquote ++ "pattern" ++ dquote ++ ":" ++ dquote ++ "AnyName" ++
      dquote ++
      match except with
      | None => ""
      | Some e => "," ++ dquote ++ "except" ++ dquote ++ ":" ++ toString e
      end ++ "}"
  end.

(** *** Predicates used in the statements *)


(** What [checkNames] of step10.ts lets through: an [except] of an
    [anyName] has no [anyName] descendant, an [except] of an [nsName] has
    no [anyName] and no [nsName] descendant. *)
Fixpoint noAnyName (p : ConcreteName) : bool :=
  match p with
  | Name _ _ => true
  | NameChoice a b => noAnyName a && noAnyName b
  | NsName _ except =>
      match except with Some e => simple e | None => true end
  | AnyName _ => false
  end.

Fixpoint wellFormed (p : ConcreteName) : bool :=
  match p with
  | Name _ _ => true
  | NameChoice a b => wellFormed a && wellFormed b
  | NsName _ except =>
      match except with Some e => simple e | None => true end
  | AnyName except =>
      match except with Some e => noAnyName e | None => true end
  end.

(** Whether the expanded name [(ns, name)] is in a list of names. *)
Definition nameIn (names : list (string * string)) (ns name : string) : bool :=
  existsb (fun n => String.eqb (fst n) ns && String.eqb (snd n) name) names.

(** *** Namespaces, and the patterns without an [except] on [anyName] *)

(** [Set.prototype.add] on a Set kept in insertion order. *)
Definition setAdd (x : string) (s : list string) : list string :=
  if existsb (String.eqb x) s then s else s ++ [x].

(** [_recordNamespaces(namespaces, recordEmpty)] of the four classes; the
    Set that the source mutates is handed back. *)
Fixpoint _recordNamespaces (p : ConcreteName) (namespaces : list string)
  (recordEmpty : bool) : list string :=
  match p with
  | Name ns _ =>
      if String.eqb ns "" && negb recordEmpty then namespaces
      else setAdd ns namespaces
  | NameChoice a b =>
      _recordNamespaces b (_recordNamespaces a namespaces recordEmpty) recordEmpty
  | NsName ns except =>
      let namespaces :=
        if negb (String.eqb ns "") || recordEmpty then setAdd ns namespaces
        else namespaces in
      match except with
      | Some _ => setAdd "::except" namespaces
      | None => namespaces
      end
  | AnyName except =>
      let namespaces := setAdd "*" namespaces in
      match except with
      | Some _ => setAdd "::except" namespaces
      | None => namespaces
      end
  end.

(** [getNamespaces()]. *)
Definition getNamespaces (p : ConcreteName) : list string :=
  _recordNamespaces p [] true.

(** What a result [0 | ConcreteName] matches: 0 is the empty set. *)
Definition matches (r : option ConcreteName) (ns name : string) : bool :=
  match r with
  | Some t => match_ t ns name
  | None => false
  end.

(** A string without a closing brace. *)
Fixpoint noBrace (s : string) : bool :=
  match s with
  | EmptyString => true
  | String c rest => negb (Ascii.eqb c "}"%char) && noBrace rest
  end.

(** Patterns in which no [AnyName] has an [except], the [except] of an
    [NsName] is simple and the local names in it have no closing brace
    (an XML name has none). *)
Fixpoint localNamesOk (p : ConcreteName) : bool :=
  match p with
  | Name _ name => noBrace name
  | NameChoice a b => localNamesOk a && localNamesOk b
  | NsName _ except | AnyName except =>
      match except with Some e => localNamesOk e | None => true end
  end.

Fixpoint plain (p : ConcreteName) : bool :=
  match p with
  | Name _ _ => true
  | NameChoice a b => plain a && plain b
  | NsName _ except =>
      match except with Some e => simple e && localNamesOk e | None => true end
  | AnyName except =>
      match except with Some _ => false | None => true end
  end.

(** What the Map of [uniqueNames] holds: every entry is filed under the key
    of its name. *)
Definition keyed (m : list (string * (string * string))) : Prop :=
  Forall (fun kv => fst kv = nameKey (snd kv) /\ noBrace (snd (snd kv)) = true) m.

End name_patterns.

(** ** patterns/ref.ts and patterns/not_allowed.ts *)

Module patterns.
Import name_patterns.

(** The name an error carries: a name pattern of the schema, or
    [new Name(params[0], params[1])], whose fields are [undefined] when the
    event has too few parameters. *)
Inductive ErrorName : Type :=
| OfPattern (p : ConcreteName)
| OfParams (ns name : option string).

(** The error classes of ../errors that the code under study constructs. *)
Inductive salveError : Type :=
| ValidationError (msg : string)
| ElementNameError (msg : string) (name : ErrorName)
| AttributeNameError (msg : string) (name : ErrorName).

(** [EndResult = false | ValidationError[]]: [None] is [false]. *)
Definition EndResult : Type := option (list salveError).

Record NotAllowed : Type := mkNotAllowed { na_xmlPath : string }.

(** The pattern classes under study, with the fields of [Define] and of the
    [Element] pattern that they read. A [Ref] holds the [Define] it was
    linked to by [_prepare]. *)
Inductive Pattern : Type :=
| PNotAllowed (n : NotAllowed)
| PRef (r : Ref)
with Ref : Type :=
| mkRef (xmlPath name : string) (resolvesTo : option Define)
with Define : Type :=
| mkDefine (name : string) (pat : Element)
with Element : Type :=
| mkElement (name : ConcreteName) (pat : Pattern) (notAllowed : bool).

Definition ref_name (r : Ref) : string :=
  match r with mkRef _ name _ => name end.
Definition ref_xmlPath (r : Ref) : string :=
  match r with mkRef xmlPath _ _ => xmlPath end.
Definition resolvesTo (r : Ref) : option Define :=
  match r with mkRef _ _ d => d end.
Definition define_name (d : Define) : string :=
  match d with mkDefine name _ => name end.
Definition define_pat (d : Define) : Element :=
  match d with mkDefine _ pat => pat end.
Definition element_name (e : Element) : ConcreteName :=
  match e with mkElement name _ _ => name end.
Definition element_pat (e : Element) : Pattern :=
  match e with mkElement _ pat _ => pat end.
Definition element_notAllowed (e : Element) : bool :=
  match e with mkElement _ _ notAllowed => notAllowed end.

Record EnterStartTagEvent : Type := mkEnterStartTagEvent {
  namePattern : ConcreteName
}.

Record NotAllowedWalker : Type := mkNotAllowedWalker {
  naw_el : NotAllowed;
  naw_canEnd : bool;
  naw_canEndAttribute : bool
}.

Record RefWalker : Type := mkRefWalker {
  el : Ref;
  element : Element;
  startName : ConcreteName;
  startTagEvent : EnterStartTagEvent;
  canEndAttribute : bool;
  canEnd : bool
}.

Record InternalFireEventResult : Type := mkInternalFireEventResult {
  matched : bool;
  errors : option (list salveError);
  refs : option (list RefWalker)
}.

Inductive InternalWalker : Type :=
| WNotAllowed (w : NotAllowedWalker)
| WRef (w : RefWalker).

(** [Ref._prepare(definitions)]: the Ref with [resolvesTo] set. *)
Definition Ref_prepare (r : Ref) (definitions : gmap string Define) : outcome Ref :=
  match definitions !! ref_name r with
  | None => Throw (Error "${this.name} cannot be resolved")
  | Some d => Ret (mkRef (ref_xmlPath r) (ref_name r) (Some d))
  end.

(** [Ref.hasEmptyPattern()]. *)
Definition Ref_hasEmptyPattern (r : Ref) : bool := false.

(** [Ref.element]. *)
Definition Ref_element (r : Ref) : outcome Element :=
  match resolvesTo r with
  | None =>
      Throw (Error "trying to get an element on a ref hat has not been resolved")
  | Some d => Ret (define_pat d)
  end.

(** [new NotAllowedWalker(el)]. *)
Definition newNotAllowedWalker (el : NotAllowed) : NotAllowedWalker :=
  {| naw_el := el; naw_canEnd := true; naw_canEndAttribute := true |}.

(** [const singleton = new NotAllowedWalker(new NotAllowed("FAKE ELEMENT"))]. *)
Definition singleton : NotAllowedWalker :=
  newNotAllowedWalker (mkNotAllowed "FAKE ELEMENT").

(** [newWalker()] of [NotAllowed] and of [Ref]. *)
Fixpoint newWalker (p : Pattern) : outcome InternalWalker :=
  match p with
  | PNotAllowed _ => Ret (WNotAllowed singleton)
  | PRef r =>
      match r with
      | mkRef _ _ None =>
          Throw (Error "trying to get an element on a ref hat has not been resolved")
      | mkRef _ _ (Some (mkDefine _ (mkElement name pat notAllowed as element))) =>
          if notAllowed then newWalker pat
          else Ret (WRef {| el := r;
                            element := element;
                            startName := name;
                            startTagEvent := mkEnterStartTagEvent name;
                            canEndAttribute := true;
                            canEnd := false |})
      end
  end.

(** The [canEnd] field of a walker. *)
Definition walker_canEnd (w : InternalWalker) : bool :=
  match w with
  | WNotAllowed w => naw_canEnd w
  | WRef w => canEnd w
  end.

(** [NotAllowedWalker.fireEvent()], [end()]. *)
Definition NotAllowedWalker_fireEvent (w : NotAllowedWalker) :
  NotAllowedWalker * InternalFireEventResult :=
  (w, mkInternalFireEventResult false None None).

Definition NotAllowedWalker_end (w : NotAllowedWalker) : EndResult := None.

Definition setCanEnd (w : RefWalker) (b : bool) : RefWalker :=
  {| el := el w; element := element w; startName := startName w;
     startTagEvent := startTagEvent w; canEndAttribute := canEndAttribute w;
     canEnd := b |}.

(** [RefWalker.fireEvent(name, params)]: the walker after the call, and the
    result; [refs] holds the walker itself. *)
Definition RefWalker_fireEvent (w : RefWalker) (name : string)
  (params : list string) : RefWalker * InternalFireEventResult :=
  if negb (canEnd w) &&
     (String.eqb name "enterStartTag" || String.eqb name "startTagAndAttributes") &&
     matchValue (startName w) (params !! 0%nat) (params !! 1%nat)
  then
    let w' := setCanEnd w true in
    (w', mkInternalFireEventResult true None (Some [w']))
  else (w, mkInternalFireEventResult false None None).

(** [RefWalker.end()]. *)
Definition RefWalker_end (w : RefWalker) : EndResult :=
  if negb (canEnd w)
  then Some [ElementNameError "tag required" (OfPattern (startName w))]
  else None.

(** [RefWalker.clone()]. *)
Definition RefWalker_clone (w : RefWalker) : RefWalker :=
  mkRefWalker (el w) (element w) (startName w) (startTagEvent w)
    (canEndAttribute w) (canEnd w).

(** A run of [fireEvent] calls on one walker: the walker at the end and the
    results in order. *)
Fixpoint fireEvents (w : RefWalker) (events : list (string * list string)) :
  RefWalker * list InternalFireEventResult :=
  match events with
  | [] => (w, [])
  | (name, params) :: rest =>
      let '(w', r) := RefWalker_fireEvent w name params in
      let '(w'', rs) := fireEvents w' rest in
      (w'', r :: rs)
  end.

(** *** Used in the statements *)

(** What [fireEvent] tests before it accepts. *)
Definition accepts (w : RefWalker) (name : string) (params : list string) : bool :=
  negb (canEnd w) &&
  (String.eqb name "enterStartTag" || String.eqb name "startTagAndAttributes") &&
  matchValue (startName w) (params !! 0%nat) (params !! 1%nat).

(** How many results of a run say [matched]. *)
Definition countMatched (rs : list InternalFireEventResult) : nat :=
  length (List.filter matched rs).

(** The element [a], whose content is a reference to [b]. *)
Definition elementA : Element :=
  mkElement (Name "" "a") (PRef (mkRef "/grammar/define/element/ref" "b" None))
    false.

(** A reference to the element [a], linked, and its fresh walker. *)
Definition refToA : Ref :=
  mkRef "/grammar/start/ref" "a"
    (Some (mkDefine "a" elementA)).

Definition walkerOfA : RefWalker :=
  {| el := refToA;
     element := elementA;
     startName := Name "" "a";
     startTagEvent := mkEnterStartTagEvent (Name "" "a");
     canEndAttribute := true;
     canEnd := false |}.

(** A reference to an element [a] whose content is [notAllowed]. *)
Definition refToNotAllowedElement : Ref :=
  mkRef "/grammar/start/ref" "a"
    (Some (mkDefine "a"
             (mkElement (Name "" "a") (PNotAllowed (mkNotAllowed "/x")) true))).

(** *** The other methods of the walkers *)

(** [RefWalker.possible()]: the Set as the list of its entries. *)
Definition RefWalker_possible (w : RefWalker) : list EnterStartTagEvent :=
  if canEnd w then [] else [startTagEvent w].

(** [RefWalker.possibleAttributes()], [RefWalker.endAttributes()]. *)
Definition RefWalker_possibleAttributes (w : RefWalker) : list EnterStartTagEvent := [].
Definition RefWalker_endAttributes (w : RefWalker) : EndResult := None.

(** [NotAllowedWalker.possible()], [possibleAttributes()],
    [endAttributes()], [clone()]. *)
Definition NotAllowedWalker_possible (w : NotAllowedWalker) :
  list EnterStartTagEvent := [].
Definition NotAllowedWalker_possibleAttributes (w : NotAllowedWalker) :
  list EnterStartTagEvent := [].
Definition NotAllowedWalker_endAttributes (w : NotAllowedWalker) : EndResult := None.
Definition NotAllowedWalker_clone (w : NotAllowedWalker) : NotAllowedWalker := w.

(** [possible()] of a walker that [newWalker] hands out. *)
Definition walker_possible (w : InternalWalker) : list EnterStartTagEvent :=
  match w with
  | WNotAllowed w => NotAllowedWalker_possible w
  | WRef w => RefWalker_possible w
  end.

(** [fireEvent(name, params)] of a walker that [newWalker] hands out. *)
Definition walker_fireEvent (w : InternalWalker) (name : string)
  (params : list string) : InternalWalker * InternalFireEventResult :=
  match w with
  | WNotAllowed w =>
      let '(w', r) := NotAllowedWalker_fireEvent w in (WNotAllowed w', r)
  | WRef w =>
      let '(w', r) := RefWalker_fireEvent w name params in (WRef w', r)
  end.

(** A run of [fireEvent] calls on such a walker. *)
Fixpoint walker_fireEvents (w : InternalWalker)
  (events : list (string * list string)) : InternalWalker :=
  match events with
  | [] => w
  | (name, params) :: rest =>
      walker_fireEvents (fst (walker_fireEvent w name params)) rest
  end.

End patterns.

(** ** The file of Grammar and GrammarWalker *)

Module grammar.
Import name_patterns patterns.

(** A [Grammar] after construction: [definitions] is the Map, in insertion
    order. *)
Record Grammar : Type := mkGrammar {
  g_xmlPath : string;
  start : Pattern;
  definitions : list (string * Define)
}.

(** [Grammar.elementDefinitions]: the element patterns of the definitions,
    grouped by the string form of their name pattern. *)
Definition elementDefinitions (g : Grammar) : gmap string (list Element) :=
  fold_left
    (fun (newDef : gmap string (list Element)) (def : string * Define) =>
       let el := define_pat (snd def) in
       let key := toString (element_name el) in
       match newDef !! key with
       | None => <[key := [el]]> newDef
       | Some els => <[key := els ++ [el]]> newDef
       end)
    (definitions g) ∅.

(** [Grammar.whollyContextIndependent()]. *)
Definition whollyContextIndependent (g : Grammar) : bool :=
  forallb (fun kv => negb (Nat.ltb 1 (length (snd kv))))
    (map_to_list (elementDefinitions g)).

(** [FireEventResult = false | ValidationError[]]: [None] is [false]. *)
Definition FireEventResult : Type := option (list salveError).

Record MisplacedElementWalker : Type := mkMisplacedElementWalker {
  mw_canEnd : bool;
  mw_canEndAttribute : bool
}.

Definition newMisplacedElementWalker : MisplacedElementWalker :=
  {| mw_canEnd := true; mw_canEndAttribute := true |}.

(** [MisplacedElementWalker.fireEvent(name, params)]. *)
Definition MisplacedElementWalker_fireEvent (name : string) :
  InternalFireEventResult :=
  if String.eqb name "enterStartTag" || String.eqb name "startTagAndAttributes"
  then mkInternalFireEventResult false None None
  else mkInternalFireEventResult true None None.

(** The white space of [\s], for strings of code units below 256. *)
Definition isWhitespace (c : ascii) : bool :=
  let n := nat_of_ascii c in
  (Nat.leb 9 n && Nat.leb n 13) || Nat.eqb n 32 || Nat.eqb n 160.

(** [/\S/.test(text)]. *)
Fixpoint hasNonWhitespace (text : string) : bool :=
  match text with
  | EmptyString => false
  | String c rest => negb (isWhitespace c) || hasNonWhitespace rest
  end.

Section GrammarWalker.

(** The name resolver, and the walkers of the pattern classes that are not
    under study (the walker of an [Element] pattern and of its content):
    their type and the methods that the grammar walker calls. *)
Variable NameResolver : Type.
Variable ElementWalker : Type.
Variable ElementWalker_fireEvent :
  ElementWalker -> string -> list string -> NameResolver ->
  ElementWalker * InternalFireEventResult.
Variable ElementWalker_canEnd : ElementWalker -> bool.
Variable ElementWalker_end : ElementWalker -> EndResult.
(** [element.newWalker(boundName)], the name being
    [new Name(params[0], params[1])]. *)
Variable Element_newWalker :
  Element -> option string * option string -> ElementWalker.
Variable initWithAttributes :
  ElementWalker -> list string -> NameResolver ->
  ElementWalker * InternalFireEventResult.

(** What a frame of the stack can hold. *)
Inductive IWalker : Type :=
| IRef (w : RefWalker)
| INotAllowed (w : NotAllowedWalker)
| IMisplaced (w : MisplacedElementWalker)
| IElement (w : ElementWalker).

Definition ofInternalWalker (w : InternalWalker) : IWalker :=
  match w with
  | WNotAllowed n => INotAllowed n
  | WRef r => IRef r
  end.

Record GrammarWalker : Type := mkGrammarWalker {
  gw_el : Grammar;
  nameResolver : NameResolver;
  elementWalkerStack : list (list IWalker);
  misplacedDepth : nat;
  _swallowAttributeValue : bool;
  suspendedWs : option string;
  ignoreNextWs : bool
}.

(** [GrammarWalker.make(el, nameResolver)]. *)
Definition make (el : Grammar) (nr : NameResolver) : outcome GrammarWalker :=
  let* w := newWalker (start el) in
  Ret {| gw_el := el; nameResolver := nr;
         elementWalkerStack := [[ofInternalWalker w]];
         misplacedDepth := 0; _swallowAttributeValue := false;
         suspendedWs := None; ignoreNextWs := false |}.

Definition setStack (gw : GrammarWalker) (st : list (list IWalker)) : GrammarWalker :=
  mkGrammarWalker (gw_el gw) (nameResolver gw) st (misplacedDepth gw)
    (_swallowAttributeValue gw) (suspendedWs gw) (ignoreNextWs gw).
Definition setMisplacedDepth (gw : GrammarWalker) (d : nat) : GrammarWalker :=
  mkGrammarWalker (gw_el gw) (nameResolver gw) (elementWalkerStack gw) d
    (_swallowAttributeValue gw) (suspendedWs gw) (ignoreNextWs gw).
Definition setSwallowAttributeValue (gw : GrammarWalker) (b : bool) : GrammarWalker :=
  mkGrammarWalker (gw_el gw) (nameResolver gw) (elementWalkerStack gw)
    (misplacedDepth gw) b (suspendedWs gw) (ignoreNextWs gw).
Definition setSuspendedWs (gw : GrammarWalker) (ws : option string) : GrammarWalker :=
  mkGrammarWalker (gw_el gw) (nameResolver gw) (elementWalkerStack gw)
    (misplacedDepth gw) (_swallowAttributeValue gw) ws (ignoreNextWs gw).
Definition setIgnoreNextWs (gw : GrammarWalker) (b : bool) : GrammarWalker :=
  mkGrammarWalker (gw_el gw) (nameResolver gw) (elementWalkerStack gw)
    (misplacedDepth gw) (_swallowAttributeValue gw) (suspendedWs gw) b.

(** [walker.fireEvent(name, params, nameResolver)] on any walker of a
    frame: the walker after the call and the result. *)
Definition IWalker_fireEvent (w : IWalker) (name : string) (params : list string)
  (nr : NameResolver) : IWalker * InternalFireEventResult :=
  match w with
  | IRef r =>
      let '(r', res) := RefWalker_fireEvent r name params in (IRef r', res)
  | INotAllowed n =>
      let '(n', res) := NotAllowedWalker_fireEvent n in (INotAllowed n', res)
  | IMisplaced m => (IMisplaced m, MisplacedElementWalker_fireEvent name)
  | IElement e =>
      let '(e', res) := ElementWalker_fireEvent e name params nr in
      (IElement e', res)
  end.

Definition IWalker_canEnd (w : IWalker) : bool :=
  match w with
  | IRef r => canEnd r
  | INotAllowed n => naw_canEnd n
  | IMisplaced m => mw_canEnd m
  | IElement e => ElementWalker_canEnd e
  end.

Definition IWalker_end (w : IWalker) : EndResult :=
  match w with
  | IRef r => RefWalker_end r
  | INotAllowed n => NotAllowedWalker_end n
  | IMisplaced _ => None
  | IElement e => ElementWalker_end e
  end.

(** The frame [elementWalkerStack[elementWalkerStack.length - 1]]; reading
    [.length] of what an empty stack gives is a TypeError. *)
Definition topFrame (gw : GrammarWalker) : outcome (list IWalker) :=
  match last (elementWalkerStack gw) with
  | Some walkers => Ret walkers
  | None => Throw (TypeError "Cannot read properties of undefined")
  end.

(** [elementWalkerStack[last] = walkers]. *)
Definition setTopFrame (gw : GrammarWalker) (walkers : list IWalker) : GrammarWalker :=
  setStack gw
    (<[pred (length (elementWalkerStack gw)) := walkers]> (elementWalkerStack gw)).

(** The state of the loop over the walkers of a frame. *)
Record FireLoop : Type := mkFireLoop {
  fired : list IWalker;
  loopErrors : list salveError;
  loopRefs : list RefWalker;
  remainingWalkers : list IWalker
}.

Definition fireStep (name : string) (params : list string) (nr : NameResolver)
  (st : FireLoop) (walker : IWalker) : FireLoop :=
  let '(walker', result) := IWalker_fireEvent walker name params nr in
  if matched result then
    {| fired := fired st ++ [walker'];
       loopErrors := loopErrors st;
       loopRefs := match refs result with
                   | Some rs => loopRefs st ++ rs
                   | None => loopRefs st
                   end;
       remainingWalkers := remainingWalkers st ++ [walker'] |}
  else
    {| fired := fired st ++ [walker'];
       loopErrors := match remainingWalkers st, errors result with
                     | [], Some es => loopErrors st ++ es
                     | _, _ => loopErrors st
                     end;
       loopRefs := loopRefs st;
       remainingWalkers := remainingWalkers st |}.

(** [_fireOnCurrentWalkers(name, params)]. The walkers are objects that
    their [fireEvent] changes in place, so that the frame holds them as they
    are after the call. *)
Definition _fireOnCurrentWalkers (gw : GrammarWalker) (name : string)
  (params : list string) : outcome (GrammarWalker * InternalFireEventResult) :=
  let* walkers := topFrame gw in
  match walkers with
  | [walker] =>
      let '(walker', result) :=
        IWalker_fireEvent walker name params (nameResolver gw) in
      Ret (setTopFrame gw [walker'], result)
  | _ =>
      let st := fold_left (fireStep name params (nameResolver gw)) walkers
                  (mkFireLoop [] [] [] []) in
      match remainingWalkers st with
      | [] =>
          Ret (setTopFrame gw (fired st),
               mkInternalFireEventResult false
                 (match loopErrors st with [] => None | es => Some es end)
                 None)
      | remaining =>
          Ret (setTopFrame gw remaining,
               mkInternalFireEventResult true None
                 (match loopRefs st with [] => None | rs => Some rs end))
      end
  end.

(** [_fireSuspendedWsOnCurrentWalkers()]. *)
Definition _fireSuspendedWsOnCurrentWalkers (gw : GrammarWalker) :
  outcome (GrammarWalker * bool) :=
  let* walkers := topFrame gw in
  let params := match suspendedWs gw with Some ws => [ws] | None => [] end in
  match walkers with
  | [walker] =>
      let '(walker', result) :=
        IWalker_fireEvent walker "text" params (nameResolver gw) in
      Ret (setTopFrame gw [walker'], matched result)
  | _ =>
      let st := fold_left (fireStep "text" params (nameResolver gw)) walkers
                  (mkFireLoop [] [] [] []) in
      match remainingWalkers st with
      | [] => Ret (setTopFrame gw (fired st), false)
      | remaining => Ret (setTopFrame gw remaining, true)
      end
  end.

Definition pushFrame (gw : GrammarWalker) (walkers : list IWalker) : GrammarWalker :=
  setStack gw (elementWalkerStack gw ++ [walkers]).

Fixpoint initWalkers (refs : list RefWalker) (params : list string)
  (nr : NameResolver) : outcome (list IWalker) :=
  match refs with
  | [] => Ret []
  | item :: rest =>
      let walker :=
        Element_newWalker (element item) (params !! 0%nat, params !! 1%nat) in
      let '(walker', r) := initWithAttributes walker params nr in
      if negb (matched r)
      then Throw (Error "error or failed to match on a new element walker: the internal logic is incorrect")
      else let* ws := initWalkers rest params nr in Ret (IElement walker' :: ws)
  end.

(** [_processRefs(name, refs, params)]. *)
Definition _processRefs (gw : GrammarWalker) (name : string)
  (refs : list RefWalker) (params : list string) : outcome GrammarWalker :=
  let boundName := (params !! 0%nat, params !! 1%nat) in
  let* newWalkers :=
    if String.eqb name "startTagAndAttributes"
    then initWalkers refs params (nameResolver gw)
    else Ret (map (fun item => IElement (Element_newWalker (element item) boundName))
                refs) in
  Ret (pushFrame gw newWalkers).

(** [new Name(params[0], params[1]).toString()]; [escapeString] of an
    [undefined] namespace is a TypeError. *)
Definition paramNameToString (n : option string * option string) : outcome string :=
  match fst n with
  | None => Throw (TypeError "Cannot read properties of undefined")
  | Some ns => Ret (toString (Name ns (default "undefined" (snd n))))
  end.

(** [diagnose(name, params, wsMatch)]. *)
Definition diagnose (gw : GrammarWalker) (name : string) (params : list string)
  (wsMatch : bool) : outcome (GrammarWalker * FireEventResult) :=
  let elName := (params !! 0%nat, params !! 1%nat) in
  if String.eqb name "enterStartTag" || String.eqb name "startTagAndAttributes" then
    if Nat.ltb 0 (misplacedDepth gw) then
      Ret (pushFrame (setMisplacedDepth gw (S (misplacedDepth gw)))
             [IMisplaced newMisplacedElementWalker],
           if wsMatch then None
           else Some [ValidationError "text not allowed here"])
    else
      let* key := paramNameToString elName in
      let* gw' :=
        match elementDefinitions (gw_el gw) !! key with
        | Some [candidate] =>
            let newWalker := Element_newWalker candidate elName in
            if String.eqb name "startTagAndAttributes" then
              let '(newWalker', r) :=
                initWithAttributes newWalker params (nameResolver gw) in
              if negb (matched r)
              then Throw (Error "internal error: the inferred element does not accept its initial event")
              else Ret (pushFrame gw [IElement newWalker'])
            else Ret (pushFrame gw [IElement newWalker])
        | _ =>
            Ret (pushFrame (setMisplacedDepth gw (S (misplacedDepth gw)))
                   [IMisplaced newMisplacedElementWalker])
        end in
      Ret (gw',
           Some [ElementNameError
                   (if String.eqb name "enterStartTag"
                    then "tag not allowed here"
                    else "tag not allowed here with these attributes")
                   (OfParams (fst elName) (snd elName))])
  else if String.eqb name "endTag" then
    Ret (gw, Some [ElementNameError "unexpected end tag"
                     (OfParams (fst elName) (snd elName))])
  else if String.eqb name "attributeName" then
    Ret (setSwallowAttributeValue gw true,
         Some [AttributeNameError "attribute not allowed here"
                 (OfParams (fst elName) (snd elName))])
  else if String.eqb name "attributeNameAndValue" then
    Ret (gw, Some [AttributeNameError "attribute not allowed here"
                     (OfParams (fst elName) (snd elName))])
  else if String.eqb name "attributeValue" then
    Ret (gw, Some [ValidationError "unexpected attributeValue event; it is likely that fireEvent is incorrectly called"])
  else if String.eqb name "text" then
    Ret (gw, Some [ValidationError "text not allowed here"])
  else
    Throw (Error ("unexpected event type in GrammarWalker's fireEvent: " ++ name)).

(** The part of [fireEvent] after the switch on white space. *)
Definition fireEventRest (gw : GrammarWalker) (name : string)
  (params : list string) (wsMatch : bool) :
  outcome (GrammarWalker * FireEventResult) :=
  let gw := setSuspendedWs gw None in
  if _swallowAttributeValue gw then
    Ret (setSwallowAttributeValue gw false,
         if String.eqb name "attributeValue" then None
         else Some [ValidationError "attribute value required"])
  else
    let* '(gw, ret) := _fireOnCurrentWalkers gw name params in
    let gw :=
      if String.eqb name "endTag" then
        let gw :=
          if Nat.ltb 1 (length (elementWalkerStack gw))
          then setStack gw (removelast (elementWalkerStack gw))
          else gw in
        if Nat.ltb 0 (misplacedDepth gw)
        then setMisplacedDepth gw (pred (misplacedDepth gw))
        else gw
      else gw in
    if matched ret then
      match refs ret with
      | Some (r :: rs) =>
          let* gw := _processRefs gw name (r :: rs) params in
          Ret (gw, None)
      | _ =>
          Ret (gw, if wsMatch then None
                   else Some [ValidationError "text not allowed here"])
      end
    else
      match errors ret with
      | Some es => Ret (gw, Some es)
      | None => diagnose gw name params wsMatch
      end.

(** [GrammarWalker.fireEvent(name, params)]. *)
Definition fireEvent (gw : GrammarWalker) (name : string) (params : list string) :
  outcome (GrammarWalker * FireEventResult) :=
  if String.eqb name "text" then
    match params !! 0%nat with
    | Some text =>
        if negb (hasNonWhitespace text) then
          if String.eqb text ""
          then Throw (Error "firing empty text events makes no sense")
          else Ret (setSuspendedWs gw (Some text), None)
        else fireEventRest gw name params true
    | None => fireEventRest gw name params true
    end
  else if String.eqb name "endTag" then
    let* '(gw, wsMatch) :=
      if negb (ignoreNextWs gw) && bool_decide (suspendedWs gw <> None)
      then _fireSuspendedWsOnCurrentWalkers gw
      else Ret (gw, true) in
    fireEventRest (setIgnoreNextWs gw true) name params wsMatch
  else
    fireEventRest (setIgnoreNextWs gw false) name params true.

(** [GrammarWalker.canEnd()]. *)
Definition GrammarWalker_canEnd (gw : GrammarWalker) : bool :=
  match elementWalkerStack gw with
  | [top] =>
      match top with
      | w :: _ => IWalker_canEnd w
      | [] => false
      end
  | _ => false
  end.

(** [GrammarWalker.end()]. *)
Definition GrammarWalker_end (gw : GrammarWalker) : outcome EndResult :=
  match elementWalkerStack gw with
  | [] => Throw (Error "stack underflow")
  | stack =>
      let finalResult :=
        fold_left
          (fun acc stackElement =>
             fold_left (fun acc walker =>
                          match IWalker_end walker with
                          | Some result => acc ++ result
                          | None => acc
                          end) stackElement acc)
          (rev stack) [] in
      Ret (match finalResult with [] => None | _ => Some finalResult end)
  end.

(** A whitespace-only text: what the switch of [fireEvent] keeps for
    itself. *)
Definition isWhitespaceText (name : string) (params : list string) : bool :=
  String.eqb name "text" &&
  match params !! 0%nat with
  | Some text => negb (hasNonWhitespace text)
  | None => false
  end.

(** The result of the one call that is special-cased. *)
Definition swallowed (name : string) : FireEventResult :=
  if String.eqb name "attributeValue" then None
  else Some [ValidationError "attribute value required"].

(** The walker as [fireEvent] has it when it fires the event on the
    frame, for an event that is neither [text] nor [endTag]. *)
Definition beforeFiring (gw : GrammarWalker) : GrammarWalker :=
  setSuspendedWs (setIgnoreNextWs gw false) None.

End GrammarWalker.

(** A grammar whose start is a reference to the element [a], walked with
    no name resolver and no element walkers. *)
Definition grammarA : Grammar :=
  {| g_xmlPath := "/grammar";
     start := PRef refToA;
     definitions :=
       [("a", mkDefine "a" elementA)] |}.

Definition noElementWalker_fireEvent (w : unit) (name : string)
  (params : list string) (nr : unit) : unit * InternalFireEventResult :=
  (w, mkInternalFireEventResult false None None).

Definition noElement_newWalker (e : Element) (n : option string * option string) :
  unit := tt.

Definition noInitWithAttributes (w : unit) (params : list string) (nr : unit) :
  unit * InternalFireEventResult :=
  (w, mkInternalFireEventResult false None None).

Definition fireA :=
  fireEvent unit unit noElementWalker_fireEvent noElement_newWalker
    noInitWithAttributes.

Definition walkerA : GrammarWalker unit unit :=
  {| gw_el := grammarA; nameResolver := tt;
     elementWalkerStack := [[IRef unit walkerOfA]];
     misplacedDepth := 0; _swallowAttributeValue := false;
     suspendedWs := None; ignoreNextWs := false |}.

(** *** Runs of events, misplaced elements *)

(** The key under which [elementDefinitions] files the element of a
    definition. *)
Definition elementKey (def : string * Define) : string :=
  toString (element_name (define_pat (snd def))).

(** One turn of the loop of [elementDefinitions]. *)
Definition fileElement (newDef : gmap string (list Element))
  (def : string * Define) : gmap string (list Element) :=
  let el := define_pat (snd def) in
  let key := toString (element_name el) in
  match newDef !! key with
  | None => <[key := [el]]> newDef
  | Some els => <[key := els ++ [el]]> newDef
  end.

Section Runs.
Variable NameResolver : Type.
Variable ElementWalker : Type.
Variable ElementWalker_fireEvent :
  ElementWalker -> string -> list string -> NameResolver ->
  ElementWalker * InternalFireEventResult.
Variable Element_newWalker :
  Element -> option string * option string -> ElementWalker.
Variable initWithAttributes :
  ElementWalker -> list string -> NameResolver ->
  ElementWalker * InternalFireEventResult.

(** A run of [fireEvent] calls on one walker: the walker at the end and the
    results in order; a call that throws ends the run. *)
Fixpoint fireAll (gw : GrammarWalker NameResolver ElementWalker)
  (events : list (string * list string)) :
  outcome (GrammarWalker NameResolver ElementWalker * list FireEventResult) :=
  match events with
  | [] => Ret (gw, [])
  | (name, params) :: rest =>
      let* '(gw', r) :=
        fireEvent NameResolver ElementWalker ElementWalker_fireEvent
          Element_newWalker initWithAttributes gw name params in
      let* '(gw'', rs) := fireAll gw' rest in
      Ret (gw'', r :: rs)
  end.

(** The walker is inside an element that it could not place ("dumb
    mode"): the top frame holds a [MisplacedElementWalker]. *)
Definition inMisplacedElement (gw : GrammarWalker NameResolver ElementWalker) : Prop :=
  0 < misplacedDepth _ _ gw /\
  _swallowAttributeValue _ _ gw = false /\
  exists below m, elementWalkerStack _ _ gw = below ++ [[IMisplaced _ m]] /\
                  below <> [].

End Runs.

(** The walker of [grammarA] inside an element that it could not place. *)
Definition walkerInMisplaced : GrammarWalker unit unit :=
  {| gw_el := grammarA; nameResolver := tt;
     elementWalkerStack :=
       [[IRef unit walkerOfA]; [IMisplaced unit newMisplacedElementWalker]];
     misplacedDepth := 1; _swallowAttributeValue := false;
     suspendedWs := None; ignoreNextWs := false |}.

End grammar.

(** ** conversion/parser.ts: the Element tree *)

Module parser.

(** Nodes are objects: a node is named by its reference, and the store
    maps the references to the fields of the objects. *)
Definition ref : Type := nat.

Record QualifiedAttribute : Type := mkQualifiedAttribute {
  qa_name : string;
  qa_prefix : string;
  qa_local : string;
  qa_uri : string;
  qa_value : string
}.

Record Element : Type := mkElement {
  _parent : option ref;
  _path : option string;
  prefix : string;
  local : string;
  uri : string;
  ns : gmap string string;
  attributes : gmap string QualifiedAttribute;
  children : list ref
}.

Record Text : Type := mkText {
  t_parent : option ref;
  text : string
}.

Inductive ConcreteNode : Type :=
| ElementNode (e : Element)
| TextNode (t : Text).

Abbreviation store := (gmap nat ConcreteNode).

(** [isElement(node)]. *)
Definition isElement (h : store) (node : ref) : bool :=
  match h !! node with
  | Some (ElementNode _) => true
  | _ => false
  end.

(** [node.parent]. *)
Definition parent (h : store) (node : ref) : option ref :=
  match h !! node with
  | Some (ElementNode e) => _parent e
  | Some (TextNode t) => t_parent t
  | None => None
  end.

(** [node.parent = value]; [Element.setParent] also voids the path. *)
Definition setParent (h : store) (node : ref) (value : option ref) : store :=
  match h !! node with
  | Some (ElementNode e) =>
      <[node := ElementNode
                  (mkElement value None (prefix e) (local e) (uri e) (ns e)
                     (attributes e) (children e))]> h
  | Some (TextNode t) => <[node := TextNode (mkText value (text t))]> h
  | None => h
  end.

(** [el.children], the array of an Element. *)
Definition childrenOf (h : store) (el : ref) : list ref :=
  match h !! el with
  | Some (ElementNode e) => children e
  | _ => []
  end.

(** The array [el.children] after a change in place. *)
Definition setChildren (h : store) (el : ref) (cs : list ref) : store :=
  match h !! el with
  | Some (ElementNode e) =>
      <[el := ElementNode
                (mkElement (_parent e) (_path e) (prefix e) (local e) (uri e)
                   (ns e) (attributes e) cs)]> h
  | _ => h
  end.

(** [el.local]. *)
Definition localOf (h : store) (el : ref) : option string :=
  match h !! el with
  | Some (ElementNode e) => Some (local e)
  | _ => None
  end.

(** [el.local = name]. *)
Definition setLocal (h : store) (el : ref) (name : string) : store :=
  match h !! el with
  | Some (ElementNode e) =>
      <[el := ElementNode
                (mkElement (_parent e) (_path e) (prefix e) name (uri e)
                   (ns e) (attributes e) (children e))]> h
  | _ => h
  end.

(** [for (const node of nodes) { node.parent = value; }] *)
Definition setParents (h : store) (nodes : list ref) (value : option ref) : store :=
  fold_left (fun h node => setParent h node value) nodes h.

(** [new Element(prefix, local, uri, ns, attributes, children)]: a new
    object whose array is [children], each of which gets the new element
    as its parent. The children are not taken out of the array of the
    element they were in ("these children must not yet be children of any
    element"). *)
Definition newElement (h : store) (prefix local uri : string)
  (ns : gmap string string) (attributes : gmap string QualifiedAttribute)
  (children : list ref) : store * ref :=
  let this := fresh (dom h) in
  let h := <[this := ElementNode
                       (mkElement None None prefix local uri ns attributes
                          children)]> h in
  (setParents h children (Some this), this).

(** [Element.makeElement(name)]. The declaration has the one parameter
    [name]: the element it makes has no children, also where a caller
    writes a second argument. *)
Definition makeElement (h : store) (name : string) : store * ref :=
  newElement h "" name "" ∅ ∅ [].

(** [Array.prototype.indexOf]. *)
Fixpoint indexOf (x : ref) (l : list ref) : option nat :=
  match l with
  | [] => None
  | y :: l' => if Nat.eqb y x then Some 0 else S <$> indexOf x l'
  end.

(** [this.indexOfChild(child)]. *)
Definition indexOfChild (h : store) (this child : ref) : outcome nat :=
  if bool_decide (parent h child = Some this) then
    match indexOf child (childrenOf h this) with
    | Some index => Ret index
    | None => Throw (Error "child not among children")
    end
  else Throw (Error "the child is not a child of this").

(** [this.removeChildAt(i)]: [this.children.splice(i, 1)[0].parent =
    undefined]. *)
Definition removeChildAt (h : store) (this : ref) (i : nat) : outcome store :=
  match childrenOf h this !! i with
  | None => Throw (TypeError "Cannot set properties of undefined")
  | Some removed =>
      Ret (setParent (setChildren h this (delete i (childrenOf h this)))
             removed None)
  end.

(** [this.removeChild(child)], the same splice at [indexOfChild(child)]. *)
Definition removeChild (h : store) (this child : ref) : outcome store :=
  let* i := indexOfChild h this child in
  removeChildAt h this i.

(** [if (x.parent !== undefined) { x.parent.removeChild(x); }]. *)
Definition detach (h : store) (x : ref) : outcome store :=
  match parent h x with
  | Some p => removeChild h p x
  | None => Ret h
  end.

(** [array[i] = x] for [i] up to the length of the array. *)
Definition arraySet (l : list ref) (i : nat) (x : ref) : list ref :=
  if Nat.ltb i (length l) then <[i := x]> l else l ++ [x].

(** [this.replaceChildAt(i, replacement)]. *)
Definition replaceChildAt (h : store) (this : ref) (i : nat) (replacement : ref) :
  outcome store :=
  let child := childrenOf h this !! i in
  let* h := detach h replacement in
  let h := setChildren h this (arraySet (childrenOf h this) i replacement) in
  match child with
  | None => Throw (TypeError "Cannot set properties of undefined")
  | Some child => Ret (setParent (setParent h child None) replacement (Some this))
  end.

(** [this.replaceChildWith(child, replacement)]. *)
Definition replaceChildWith (h : store) (this child replacement : ref) :
  outcome store :=
  let* i := indexOfChild h this child in
  replaceChildAt h this i replacement.

(** [this.appendChild(child)]. *)
Definition appendChild (h : store) (this child : ref) : outcome store :=
  let* h := detach h child in
  let h := setParent h child (Some this) in
  Ret (setChildren h this (childrenOf h this ++ [child])).

(** The loop [for (const el of children) { detach el; el.parent = this; }]
    of [appendChildren] and [insertAt]. *)
Fixpoint adopt (h : store) (this : ref) (els : list ref) : outcome store :=
  match els with
  | [] => Ret h
  | el :: rest =>
      let* h := detach h el in
      adopt (setParent h el (Some this)) this rest
  end.

(** [this.appendChildren(children)], for an array [children] of its own. *)
Definition appendChildren (h : store) (this : ref) (els : list ref) :
  outcome store :=
  let* h := adopt h this els in
  Ret (setChildren h this (childrenOf h this ++ els)).

(** [this.prependChild(child)]. *)
Definition prependChild (h : store) (this child : ref) : outcome store :=
  let* h := detach h child in
  let h := setParent h child (Some this) in
  Ret (setChildren h this (child :: childrenOf h this)).



(** [this.empty()]. *)
Definition empty (h : store) (this : ref) : store :=
  let cs := childrenOf h this in
  setParents (setChildren h this []) cs None.

(** [this.grabChildren(src)]. *)
Definition grabChildren (h : store) (this src : ref) : store :=
  let cs := childrenOf h src in
  let h := setChildren h src [] in
  let h := setChildren h this (childrenOf h this ++ cs) in
  setParents h cs (Some this).

(** [this.replaceContent(children)]. *)
Definition replaceContent (h : store) (this : ref) (els : list ref) : store :=
  let prev := childrenOf h this in
  let h := setChildren h this els in
  setParents (setParents h prev None) els (Some this).

(** [this.getAttribute(name)]. *)
Definition getAttribute (h : store) (this : ref) (name : string) : option string :=
  match h !! this with
  | Some (ElementNode e) => qa_value <$> attributes e !! name
  | _ => None
  end.

(** [this.attributes[name] = attr]. *)
Definition putAttribute (h : store) (this : ref) (name : string)
  (attr : QualifiedAttribute) : store :=
  match h !! this with
  | Some (ElementNode e) =>
      <[this := ElementNode
                  (mkElement (_parent e) (_path e) (prefix e) (local e) (uri e)
                     (ns e) (<[name := attr]> (attributes e)) (children e))]> h
  | _ => h
  end.

(** [this.setXMLNS(value)]; [XMLNS_NAMESPACE] is a constant of
    ../name_resolver. *)
Definition setXMLNS (XMLNS_NAMESPACE : string) (h : store) (this : ref)
  (value : string) : store :=
  putAttribute h this "xmlns"
    (mkQualifiedAttribute "xmlns" "xmlns" "" XMLNS_NAMESPACE value).

(** The getter [text]: the text of a Text node, the texts of the children
    of an Element put together. *)
Fixpoint textOf (fuel : nat) (h : store) (node : ref) : outcome string :=
  match fuel with
  | O => OutOfFuel
  | S fuel =>
      match h !! node with
      | Some (TextNode t) => Ret (text t)
      | Some (ElementNode e) =>
          fold_left (fun acc child =>
                       let* s := acc in
                       let* t := textOf fuel h child in
                       Ret (String.append s t))
            (children e) (Ret "")
      | None => Throw (TypeError "Cannot read properties of undefined")
      end
  end.

(** *** The parent/child invariant *)

(** For a node [r] of the store: every entry of its [children] has [r] as
    its parent and no entry is there twice; and when [r] has a parent, that
    parent is an element that has [r] among its children. *)
Definition nodeOk (h : store) (r : ref) (n : ConcreteNode) : Prop :=
  match n with
  | ElementNode e =>
      Forall (fun c => parent h c = Some r) (children e) /\ NoDup (children e)
  | TextNode _ => True
  end /\
  match parent h r with
  | Some p => r ∈ childrenOf h p
  | None => True
  end.

Definition parentChildInvariant (h : store) : Prop := map_Forall (nodeOk h) h.

#[export] Instance nodeOk_dec h r n : Decision (nodeOk h r n).
Proof. unfold nodeOk. destruct n, (parent h r); apply _. Defined.

#[export] Instance parentChildInvariant_dec h : Decision (parentChildInvariant h).
Proof. unfold parentChildInvariant. apply _. Defined.

(** The invariant, said with [parent] and [childrenOf] alone. *)
Record linksAgree (h : store) : Prop := mkLinksAgree {
  children_parent : forall p c, c ∈ childrenOf h p -> parent h c = Some p;
  parent_children : forall c p, parent h c = Some p -> c ∈ childrenOf h p;
  children_NoDup : forall p, NoDup (childrenOf h p)
}.

(** The invariant in the middle of [appendChild] and the like: the nodes of
    [pending] already have [this] as their parent and are not yet in its
    array. *)
Record linksAgreeBut (h : store) (this : ref) (pending : list ref) : Prop :=
  mkLinksAgreeBut {
  p_children_parent : forall p c, c ∈ childrenOf h p -> parent h c = Some p;
  p_parent_children :
    forall c p, parent h c = Some p -> c ∉ pending -> c ∈ childrenOf h p;
  p_children_NoDup : forall p, NoDup (childrenOf h p);
  p_pending :
    forall c, c ∈ pending ->
              parent h c = Some this /\ c ∉ childrenOf h this
}.

(** What a call leaves as it is: the objects of the store, their kind, the
    parent of the nodes outside [changedParent] and the array of the
    nodes outside [changedChildren]. *)
Record sameOutside (h h' : store) (changedParent changedChildren : list ref) :
  Prop := mkSameOutside {
  same_dom : dom h' = dom h;
  same_isElement : forall y, isElement h' y = isElement h y;
  same_parent : forall y, y ∉ changedParent -> parent h' y = parent h y;
  same_children : forall y, y ∉ changedChildren -> childrenOf h' y = childrenOf h y
}.

(** *** Trees used in the statements *)

(** An element without attributes. *)
Definition el (parent : option ref) (local : string) (children : list ref) :
  ConcreteNode :=
  ElementNode (mkElement parent None "" local "" ∅ ∅ children).

(** [<define><ref/><text/></define>]: the define is object 0, the ref is
    object 1 and the text element is object 2. *)
Definition defineOfTwo : store :=
  <[0 := el None "define" [1; 2]]>
    (<[1 := el (Some 0) "ref" []]>
       (<[2 := el (Some 0) "text" []]> ∅)).

(** The store after [define.replaceChildWith(text, ref)]. *)
Definition afterReplaceChildWith : store :=
  <[0 := el None "define" [2; 1]]>
    (<[1 := el (Some 0) "ref" []]>
       (<[2 := el None "text" []]> ∅)).

(** [<grammar><define><text/></define><define/></grammar>], objects 0, 1,
    3 and 2. *)
Definition grammarOfTwo : store :=
  <[0 := el None "grammar" [1; 2]]>
    (<[1 := el (Some 0) "define" [3]]>
       (<[2 := el (Some 0) "define" []]>
          (<[3 := el (Some 1) "text" []]> ∅))).

(** *** Further methods of Node and Element *)

(** [node.remove()]. *)
Definition remove (h : store) (this : ref) : outcome store :=
  match parent h this with
  | Some p => removeChild h p this
  | None => Ret h
  end.

(** [node.replaceWith(replacement)]. *)
Definition replaceWith (h : store) (this replacement : ref) : outcome store :=
  match parent h this with
  | None => Throw (Error "no parent")
  | Some p => replaceChildWith h p this replacement
  end.

(** [name.indexOf(":") !== -1]. *)
Fixpoint hasColon (name : string) : bool :=
  match name with
  | EmptyString => false
  | String c rest => Ascii.eqb c ":"%char || hasColon rest
  end.

(** [this.setAttribute(name, value)]. *)
Definition setAttribute (h : store) (this : ref) (name value : string) :
  outcome store :=
  if hasColon name
  then Throw (Error "we don't support namespaces on this function")
  else Ret (putAttribute h this name (mkQualifiedAttribute name "" name "" value)).

(** [this.removeAttribute(name)]. *)
Definition removeAttribute (h : store) (this : ref) (name : string) : store :=
  match h !! this with
  | Some (ElementNode e) =>
      <[this := ElementNode
                  (mkElement (_parent e) (_path e) (prefix e) (local e) (uri e)
                     (ns e) (delete name (attributes e)) (children e))]> h
  | _ => h
  end.

(** [this.mustGetAttribute(name)]. *)
Definition mustGetAttribute (h : store) (this : ref) (name : string) :
  outcome string :=
  match getAttribute h this name with
  | None => Throw (Error ("no attribute named " ++ name))
  | Some attr => Ret attr
  end.

(** [l] without the node [x]. *)
Definition without (x : ref) (l : list ref) : list ref :=
  List.filter (fun c => negb (Nat.eqb c x)) l.

(** [l] without the nodes of [xs]. *)
Definition withoutAll (xs : list ref) (l : list ref) : list ref :=
  List.filter (fun c => negb (existsb (Nat.eqb c) xs)) l.

(** [sax.QualifiedTag], with the fields that the parsers read. *)
Record QualifiedTag : Type := mkQualifiedTag {
  tag_prefix : string;
  tag_local : string;
  tag_uri : string;
  tag_ns : gmap string string;
  tag_attributes : gmap string QualifiedAttribute
}.

(** [new Text(text)]. *)
Definition newText (h : store) (text : string) : store * ref :=
  let this := fresh (dom h) in
  (<[this := TextNode (mkText None text)]> h, this).

(** [Element.fromSax(node, children)]. *)
Definition fromSax (h : store) (node : QualifiedTag) (children : list ref) :
  store * ref :=
  newElement h (tag_prefix node) (tag_local node) (tag_uri node) (tag_ns node)
    (tag_attributes node) children.

(** An entry of [BasicParser.stack]; the [node] of the entry at the bottom
    is [undefined]. *)
Record Frame : Type := mkFrame {
  f_node : option QualifiedTag;
  f_children : list ref
}.

(** The fields of a [BasicParser]; the entry at index 0 of [stack] is
    the head of the list. *)
Record BasicParser : Type := mkBasicParser {
  bp_stack : list Frame;
  bp_drop : nat
}.

(** [new BasicParser(saxParser, validator)]. *)
Definition newBasicParser : BasicParser :=
  {| bp_stack := [mkFrame None []]; bp_drop := 0 |}.

(** The events of the SAX parser that the parsers have methods for. *)
Inductive SaxEvent : Type :=
| OpenTag (node : QualifiedTag)
| CloseTag (node : QualifiedTag)
| TextEvent (text : string).

Section Parsers.

(** The validator that the parser was made with, an object with the three
    methods of [ValidatorI], and [RELAXNG_URI] of ./simplifier/util. *)
Variable Validator : Type.
Variable validator_onopentag : Validator -> QualifiedTag -> outcome Validator.
Variable validator_onclosetag : Validator -> QualifiedTag -> outcome Validator.
Variable validator_ontext : Validator -> string -> outcome Validator.
Variable RELAXNG_URI : string.

(** The store, the parser and its validator. *)
Definition ParserState : Type := store * BasicParser * Validator.

(** [BasicParser.onopentag(node)]. *)
Definition BasicParser_onopentag (st : ParserState) (node : QualifiedTag) :
  outcome ParserState :=
  let '(h, p, v) := st in
  let* v := validator_onopentag v node in
  if negb (String.eqb (tag_uri node) RELAXNG_URI) || negb (Nat.eqb (bp_drop p) 0)
  then Ret (h, {| bp_stack := bp_stack p; bp_drop := S (bp_drop p) |}, v)
  else Ret (h, {| bp_stack := mkFrame (Some node) [] :: bp_stack p;
                  bp_drop := bp_drop p |}, v).

(** [BasicParser.onclosetag(node)]. *)
Definition BasicParser_onclosetag (st : ParserState) (node : QualifiedTag) :
  outcome ParserState :=
  let '(h, p, v) := st in
  let* v := validator_onclosetag v node in
  if negb (Nat.eqb (bp_drop p) 0)
  then Ret (h, {| bp_stack := bp_stack p; bp_drop := pred (bp_drop p) |}, v)
  else
    match bp_stack p with
    | [] => Throw (TypeError "Cannot destructure property of undefined")
    | top :: rest =>
        match rest with
        | [] => Throw (TypeError "Cannot read properties of undefined")
        | next :: rest' =>
            match f_node top with
            | None => Throw (TypeError "Cannot read properties of undefined")
            | Some topNode =>
                let '(h, el) := fromSax h topNode (f_children top) in
                Ret (h, {| bp_stack :=
                             mkFrame (f_node next) (f_children next ++ [el]) :: rest';
                           bp_drop := bp_drop p |}, v)
            end
        end
    end.

(** [BasicParser.ontext(text)]. *)
Definition BasicParser_ontext (st : ParserState) (text : string) :
  outcome ParserState :=
  let '(h, p, v) := st in
  let* v := validator_ontext v text in
  if negb (Nat.eqb (bp_drop p) 0) then Ret (h, p, v)
  else
    match bp_stack p with
    | [] => Throw (TypeError "Cannot read properties of undefined")
    | top :: rest =>
        let '(h, t) := newText h text in
        Ret (h, {| bp_stack := mkFrame (f_node top) (f_children top ++ [t]) :: rest;
                   bp_drop := bp_drop p |}, v)
    end.

(** The getter [BasicParser.root]; [None] is [undefined]. *)
Definition root (h : store) (p : BasicParser) : outcome (option ref) :=
  match bp_stack p with
  | [] => Throw (TypeError "Cannot read properties of undefined")
  | top :: _ => Ret (head (List.filter (isElement h) (f_children top)))
  end.

(** [ConversionParser.onopentag(node)]. *)
Definition ConversionParser_onopentag (st : ParserState) (node : QualifiedTag) :
  outcome ParserState :=
  if negb (String.eqb (tag_uri node) "http://relaxng.org/ns/structure/1.0")
  then Throw (Error ("node in unexpected namespace: " ++ tag_uri node))
  else BasicParser_onopentag st node.

(** [ConversionParser.ontext(text)]; [text.trim() !== ""] says that the
    text holds a character that is not white space. *)
Definition ConversionParser_ontext (st : ParserState) (text : string) :
  outcome ParserState :=
  let '(h, p, v) := st in
  if Nat.leb (length (bp_stack p)) 1 || negb (Nat.eqb (bp_drop p) 0) then Ret st
  else
    match bp_stack p with
    | [] => Ret st
    | top :: _ =>
        match f_node top with
        | None => Throw (TypeError "Cannot read properties of undefined")
        | Some node =>
            let keepWhitespaceNodes :=
              String.eqb (tag_local node) "param" || String.eqb (tag_local node) "value" in
            if keepWhitespaceNodes || grammar.hasNonWhitespace text
            then BasicParser_ontext st text
            else Ret st
        end
    end.

(** One event handed to the methods of a [BasicParser], of a
    [ConversionParser]. *)
Definition BasicParser_event (st : ParserState) (ev : SaxEvent) :
  outcome ParserState :=
  match ev with
  | OpenTag node => BasicParser_onopentag st node
  | CloseTag node => BasicParser_onclosetag st node
  | TextEvent text => BasicParser_ontext st text
  end.

Definition ConversionParser_event (st : ParserState) (ev : SaxEvent) :
  outcome ParserState :=
  match ev with
  | OpenTag node => ConversionParser_onopentag st node
  | CloseTag node => BasicParser_onclosetag st node
  | TextEvent text => ConversionParser_ontext st text
  end.

(** The events of a document in their order. *)
Fixpoint runEvents (event : ParserState -> SaxEvent -> outcome ParserState)
  (st : ParserState) (events : list SaxEvent) : outcome ParserState :=
  match events with
  | [] => Ret st
  | ev :: rest => let* st := event st ev in runEvents event st rest
  end.

End Parsers.

(** The validator that does not validate, [NullValidator]. *)
Definition NullValidator_ontag (v : unit) (node : QualifiedTag) : outcome unit := Ret v.
Definition NullValidator_ontext (v : unit) (text : string) : outcome unit := Ret v.

(** *** Documents *)

(** An XML document as the SAX parser reads it: elements with their tag
    and text. *)
Inductive xml : Type :=
| XElem (node : QualifiedTag) (children : list xml)
| XText (text : string).

(** The events that the SAX parser fires for a document. *)
Fixpoint events (d : xml) : list SaxEvent :=
  match d with
  | XText text => [TextEvent text]
  | XElem node children =>
      OpenTag node :: flat_map events children ++ [CloseTag node]
  end.

(** The tag that [fromSax] made an Element from. *)
Definition tagOf (e : Element) : QualifiedTag :=
  mkQualifiedTag (prefix e) (local e) (uri e) (ns e) (attributes e).

(** The document that a node of the store stands for. *)
Fixpoint treeOf (fuel : nat) (h : store) (node : ref) : option xml :=
  match fuel with
  | O => None
  | S fuel =>
      match h !! node with
      | Some (TextNode t) => Some (XText (text t))
      | Some (ElementNode e) => XElem (tagOf e) <$> mapM (treeOf fuel h) (children e)
      | None => None
      end
  end.

Fixpoint height (d : xml) : nat :=
  match d with
  | XText _ => 0
  | XElem _ children => S (list_max (map height children))
  end.

(** What [BasicParser] keeps of a document: the elements in the namespace
    [RELAXNG_URI] that are not inside an element of another namespace, and
    the text in them. *)
Fixpoint kept (RELAXNG_URI : string) (d : xml) : list xml :=
  match d with
  | XText text => [XText text]
  | XElem node children =>
      if String.eqb (tag_uri node) RELAXNG_URI
      then [XElem node (flat_map (kept RELAXNG_URI) children)]
      else []
  end.

(** The nodes that the frames of the stack hold. *)
Definition pendingNodes (p : BasicParser) : list ref :=
  concat (map f_children (bp_stack p)).

(** What holds of the store and the stack between two events: the links
    of the store agree, and the nodes that the frames hold are distinct
    nodes of the store that have no parent. *)
Record parserInvariant (h : store) (p : BasicParser) : Prop := mkParserInvariant {
  pi_links : linksAgree h;
  pi_NoDup : NoDup (pendingNodes p);
  pi_pending : forall c, c ∈ pendingNodes p -> is_Some (h !! c) /\ parent h c = None
}.

(** Two nodes that differ by their parent (and path) at most. *)
Definition sameShape (n n' : ConcreteNode) : Prop :=
  match n, n' with
  | ElementNode e, ElementNode e' => tagOf e = tagOf e' /\ children e = children e'
  | TextNode t, TextNode t' => text t = text t'
  | _, _ => False
  end.

(** Every node of [h] is in [h'], with another parent at most. *)
Definition keepsShapes (h h' : store) : Prop :=
  forall (y : ref) n, h !! y = Some n -> exists n', h' !! y = Some n' /\ sameShape n n'.

(** A document all of whose elements are in the namespace. *)
Fixpoint allIn (RELAXNG_URI : string) (d : xml) : bool :=
  match d with
  | XText _ => true
  | XElem node children =>
      String.eqb (tag_uri node) RELAXNG_URI && forallb (allIn RELAXNG_URI) children
  end.

(** What [ConversionParser.ontext] keeps of the children of an element
    with the local name [local]. *)
Definition keepsText (local : string) (d : xml) : bool :=
  match d with
  | XText text =>
      String.eqb local "param" || String.eqb local "value" ||
      grammar.hasNonWhitespace text
  | XElem _ _ => true
  end.

(** A document without the text that [ConversionParser] leaves out. *)
Fixpoint strip (d : xml) : xml :=
  match d with
  | XText text => XText text
  | XElem node children =>
      XElem node
        (flat_map (fun c => if keepsText (tag_local node) c then [strip c] else [])
           children)
  end.

Definition stripIn (local : string) (d : xml) : list xml :=
  if keepsText local d then [strip d] else [].

(** [array.map(f)] for an [f] that makes a node: the calls in their
    order, each one on the store that the one before left. *)
Fixpoint mapNodes (f : store -> ref -> outcome (store * ref)) (h : store)
  (nodes : list ref) : outcome (store * list ref) :=
  match nodes with
  | [] => Ret (h, [])
  | node :: rest =>
      let* '(h, made) := f h node in
      let* '(h, others) := mapNodes f h rest in
      Ret (h, made :: others)
  end.

(** [Element.clone()] and [Text.clone()]. *)
Fixpoint clone (fuel : nat) (h : store) (node : ref) : outcome (store * ref) :=
  match fuel with
  | O => OutOfFuel
  | S fuel =>
      match h !! node with
      | Some (TextNode t) => Ret (newText h (text t))
      | Some (ElementNode e) =>
          let* '(h, cloned) := mapNodes (clone fuel) h (children e) in
          Ret (newElement h (prefix e) (local e) (uri e) (ns e) (attributes e) cloned)
      | None => Throw (TypeError "Cannot read properties of undefined")
      end
  end.

End parser.

(** ** conversion/simplifier/step10.ts *)

Module step10.
Import parser.

Section Step10.

(** What step10.ts takes from ./util and ../name_resolver: the searches of
    the descendants of an element, and the namespace of [xmlns]. *)
Variable findDescendantsByLocalName : store -> ref -> string -> list ref.
Variable findMultiDescendantsByLocalName :
  store -> ref -> list string -> string -> list ref.
Variable findMultiNames : store -> ref -> list string -> string -> list ref.
Variable XMLNS_NAMESPACE : string.

(** [checkNames(el)]. *)
Fixpoint checkNames (fuel : nat) (h : store) (el : ref) : outcome unit :=
  match fuel with
  | O => OutOfFuel
  | S fuel =>
      match h !! el with
      | Some (ElementNode e) =>
          let* _ :=
            if String.eqb (local e) "except" then
              match parent h el with
              | None => Throw (TypeError "Cannot read properties of undefined")
              | Some p =>
                  match localOf h p with
                  | Some plocal =>
                      if String.eqb plocal "anyName" then
                        match findDescendantsByLocalName h el "anyName" with
                        | [] => Ret tt
                        | _ => Throw (SchemaValidationError
                                        "an except in anyName has an anyName descendant")
                        end
                      else if String.eqb plocal "nsName" then
                        let found :=
                          findMultiDescendantsByLocalName h el ["anyName"; "nsName"] in
                        match found "anyName", found "nsName" with
                        | [], [] => Ret tt
                        | [], _ => Throw (SchemaValidationError
                                            "an except in nsName has an nsName descendant")
                        | _, _ => Throw (SchemaValidationError
                                           "an except in nsName has an anyName descendant")
                        end
                      else Ret tt
                  | None => Ret tt
                  end
              end
            else Ret tt in
          fold_left (fun acc child =>
                       let* _ := acc in
                       if isElement h child then checkNames fuel h child
                       else Ret tt)
            (children e) (Ret tt)
      | _ => Throw (TypeError "Cannot read properties of undefined")
      end
  end.

(** [checkNames(children[0] as Element)]. *)
Definition checkFirstChild (fuel : nat) (h : store) (el : ref) : outcome unit :=
  match childrenOf h el with
  | first :: _ => checkNames fuel h first
  | [] => Throw (TypeError "Cannot read properties of undefined")
  end.

(** The loop over [findMultiNames(el, ["name"]).name] in the [attribute]
    case. *)
Definition checkAttributeNames (fuel : nat) (h : store) (el : ref) : outcome unit :=
  fold_left
    (fun acc attrName =>
       let* _ := acc in
       match getAttribute h attrName "ns" with
       | Some nsValue =>
           if String.eqb nsValue "" then
             let* t := textOf fuel h attrName in
             if String.eqb t "xmlns"
             then Throw (SchemaValidationError
                           "found attribute with name xmlns outside all namespaces")
             else Ret tt
           else if String.eqb nsValue "http://www.w3.org/2000/xmlns"
           then Throw (SchemaValidationError
                         "found attribute in namespace http://www.w3.org/2000/xmlns")
           else Ret tt
       | None => Ret tt
       end)
    (findMultiNames h el ["name"] "name") (Ret tt).

(** [while (children.length > 2) { el.prependChild(Element.makeElement(local,
    [children[0], children[1]])); }] *)
Fixpoint wrapFirstTwo (fuel : nat) (h : store) (el : ref) (local : string) :
  outcome store :=
  match fuel with
  | O => OutOfFuel
  | S fuel =>
      if Nat.ltb 2 (length (childrenOf h el)) then
        let '(h, wrapper) := makeElement h local in
        let* h := prependChild h el wrapper in
        wrapFirstTwo fuel h el local
      else Ret h
  end.

(** [const group = Element.makeElement(name, []); group.grabChildren(el);]
    giving the store and the new element. *)
Definition grabInto (h : store) (el : ref) (name : string) : store * ref :=
  let '(h, group) := makeElement h name in
  (grabChildren h group el, group).

Definition isCombinator (local : string) : bool :=
  String.eqb local "choice" || String.eqb local "group" ||
  String.eqb local "interleave".

(** The [switch (local)] of [walk]: the store after it, and the element
    that [walk] returns at once when it has replaced [el] by its child. *)
Definition rewrite (fuel : nat) (check : bool) (h : store) (el : ref)
  (local : string) : outcome (store * option ref) :=
  let n := length (childrenOf h el) in
  if isCombinator local then
    match childrenOf h el with
    | [replaceWith] =>
        let* h :=
          match parent h el with
          | Some p => replaceChildWith h p el replaceWith
          | None =>
              let* h := removeChildAt h el 0 in
              match getAttribute h el "xmlns" with
              | Some xmlns =>
                  if isElement h replaceWith
                  then Ret (setXMLNS XMLNS_NAMESPACE h replaceWith xmlns)
                  else Throw (TypeError "replaceWith.setXMLNS is not a function")
              | None => Ret h
              end
          end in
        Ret (h, Some replaceWith)
    | _ =>
        let* h := wrapFirstTwo fuel h el local in
        Ret (h, None)
    end
  else if String.eqb local "element" then
    let* h :=
      if Nat.ltb 2 n then
        let '(h, group) := makeElement h "group" in appendChild h el group
      else Ret h in
    let* _ := if check then checkFirstChild fuel h el else Ret tt in
    Ret (h, None)
  else if String.eqb local "attribute" then
    let* h :=
      if Nat.eqb n 1 then
        let '(h, t) := makeElement h "text" in appendChild h el t
      else Ret h in
    let* _ :=
      if check then
        let* _ := checkFirstChild fuel h el in
        checkAttributeNames fuel h el
      else Ret tt in
    Ret (h, None)
  else if String.eqb local "define" || String.eqb local "oneOrMore" ||
          String.eqb local "list" then
    let* h :=
      if Nat.ltb 1 n then
        let '(h, group) := grabInto h el "group" in appendChild h el group
      else Ret h in
    Ret (h, None)
  else if String.eqb local "zeroOrMore" then
    let h := setLocal h el "choice" in
    let '(h, oneOrMore) := makeElement h "oneOrMore" in
    let* h :=
      if Nat.ltb 1 n then
        let '(h, group) := grabInto h el "group" in
        appendChild h oneOrMore group
      else Ret (grabChildren h oneOrMore el) in
    let '(h, emptyEl) := makeElement h "empty" in
    let* h := appendChildren h el [oneOrMore; emptyEl] in
    Ret (h, None)
  else if String.eqb local "optional" then
    let h := setLocal h el "choice" in
    let* h :=
      if Nat.ltb 1 n then
        let '(h, group) := grabInto h el "group" in appendChild h el group
      else Ret h in
    let '(h, emptyEl) := makeElement h "empty" in
    let* h := appendChild h el emptyEl in
    Ret (h, None)
  else if String.eqb local "mixed" then
    let h := setLocal h el "interleave" in
    let* h :=
      if Nat.ltb 1 n then
        let '(h, group) := grabInto h el "group" in appendChild h el group
      else Ret h in
    let '(h, textEl) := makeElement h "text" in
    let* h := appendChild h el textEl in
    Ret (h, None)
  else if String.eqb local "except" then
    let* h :=
      if Nat.ltb 1 n then
        let '(h, choice) := grabInto h el "choice" in appendChild h el choice
      else Ret h in
    Ret (h, None)
  else Ret (h, None).

(** [walk(check, el)], the loop over the children at the end of it, and
    the loop [while (replaced !== null) { replaced = walk(check, replaced); }].
    Every call and every turn of a loop uses one unit of [fuel]. *)
Fixpoint walk (fuel : nat) (check : bool) (h : store) (el : ref) {struct fuel} :
  outcome (store * option ref) :=
  match fuel with
  | O => OutOfFuel
  | S fuel =>
      match h !! el with
      | Some (ElementNode e) =>
          let* '(h, replaced) := rewrite fuel check h el (local e) in
          match replaced with
          | Some replaceWith => Ret (h, Some replaceWith)
          | None =>
              let* h := walkChildren fuel check h el 0 in
              Ret (h, None)
          end
      | _ => Throw (TypeError "Cannot read properties of undefined")
      end
  end
with walkChildren (fuel : nat) (check : bool) (h : store) (el : ref) (ix : nat)
  {struct fuel} : outcome store :=
  match fuel with
  | O => OutOfFuel
  | S fuel =>
      match childrenOf h el !! ix with
      | None => Ret h
      | Some child =>
          if isElement h child then
            let* '(h, replaced) := walk fuel check h child in
            let* h := rewalk fuel check h replaced in
            walkChildren fuel check h el (S ix)
          else walkChildren fuel check h el (S ix)
      end
  end
with rewalk (fuel : nat) (check : bool) (h : store) (replaced : option ref)
  {struct fuel} : outcome store :=
  match fuel with
  | O => OutOfFuel
  | S fuel =>
      match replaced with
      | None => Ret h
      | Some r =>
          let* '(h, replaced) := walk fuel check h r in
          rewalk fuel check h replaced
      end
  end.

(** [step10(el, check)]: the store after it and the new root. *)
Fixpoint step10 (fuel : nat) (h : store) (el : ref) (check : bool) :
  outcome (store * ref) :=
  match fuel with
  | O => OutOfFuel
  | S fuel =>
      let* '(h, replaced) := walk fuel check h el in
      match replaced with
      | None => Ret (h, el)
      | Some r => step10 fuel h r check
      end
  end.

End Step10.


(** *** Trees used in the statements *)



(** [<define><choice><ref/></choice></define>], objects 0, 1 and 2. *)
Definition defineOfChoiceOfOne : store :=
  <[0 := el None "define" [1]]>
    (<[1 := el (Some 0) "choice" [2]]>
       (<[2 := el (Some 1) "ref" []]> ∅)).

Definition noDescendants (h : store) (r : ref) (name : string) : list ref := [].
Definition noMulti (h : store) (r : ref) (names : list string) (name : string) :
  list ref := [].

End step10.

(** * Theorems *)

(** ** Name patterns *)

Module name_patterns_facts.
Import name_patterns.

(** The induction principle that also descends into [except]. *)
Lemma ConcreteName_rect' (P : ConcreteName -> Type)
  (HName : forall ns name, P (Name ns name))
  (HChoice : forall a b, P a -> P b -> P (NameChoice a b))
  (HNs : forall ns, P (NsName ns None))
  (HNsE : forall ns e, P e -> P (NsName ns (Some e)))
  (HAny : P (AnyName None))
  (HAnyE : forall e, P e -> P (AnyName (Some e))) :
  forall p, P p.
Proof.
  fix IH 1. intros [ns name | a b | ns [e |] | [e |]].
  - apply HName.
  - apply HChoice; apply IH.
  - apply HNsE, IH.
  - apply HNs.
  - apply HAnyE, IH.
  - apply HAny.
Qed.

Lemma eqb_sym (a b : string) : String.eqb a b = String.eqb b a.
Proof.
  destruct (String.eqb_spec a b) as [-> | Hne].
  - symmetry. apply String.eqb_refl.
  - symmetry. apply String.eqb_neq. congruence.
Qed.

Lemma bind_not_OutOfFuel {A B : Type} (c : outcome A) (k : A -> outcome B) :
  c <> OutOfFuel -> (forall a, c = Ret a -> k a <> OutOfFuel) ->
  bind c k <> OutOfFuel.
Proof. destruct c; simpl; intros Hc Hk; [ by apply Hk | done | done ]. Qed.

Lemma makeTree_not_OutOfFuel names : makeTree names <> OutOfFuel.
Proof. by destruct names as [| ? [| ? ?]]. Qed.

Lemma subtractOne_not_OutOfFuel ns except other :
  subtractOne ns except other <> OutOfFuel.
Proof.
  destruct other as [ons oname | a b | ons [oe |] | oe]; simpl; try done.
  - by destruct (negb _).
  - destruct (negb _); [done |]. destruct except as [e |]; [| done].
    destruct (toArray e), (toArray oe); try done.
    destruct (List.filter _ _); [done |].
    apply bind_not_OutOfFuel; [apply makeTree_not_OutOfFuel | done].
  - by destruct (negb _).
Qed.

Lemma applyTo_not_OutOfFuel fn x :
  (forall y, fn y <> OutOfFuel) -> applyTo fn x <> OutOfFuel.
Proof.
  intros Hfn. induction x as [ | a b IHa IHb | | | | ] using ConcreteName_rect';
    simpl; try apply Hfn.
  apply bind_not_OutOfFuel; [done |]. intros ? ?.
  apply bind_not_OutOfFuel; [done |]. done.
Qed.

(** [subtract] is a total function of the model: it returns or throws. *)
Lemma subtract_not_OutOfFuel ns except other :
  subtract ns except other <> OutOfFuel.
Proof.
  assert (Hfn : forall y,
             (if negb (isName y || isNsName y)
              then Throw (Error "child is not Name or NsName")
              else subtractOne ns except y) <> OutOfFuel).
  { intros y. destruct (negb _); [done | apply subtractOne_not_OutOfFuel]. }
  destruct other; unfold subtract; try apply subtractOne_not_OutOfFuel.
  unfold applyRecursively.
  apply bind_not_OutOfFuel; [by apply applyTo_not_OutOfFuel |]. intros ? ?.
  apply bind_not_OutOfFuel; [by apply applyTo_not_OutOfFuel | done].
Qed.


Lemma size_pos p : 0 < size p.
Proof. destruct p; simpl; lia. Qed.

(** With enough fuel [intersection] returns or throws. *)
Lemma intersection_fuel_enough fuel : forall this other,
  2 * (size this + size other) + pending this other < fuel ->
  intersection_fuel fuel this (Some other) <> OutOfFuel.
Proof.
  induction fuel as [| fuel IH]; intros this other Hlt; [lia |].
  destruct this as [ns name | a b | ns except | except]; simpl.
  - destruct other as [ons oname | oa ob | ons oe | oe];
      [ done | apply IH; simpl in *; lia .. ].
  - pose proof (size_pos a). pose proof (size_pos b).
    apply bind_not_OutOfFuel.
    { apply IH. simpl in Hlt. destruct a, other; simpl in *; lia. }
    intros ? ?. apply bind_not_OutOfFuel; [| done].
    apply IH. simpl in Hlt. destruct b, other; simpl in *; lia.
  - destruct other as [ons oname | oa ob | ons oe | oe].
    + destruct (negb _); [done |]. destruct except as [e |]; [| done].
      apply bind_not_OutOfFuel; [| done].
      apply IH. simpl in Hlt. destruct e; simpl in *; lia.
    + apply IH. simpl in *. lia.
    + destruct (negb _); [done |].
      destruct except as [e |], oe as [oe |]; try done.
      destruct (toArray e), (toArray oe); try done.
      apply bind_not_OutOfFuel; [apply makeTree_not_OutOfFuel | done].
    + apply IH. simpl in *. lia.
  - destruct except as [e |]; [| done].
    destruct other as [ons oname | oa ob | ons oe | oe].
    + apply bind_not_OutOfFuel; [| done].
      apply IH. simpl in Hlt. destruct e; simpl in *; lia.
    + done.
    + apply bind_not_OutOfFuel.
      { apply IH. simpl in Hlt. destruct e; simpl in *; lia. }
      intros [n |] ?; [apply subtract_not_OutOfFuel | done].
    + by destruct oe.
Qed.

Lemma intersection_total this other : intersection this other <> OutOfFuel.
Proof.
  destruct other as [o |]; [| done]. simpl.
  apply intersection_fuel_enough. unfold enough.
  destruct this, o; simpl; lia.
Qed.

(** With enough fuel [intersects] returns or throws. *)
Lemma intersects_fuel_enough fuel : forall this other,
  2 * (size this + size other) + pending this other < fuel ->
  intersects_fuel fuel this other <> OutOfFuel.
Proof.
  induction fuel as [| fuel IH]; intros this other Hlt; [lia |].
  destruct this as [ns name | a b | ns except | except]; simpl.
  - destruct other as [ons oname | oa ob | ons oe | oe];
      [ done | apply IH; simpl in *; lia .. ].
  - pose proof (size_pos a). pose proof (size_pos b).
    apply bind_not_OutOfFuel.
    { apply IH. simpl in Hlt. destruct a, other; simpl in *; lia. }
    intros [] ?; [done |].
    apply IH. simpl in Hlt. destruct b, other; simpl in *; lia.
  - destruct other as [ons oname | oa ob | ons oe | oe].
    + destruct (String.eqb _ _); [| done]. destruct except as [e |]; [| done].
      apply bind_not_OutOfFuel; [| done].
      apply IH. simpl in Hlt. destruct e; simpl in *; lia.
    + apply IH. simpl in *. lia.
    + done.
    + apply IH. simpl in *. lia.
  - destruct except as [e |]; [| done].
    destruct other as [ons oname | oa ob | ons oe | oe].
    + apply bind_not_OutOfFuel; [| done].
      apply IH. simpl in Hlt. destruct e; simpl in *; lia.
    + done.
    + apply bind_not_OutOfFuel.
      { apply intersection_fuel_enough. simpl in Hlt.
        destruct e; simpl in *; lia. }
      intros [n |] ?; [| done].
      apply bind_not_OutOfFuel; [apply subtract_not_OutOfFuel | done].
    + done.
Qed.

Lemma intersects_total this other : intersects this other <> OutOfFuel.
Proof.
  apply intersects_fuel_enough. unfold enough. destruct this, other; simpl; lia.
Qed.

(** *** [wildcardMatch] *)

(** C10: whenever [wildcardMatch] accepts an expanded name, [match] accepts
    it too, for all four classes; and [wildcardMatch] of a plain [Name] is
    false whatever its arguments. *)
Theorem wildcardMatch_implies_match (p : ConcreteName) (ns local : string) :
  (wildcardMatch p ns local = true -> match_ p ns local = true) /\
  (forall pns pname, wildcardMatch (Name pns pname) ns local = false).
Proof.
  split; [| reflexivity].
  induction p as [ | a b IHa IHb | | | | ] using ConcreteName_rect';
    simpl; try done.
  rewrite !orb_true_iff. intros [H | H]; [left | right]; auto.
Qed.

Lemma wildcardMatch_implies_match_witness :
  match_ (NameChoice (Name "urn:x" "a") (NsName "urn:x" None)) "urn:x" "b" = true.
Proof.
  apply (proj1 (wildcardMatch_implies_match
                  (NameChoice (Name "urn:x" "a") (NsName "urn:x" None))
                  "urn:x" "b")).
  reflexivity.
Defined.

(** *** [subtract] *)


Lemma toArray_match p names ns name :
  toArray p = Some names -> match_ p ns name = nameIn names ns name.
Proof.
  revert names.
  induction p as [ pns pname | a b IHa IHb | | | | ] using ConcreteName_rect';
    intros names; simpl; try done.
  - intros [= <-]. unfold nameIn. simpl.
    rewrite orb_false_r. apply andb_comm.
  - destruct (toArray a) as [aArr |]; [| done].
    destruct (toArray b) as [bArr |]; [| done].
    intros [= <-]. unfold nameIn. rewrite existsb_app.
    by rewrite (IHa aArr), (IHb bArr).
Qed.

Lemma fold_left_NameChoice_match rest : forall top ns name,
  match_ (fold_left NameChoice (map toName rest) top) ns name =
  match_ top ns name || nameIn rest ns name.
Proof.
  induction rest as [| n rest IH]; intros top ns name; simpl.
  - by rewrite orb_false_r.
  - rewrite IH. simpl. rewrite <- orb_assoc. f_equal. f_equal.
    apply andb_comm.
Qed.

(** [makeTree] of a list that is not empty returns a tree that matches the
    names of the list and no other. *)
Lemma makeTree_match names :
  names <> [] ->
  exists t, makeTree (map toName names) = Ret t /\
            forall ns name, match_ t ns name = nameIn names ns name.
Proof.
  destruct names as [| n0 [| n1 rest]]; [done | |]; intros _.
  - exists (toName n0). split; [done |]. intros ns name. unfold nameIn. simpl.
    rewrite orb_false_r. apply andb_comm.
  - eexists. split; [reflexivity |]. intros ns name.
    rewrite fold_left_NameChoice_match. unfold nameIn. simpl.
    rewrite orb_assoc. f_equal. f_equal; apply andb_comm.
Qed.






(** A leaf that is an [AnyName] makes the subtraction of a choice throw. *)
Lemma subtract_choice_AnyName ns except oe b :
  subtract ns except (NameChoice (AnyName oe) b) =
  Throw (Error "child is not Name or NsName").
Proof. reflexivity. Qed.

(** *** [intersection] and [intersects] *)

(** On a single name [intersects] is [match], for every pattern. *)
Lemma intersects_fuel_single_name p : forall fuel ns local,
  2 * size p <= fuel ->
  intersects_fuel fuel p (Name ns local) = Ret (match_ p ns local).
Proof.
  induction p as [ pns pname | a b IHa IHb | pns | pns e IHe | | e IHe ]
    using ConcreteName_rect'; intros fuel ns local Hfuel;
    (destruct fuel as [| fuel]; [simpl in Hfuel; lia |]); simpl in *.
  - done.
  - rewrite IHa by lia. simpl.
    destruct (match_ a ns local); [done |]. rewrite IHb by lia. done.
  - destruct (String.eqb pns ns); done.
  - destruct (String.eqb pns ns); [| done]. simpl.
    destruct fuel as [| fuel]; [pose proof (size_pos e); lia |].
    destruct e as [ens ename | ea eb | ens ee | ee].
    + simpl. by rewrite (eqb_sym local), (eqb_sym ns).
    + change (intersects_fuel (S fuel) (Name ns local) (NameChoice ea eb))
        with (intersects_fuel fuel (NameChoice ea eb) (Name ns local)).
      rewrite IHe by (simpl in *; lia). done.
    + change (intersects_fuel (S fuel) (Name ns local) (NsName ens ee))
        with (intersects_fuel fuel (NsName ens ee) (Name ns local)).
      rewrite IHe by (simpl in *; lia). done.
    + change (intersects_fuel (S fuel) (Name ns local) (AnyName ee))
        with (intersects_fuel fuel (AnyName ee) (Name ns local)).
      rewrite IHe by (simpl in *; lia). done.
  - done.
  - rewrite IHe by lia. done.
Qed.

Lemma intersects_single_name p ns local :
  intersects p (Name ns local) = Ret (match_ p ns local).
Proof.
  apply intersects_fuel_single_name. unfold enough. lia.
Qed.

(** C1, at [anyName except (n:foo | n:bar)] and [nsName n]: both patterns
    pass the restrictions on [except], [intersection] returns a pattern that
    is not 0, and this pattern matches [(n, foo)], which the first
    pattern does not match. [NsName.subtract] takes the except names away
    one at a time and joins the results by a choice, so that each name is
    matched by the side that removed the other one. *)
Theorem intersection_matches_excluded_name :
  let p := AnyName (Some (NameChoice (Name "n" "foo") (Name "n" "bar"))) in
  let q := NsName "n" None in
  wellFormed p = true /\ wellFormed q = true /\
  exists r,
    intersection p (Some q) = Ret (Some r) /\
    r = NameChoice (NsName "n" (Some (Name "n" "foo")))
                   (NsName "n" (Some (Name "n" "bar"))) /\
    match_ r "n" "foo" = true /\
    match_ p "n" "foo" = false.
Proof.
  cbv zeta. split; [reflexivity |]. split; [reflexivity |].
  eexists. split; [vm_compute; reflexivity |].
  split; [reflexivity |]. split; reflexivity.
Qed.

(** C2, at [anyName except (nsName n | n:foo)] and [nsName n]: both
    patterns pass the restrictions on [except], [intersects] returns true,
    and no expanded name is matched by both. *)
Theorem intersects_without_common_name :
  let p := AnyName (Some (NameChoice (NsName "n" None) (Name "n" "foo"))) in
  let q := NsName "n" None in
  wellFormed p = true /\ wellFormed q = true /\
  intersects p q = Ret true /\
  forall ns local, match_ p ns local && match_ q ns local = false.
Proof.
  cbv zeta. split; [reflexivity |]. split; [reflexivity |].
  split; [vm_compute; reflexivity |].
  intros ns local. cbn [match_].
  destruct (String.eqb "n" ns), (String.eqb "foo" local); reflexivity.
Qed.

(** An [AnyName] with an [except] neither intersects nor is intersected
    with a [NameChoice]: both methods throw. *)
Lemma AnyName_except_NameChoice_throws e a b :
  intersects (AnyName (Some e)) (NameChoice a b) =
    Throw (Error "cannot compute intersection!") /\
  intersection (AnyName (Some e)) (Some (NameChoice a b)) =
    Throw (Error "cannot compute intersection!").
Proof. split; reflexivity. Qed.

(** *** Further facts on the name patterns *)

Lemma setAdd_elem x y s : y ∈ setAdd x s <-> y = x \/ y ∈ s.
Proof.
  unfold setAdd. destruct (existsb (String.eqb x) s) eqn:He.
  - split; [by right |]. intros [-> | H]; [| done].
    apply existsb_exists in He as (z & Hin & Hz).
    apply String.eqb_eq in Hz. subst. by apply list_elem_of_In.
  - rewrite elem_of_app, list_elem_of_singleton. tauto.
Qed.

Lemma setAdd_NoDup x s : NoDup s -> NoDup (setAdd x s).
Proof.
  intros Hs. unfold setAdd. destruct (existsb (String.eqb x) s) eqn:He; [done |].
  apply NoDup_app. split; [done |]. split; [| apply NoDup_singleton].
  intros y Hy Hx. apply list_elem_of_singleton in Hx. subst.
  assert (existsb (String.eqb x) s = true); [| congruence].
  apply existsb_exists. exists x. split; [by apply list_elem_of_In |].
  apply String.eqb_refl.
Qed.

Lemma recordNamespaces_mono p : forall s re y,
  y ∈ s -> y ∈ _recordNamespaces p s re.
Proof.
  induction p as [ pns pname | a b IHa IHb | pns | pns e IHe | | e IHe ]
    using ConcreteName_rect'; intros s re y Hy; simpl.
  - destruct (_ && _); [done |]. apply setAdd_elem. by right.
  - by apply IHb, IHa.
  - destruct (_ || _); [| done]. apply setAdd_elem. by right.
  - apply setAdd_elem. right. destruct (_ || _); [| done].
    apply setAdd_elem. by right.
  - apply setAdd_elem. by right.
  - apply setAdd_elem. right. apply setAdd_elem. by right.
Qed.

Lemma recordNamespaces_NoDup p : forall s re,
  NoDup s -> NoDup (_recordNamespaces p s re).
Proof.
  induction p as [ pns pname | a b IHa IHb | pns | pns e IHe | | e IHe ]
    using ConcreteName_rect'; intros s re Hs; simpl.
  - destruct (_ && _); [done |]. by apply setAdd_NoDup.
  - by apply IHb, IHa.
  - destruct (_ || _); [| done]. by apply setAdd_NoDup.
  - apply setAdd_NoDup. destruct (_ || _); [| done]. by apply setAdd_NoDup.
  - by apply setAdd_NoDup.
  - by do 2 apply setAdd_NoDup.
Qed.

Lemma recordNamespaces_match p : forall s ns name,
  match_ p ns name = true ->
  ns ∈ _recordNamespaces p s true \/ "*" ∈ _recordNamespaces p s true.
Proof.
  induction p as [ pns pname | a b IHa IHb | pns | pns e IHe | | e IHe ]
    using ConcreteName_rect'; intros s ns name Hm; simpl in *.
  - apply andb_true_iff in Hm as [_ Hns]. apply String.eqb_eq in Hns. subst.
    rewrite andb_false_r. left. apply setAdd_elem. by left.
  - apply orb_true_iff in Hm as [Hm | Hm].
    + destruct (IHa s _ _ Hm) as [H | H]; [left | right];
        by apply recordNamespaces_mono.
    + apply IHb with (name := name). done.
  - apply andb_true_iff in Hm as [Hns _]. apply String.eqb_eq in Hns. subst.
    rewrite orb_true_r. left. apply setAdd_elem. by left.
  - apply andb_true_iff in Hm as [Hns _]. apply String.eqb_eq in Hns. subst.
    rewrite orb_true_r. left. apply setAdd_elem. right. apply setAdd_elem.
    by left.
  - right. apply setAdd_elem. by left.
  - right. apply setAdd_elem. right. apply setAdd_elem. by left.
Qed.

Lemma recordNamespaces_exact p : forall s ns,
  ns ∈ _recordNamespaces p s true ->
  "::except" ∉ _recordNamespaces p s true ->
  ns ∈ s \/ exists name, match_ p ns name = true.
Proof.
  induction p as [ pns pname | a b IHa IHb | pns | pns e IHe | | e IHe ]
    using ConcreteName_rect'; intros s ns Hin Hex; simpl in *.
  - rewrite andb_false_r in Hin. apply setAdd_elem in Hin as [-> | Hin];
      [right | by left].
    exists pname. by rewrite !String.eqb_refl.
  - destruct (IHb _ _ Hin Hex) as [Hb | [name Hb]].
    + destruct (IHa _ _ Hb) as [Ha | [name Ha]].
      * intros H. apply Hex. by apply recordNamespaces_mono.
      * by left.
      * right. exists name. by rewrite Ha.
    + right. exists name. by rewrite Hb, orb_true_r.
  - rewrite orb_true_r in Hin. apply setAdd_elem in Hin as [-> | Hin];
      [right | by left].
    exists "". by rewrite String.eqb_refl.
  - exfalso. apply Hex. apply setAdd_elem. by left.
  - apply setAdd_elem in Hin as [-> | Hin]; [right | by left]. by exists "".
  - exfalso. apply Hex. apply setAdd_elem. by left.
Qed.

(** What a caller of [getNamespaces] can rely on: the entries are distinct;
    the namespace of every name that the pattern matches is listed, unless
    the entry [*] is; and when there is no entry [::except], every
    namespace listed is the namespace of a name that the pattern matches. *)
Theorem getNamespaces_covers (p : ConcreteName) :
  NoDup (getNamespaces p) /\
  (forall ns name, match_ p ns name = true ->
                   ns ∈ getNamespaces p \/ "*" ∈ getNamespaces p) /\
  ("::except" ∉ getNamespaces p ->
   forall ns, ns ∈ getNamespaces p -> exists name, match_ p ns name = true).
Proof.
  split; [| split].
  - apply recordNamespaces_NoDup, NoDup_nil_2.
  - intros ns name. apply recordNamespaces_match.
  - intros Hex ns Hin.
    destruct (recordNamespaces_exact p [] ns Hin Hex) as [H | H]; [| done].
    by apply elem_of_nil in H.
Qed.

Lemma getNamespaces_covers_witness :
  exists name, match_ (NameChoice (Name "urn:x" "a") (NsName "" None)) "" name = true.
Proof.
  apply (proj2 (proj2 (getNamespaces_covers
                         (NameChoice (Name "urn:x" "a") (NsName "" None))))).
  - vm_compute. intros H. by repeat (apply elem_of_cons in H as [H | H]; [done |]);
      apply elem_of_nil in H.
  - vm_compute. apply elem_of_cons. right. apply elem_of_cons. by left.
Defined.

Lemma match_Name_sym ns local ons oname :
  match_ (Name ns local) ons oname = match_ (Name ons oname) ns local.
Proof. simpl. by rewrite (eqb_sym local), (eqb_sym ns). Qed.

Lemma match_Name_eq ns local x y :
  match_ (Name ns local) x y = true <-> x = ns /\ y = local.
Proof.
  simpl. rewrite andb_true_iff, !String.eqb_eq.
  split; intros [? ?]; by subst.
Qed.

Lemma matches_orNothing a b x y :
  matches (orNothing a b) x y = matches a x y || matches b x y.
Proof.
  destruct a as [a |], b as [b |]; simpl; try done. by rewrite orb_false_r.
Qed.

(** [intersection] with a single name, in the order that does the work. *)
Lemma intersection_fuel_single_name p : forall fuel ns local,
  2 * size p <= fuel ->
  exists r,
    intersection_fuel fuel p (Some (Name ns local)) = Ret r /\
    (match_ p ns local = false -> r = None) /\
    (match_ p ns local = true ->
     exists t, r = Some t /\
               forall x y, match_ t x y = match_ (Name ns local) x y).
Proof.
  induction p as [ pns pname | a b IHa IHb | pns | pns e IHe | | e IHe ]
    using ConcreteName_rect'; intros fuel ns local Hfuel;
    (destruct fuel as [| fuel]; [simpl in Hfuel; lia |]);
    cbn [intersection_fuel size] in *.
  - destruct (match_ (Name pns pname) ns local) eqn:Hm; eexists;
      (split; [reflexivity |]); split; try done.
    intros _. eexists. split; [done |]. intros x y.
    apply match_Name_eq in Hm as [-> ->]. done.
  - destruct (IHa fuel ns local) as (ra & -> & Ha0 & Ha1); [lia |].
    destruct (IHb fuel ns local) as (rb & -> & Hb0 & Hb1); [lia |].
    cbn [bind match_]. eexists. split; [reflexivity |]. split.
    + intros Hm. apply orb_false_iff in Hm as [Hma Hmb].
      by rewrite (Ha0 Hma), (Hb0 Hmb).
    + intros Hm.
      destruct (match_ a ns local) eqn:Hma, (match_ b ns local) eqn:Hmb;
        try done.
      * destruct Ha1 as (ta & -> & Hta); [done |].
        destruct Hb1 as (tb & -> & Htb); [done |].
        eexists. split; [reflexivity |]. intros x y. cbn [match_].
        rewrite Hta, Htb. apply orb_diag.
      * destruct Ha1 as (ta & -> & Hta); [done |]. rewrite (Hb0 eq_refl).
        by eexists.
      * destruct Hb1 as (tb & -> & Htb); [done |]. rewrite (Ha0 eq_refl).
        by eexists.
  - cbn [match_]. rewrite andb_true_r.
    destruct (String.eqb pns ns); cbn [negb]; eexists;
      (split; [reflexivity |]); split; try done.
    intros _. by eexists.
  - cbn [match_]. destruct (String.eqb pns ns); cbn [negb andb];
      [| eexists; (split; [reflexivity |]); by split].
    assert (Hname : exists r,
               intersection_fuel fuel (Name ns local) (Some e) = Ret r /\
               (match_ e ns local = false -> r = None) /\
               (match_ e ns local = true -> exists t, r = Some t)).
    { destruct fuel as [| fuel]; [pose proof (size_pos e); lia |].
      destruct e as [ens ename | ea eb | ens ee | ee].
      - cbn [intersection_fuel]. rewrite match_Name_sym.
        destruct (match_ (Name ens ename) ns local); eexists;
          (split; [reflexivity |]); split; try done. intros _. by eexists.
      - destruct (IHe fuel ns local) as (r & Hr & H0 & H1); [lia |].
        exists r. split; [exact Hr |]. split; [done |]. intros Hm.
        destruct (H1 Hm) as (t & -> & _). by eexists.
      - destruct (IHe fuel ns local) as (r & Hr & H0 & H1); [lia |].
        exists r. split; [exact Hr |]. split; [done |]. intros Hm.
        destruct (H1 Hm) as (t & -> & _). by eexists.
      - destruct (IHe fuel ns local) as (r & Hr & H0 & H1); [lia |].
        exists r. split; [exact Hr |]. split; [done |]. intros Hm.
        destruct (H1 Hm) as (t & -> & _). by eexists. }
    destruct Hname as (r & -> & H0 & H1). cbn [bind].
    eexists. split; [reflexivity |].
    destruct (match_ e ns local); cbn [negb].
    + split; [| done]. intros _. by destruct (H1 eq_refl) as (t & -> ).
    + split; [done |]. intros _. rewrite (H0 eq_refl). by eexists.
  - eexists. split; [reflexivity |]. split; [done |]. intros _. by eexists.
  - destruct (IHe fuel ns local) as (r & -> & H0 & H1); [lia |]. cbn [bind match_].
    eexists. split; [reflexivity |].
    destruct (match_ e ns local); cbn [negb].
    + split; [| done]. intros _. by destruct (H1 eq_refl) as (t & -> & _).
    + split; [done |]. intros _. rewrite (H0 eq_refl). by eexists.
Qed.

(** The same when the single name is the receiver: it hands over to the
    other class. *)
Lemma intersection_fuel_name_first p fuel ns local :
  2 * size p < fuel ->
  exists r,
    intersection_fuel fuel (Name ns local) (Some p) = Ret r /\
    (match_ p ns local = false -> r = None) /\
    (match_ p ns local = true ->
     exists t, r = Some t /\
               forall x y, match_ t x y = match_ (Name ns local) x y).
Proof.
  intros Hfuel. destruct fuel as [| fuel]; [lia |].
  destruct p as [pns pname | a b | pns e | e];
    try (apply intersection_fuel_single_name; lia).
  cbn [intersection_fuel]. rewrite match_Name_sym.
  destruct (match_ (Name pns pname) ns local); eexists;
    (split; [reflexivity |]); split; try done.
  intros _. by eexists.
Qed.

Lemma intersects_fuel_name_first p fuel ns local :
  2 * size p < fuel ->
  intersects_fuel fuel (Name ns local) p = Ret (match_ p ns local).
Proof.
  intros Hfuel. destruct fuel as [| fuel]; [lia |].
  destruct p as [pns pname | a b | pns e | e];
    try (apply intersects_fuel_single_name; lia).
  cbn [intersects_fuel]. by rewrite match_Name_sym.
Qed.

(** Against a single name [intersects] is [match]: whichever of the two is
    the receiver, the call returns whether the pattern matches the name,
    and it never throws. *)
Theorem intersects_Name_is_match (p : ConcreteName) (ns local : string) :
  intersects p (Name ns local) = Ret (match_ p ns local) /\
  intersects (Name ns local) p = Ret (match_ p ns local).
Proof.
  split.
  - apply intersects_fuel_single_name. unfold enough. lia.
  - apply intersects_fuel_name_first. unfold enough. simpl. lia.
Qed.

(** Against a single name [intersection] never throws, whichever of the two
    is the receiver: it returns 0 when the pattern does not match the name,
    and otherwise a pattern that matches this name and no other. *)
Theorem intersection_Name_exact (p : ConcreteName) (ns local : string) :
  exists r r',
    intersection p (Some (Name ns local)) = Ret r /\
    intersection (Name ns local) (Some p) = Ret r' /\
    (r = None <-> match_ p ns local = false) /\
    (r' = None <-> match_ p ns local = false) /\
    forall x y,
      matches r x y = match_ p x y && match_ (Name ns local) x y /\
      matches r' x y = match_ p x y && match_ (Name ns local) x y.
Proof.
  destruct (intersection_fuel_single_name p (enough p (Name ns local)) ns local)
    as (r & Hr & H0 & H1); [unfold enough; lia |].
  destruct (intersection_fuel_name_first p (enough (Name ns local) p) ns local)
    as (r' & Hr' & H0' & H1'); [unfold enough; simpl; lia |].
  exists r, r'. split; [exact Hr |]. split; [exact Hr' |].
  assert (Hsem : forall (s : option ConcreteName),
             (match_ p ns local = false -> s = None) ->
             (match_ p ns local = true ->
              exists t, s = Some t /\
                        forall x y, match_ t x y = match_ (Name ns local) x y) ->
             (s = None <-> match_ p ns local = false) /\
             forall x y, matches s x y = match_ p x y && match_ (Name ns local) x y).
  { intros s Hs0 Hs1. destruct (match_ p ns local) eqn:Hm.
    - destruct (Hs1 eq_refl) as (t & -> & Ht). split; [done |].
      intros x y. cbn [matches]. rewrite Ht.
      destruct (match_ (Name ns local) x y) eqn:Hxy;
        [| by rewrite andb_false_r].
      apply match_Name_eq in Hxy as [-> ->]. by rewrite Hm.
    - rewrite (Hs0 eq_refl). split; [done |]. intros x y. cbn [matches].
      destruct (match_ (Name ns local) x y) eqn:Hxy;
        [| by rewrite andb_false_r].
      apply match_Name_eq in Hxy as [-> ->]. by rewrite Hm. }
  destruct (Hsem r H0 H1) as [Hz Hs]. destruct (Hsem r' H0' H1') as [Hz' Hs'].
  split; [exact Hz |]. split; [exact Hz' |]. intros x y. by split.
Qed.

(** *** [makeTree] and [toArray] *)

Lemma toArray_fold_left rest : forall top names,
  toArray top = Some names ->
  toArray (fold_left NameChoice (map toName rest) top) = Some (names ++ rest).
Proof.
  induction rest as [| n rest IH]; intros top names Htop; simpl.
  - by rewrite app_nil_r.
  - rewrite (IH _ (names ++ [n])).
    + by rewrite <- app_assoc.
    + simpl. rewrite Htop. by destruct n.
Qed.

Lemma simple_toArray p :
  simple p = true -> exists names, toArray p = Some names /\ names <> [].
Proof.
  induction p as [ pns pname | a b IHa IHb | | | | ] using ConcreteName_rect';
    simpl; try done.
  - intros _. by eexists.
  - intros [Ha Hb]%andb_true_iff.
    destruct (IHa Ha) as (la & -> & Hla). destruct (IHb Hb) as (lb & -> & Hlb).
    eexists. split; [done |]. by destruct la.
Qed.

(** [makeTree] and [toArray] undo each other: the tree made of a list of
    names that is not empty is simple and [toArray] gives the list back, in
    the same order; the tree made of the names of a simple pattern matches
    what the pattern matches; and [makeTree] throws on the empty list. *)
Theorem makeTree_toArray_round_trip :
  makeTree [] = Throw (Error "trying to make a tree out of nothing") /\
  (forall names, names <> [] ->
     exists t, makeTree (map toName names) = Ret t /\
               toArray t = Some names /\ simple t = true) /\
  (forall p, simple p = true ->
     exists names t, toArray p = Some names /\
                     makeTree (map toName names) = Ret t /\
                     forall ns name, match_ t ns name = match_ p ns name).
Proof.
  split; [reflexivity |].
  assert (Hsimple : forall t names, toArray t = Some names -> simple t = true).
  { induction t as [ pns pname | a b IHa IHb | | | | ]
      using ConcreteName_rect'; intros names; simpl; try done.
    destruct (toArray a) as [la |] eqn:Ha; [| done].
    destruct (toArray b) as [lb |] eqn:Hb; [| done].
    intros _. by rewrite (IHa la), (IHb lb). }
  split.
  - intros names Hne.
    assert (exists t, makeTree (map toName names) = Ret t /\
                      toArray t = Some names) as (t & Ht & Harr).
    { destruct names as [| [ns0 n0] [| [ns1 n1] rest]]; [done | |].
      - by eexists.
      - eexists. split; [reflexivity |].
        by rewrite (toArray_fold_left rest _ [(ns0, n0); (ns1, n1)]). }
    exists t. split; [done |]. split; [done |]. by eapply Hsimple.
  - intros p Hp. destruct (simple_toArray p Hp) as (names & Harr & Hne).
    destruct (makeTree_match names Hne) as (t & Ht & Hm).
    exists names, t. split; [done |]. split; [done |].
    intros ns name. by rewrite Hm, (toArray_match p names).
Qed.

Lemma makeTree_toArray_round_trip_witness :
  exists t, makeTree (map toName [("", "a"); ("", "b"); ("urn:x", "c")]) = Ret t /\
            toArray t = Some [("", "a"); ("", "b"); ("urn:x", "c")] /\
            simple t = true.
Proof.
  apply (proj1 (proj2 makeTree_toArray_round_trip)). discriminate.
Defined.

(** *** More fuel changes nothing *)

Lemma bind_more_fuel {A B : Type} (c c' : outcome A) (k k' : A -> outcome B) :
  (c <> OutOfFuel -> c' = c) ->
  (forall a, c = Ret a -> k a <> OutOfFuel -> k' a = k a) ->
  bind c k <> OutOfFuel -> bind c' k' = bind c k.
Proof.
  intros Hc Hk Hb. destruct c as [a | e |]; [| |done].
  - rewrite Hc by done. simpl in *. by apply Hk.
  - by rewrite Hc.
Qed.

Lemma intersection_fuel_more n : forall m this other,
  n <= m ->
  intersection_fuel n this other <> OutOfFuel ->
  intersection_fuel m this other = intersection_fuel n this other.
Proof.
  induction n as [| n IH]; intros m this other Hle Hn; [done |].
  destruct m as [| m]; [lia |]. assert (n <= m) by lia.
  cbn [intersection_fuel] in *.
  destruct other as [other |]; [| done].
  destruct this as [ns name | a b | ns except | except].
  - destruct other; [done | by apply IH ..].
  - apply bind_more_fuel; [by apply IH | | done].
    intros a' _ Hb. apply bind_more_fuel; [by apply IH | done | done].
  - destruct other as [ons oname | oa ob | ons oe | oe];
      [| by apply IH | done | by apply IH].
    destruct (negb _); [done |]. destruct except as [e |]; [| done].
    apply bind_more_fuel; [by apply IH | done | done].
  - destruct except as [e |]; [| done].
    destruct other as [ons oname | oa ob | ons oe | oe]; [| done | | done].
    + apply bind_more_fuel; [by apply IH | done | done].
    + apply bind_more_fuel; [by apply IH | done | done].
Qed.

Lemma intersects_fuel_more n : forall m this other,
  n <= m ->
  intersects_fuel n this other <> OutOfFuel ->
  intersects_fuel m this other = intersects_fuel n this other.
Proof.
  induction n as [| n IH]; intros m this other Hle Hn; [done |].
  destruct m as [| m]; [lia |]. assert (n <= m) by lia.
  cbn [intersects_fuel] in *.
  destruct this as [ns name | a b | ns except | except].
  - destruct other; [done | by apply IH ..].
  - apply bind_more_fuel; [by apply IH | | done].
    intros [] _ Hb; [done | by apply IH].
  - destruct other as [ons oname | oa ob | ons oe | oe];
      [| by apply IH | done | by apply IH].
    destruct (String.eqb _ _); [| done]. destruct except as [e |]; [| done].
    apply bind_more_fuel; [by apply IH | done | done].
  - destruct except as [e |]; [| done].
    destruct other as [ons oname | oa ob | ons oe | oe]; [| done | | done].
    + apply bind_more_fuel; [by apply IH | done | done].
    + apply bind_more_fuel; [by apply intersection_fuel_more | done | done].
Qed.

(** The calls by which the four classes hand [intersection] and
    [intersects] over to each other come to an end for every pair of
    patterns: from the fuel [enough this other] on, the model returns or
    throws, and more fuel does not change the outcome. *)
Theorem delegation_terminates (this other : ConcreteName) (fuel : nat) :
  enough this other <= fuel ->
  intersection_fuel fuel this (Some other) = intersection this (Some other) /\
  intersection this (Some other) <> OutOfFuel /\
  intersects_fuel fuel this other = intersects this other /\
  intersects this other <> OutOfFuel.
Proof.
  intros Hle. split; [| split; [| split]].
  - apply intersection_fuel_more; [done |]. apply (intersection_total _ (Some _)).
  - apply (intersection_total _ (Some _)).
  - apply intersects_fuel_more; [done |]. apply intersects_total.
  - apply intersects_total.
Qed.

Lemma delegation_terminates_witness :
  intersection_fuel 100 (NameChoice (Name "" "a") (NsName "" None))
    (Some (AnyName (Some (Name "" "a")))) =
  intersection (NameChoice (Name "" "a") (NsName "" None))
    (Some (AnyName (Some (Name "" "a")))).
Proof.
  apply (delegation_terminates (NameChoice (Name "" "a") (NsName "" None))
           (AnyName (Some (Name "" "a"))) 100).
  vm_compute. lia.
Defined.

(** *** The key of [uniqueNames] *)

Lemma append_brace_inj (a : string) : forall a' n n' : string,
  noBrace n = true -> noBrace n' = true ->
  (a ++ String "}" n = a' ++ String "}" n')%string -> a = a' /\ n = n'.
Proof.
  assert (Hno : forall pre n : string, noBrace (pre ++ String "}" n)%string = false).
  { induction pre as [| c pre IH]; intros n; simpl; [done |].
    by rewrite IH, andb_false_r. }
  induction a as [| c a IH]; intros [| c' a'] n n' Hn Hn' Heq; simpl in Heq.
  - by injection Heq.
  - injection Heq as <- ->. by rewrite (Hno a' n') in Hn.
  - injection Heq as -> <-. by rewrite (Hno a n) in Hn'.
  - injection Heq as -> Heq. destruct (IH a' n n' Hn Hn' Heq) as [-> ->]. done.
Qed.

Lemma nameKey_inj (n n' : string * string) :
  noBrace (snd n) = true -> noBrace (snd n') = true ->
  nameKey n = nameKey n' -> n = n'.
Proof.
  intros Hn Hn'. unfold nameKey. simpl. intros [= Heq].
  destruct (append_brace_inj _ _ _ _ Hn Hn' Heq) as [H1 H2].
  destruct n, n'. simpl in *. by subst.
Qed.

Lemma nameIn_elem names ns name : nameIn names ns name = true <-> (ns, name) ∈ names.
Proof.
  unfold nameIn. rewrite existsb_exists. split.
  - intros ([a b] & Hin & Heq). apply andb_true_iff in Heq as [H1 H2].
    apply String.eqb_eq in H1, H2. simpl in *. subst.
    by apply list_elem_of_In.
  - intros H. exists (ns, name). simpl. rewrite !String.eqb_refl.
    split; [by apply list_elem_of_In | done].
Qed.

Lemma mapSet_keyed n m :
  noBrace (snd n) = true -> keyed m ->
  keyed (mapSet (nameKey n) n m) /\
  forall v, v ∈ map snd (mapSet (nameKey n) n m) <-> v = n \/ v ∈ map snd m.
Proof.
  intros Hn. induction m as [| [k' v'] m IH]; intros Hm; cbn [mapSet].
  - split; [by repeat constructor |]. intros v. cbn [map snd].
    rewrite list_elem_of_singleton, elem_of_nil. tauto.
  - apply Forall_cons in Hm as [[Hk Hv] Hm]. cbn [fst snd] in Hk, Hv.
    destruct (String.eqb_spec (nameKey n) k') as [Heq | Hne].
    + assert (n = v') as <- by (apply nameKey_inj; congruence).
      split; [by constructor |]. intros v. cbn [map snd].
      rewrite elem_of_cons. tauto.
    + destruct (IH Hm) as [IHk IHv]. split; [by constructor |].
      intros v. cbn [map snd]. rewrite !elem_of_cons, IHv. tauto.
Qed.

Lemma fold_mapSet_keyed names : forall m,
  Forall (fun n => noBrace (snd n) = true) names -> keyed m ->
  forall v, v ∈ map snd (fold_left (fun m n => mapSet (nameKey n) n m) names m)
            <-> v ∈ names \/ v ∈ map snd m.
Proof.
  induction names as [| n names IH]; intros m Hn Hm v; simpl.
  - rewrite elem_of_nil. tauto.
  - apply Forall_cons in Hn as [Hn Hns].
    destruct (mapSet_keyed n m Hn Hm) as [Hk Hv].
    rewrite (IH _ Hns Hk), Hv, elem_of_cons. tauto.
Qed.

Lemma uniqueNames_elem names v :
  Forall (fun n => noBrace (snd n) = true) names ->
  v ∈ uniqueNames names <-> v ∈ names.
Proof.
  intros Hn. unfold uniqueNames.
  rewrite (fold_mapSet_keyed names [] Hn); [| constructor].
  simpl. rewrite elem_of_nil. tauto.
Qed.

Lemma uniqueNames_nameIn names ns name :
  Forall (fun n => noBrace (snd n) = true) names ->
  nameIn (uniqueNames names) ns name = nameIn names ns name.
Proof.
  intros Hn. apply eq_true_iff_eq. rewrite !nameIn_elem.
  by apply uniqueNames_elem.
Qed.

Lemma toArray_localNamesOk p names :
  toArray p = Some names -> localNamesOk p = true ->
  Forall (fun n => noBrace (snd n) = true) names.
Proof.
  revert names.
  induction p as [ pns pname | a b IHa IHb | | | | ] using ConcreteName_rect';
    intros names; simpl; try done.
  - intros [= <-] H. by repeat constructor.
  - destruct (toArray a) as [la |]; [| done].
    destruct (toArray b) as [lb |]; [| done].
    intros [= <-] [Ha Hb]%andb_true_iff. apply Forall_app. split; eauto.
Qed.

(** *** Patterns without an [except] on [anyName] *)

Lemma intersection_fuel_plain fuel : forall this other,
  plain this = true -> plain other = true ->
  2 * (size this + size other) + pending this other < fuel ->
  exists r,
    intersection_fuel fuel this (Some other) = Ret r /\
    forall x y, matches r x y = match_ this x y && match_ other x y.
Proof.
  induction fuel as [| fuel IH]; intros this other Hp Hq Hlt; [lia |].
  assert (Hswap : 2 * (size other + size this) + pending other this < fuel ->
                  exists r,
                    intersection_fuel fuel other (Some this) = Ret r /\
                    forall x y, matches r x y = match_ this x y && match_ other x y).
  { intros Hlt'. destruct (IH other this Hq Hp Hlt') as (r & Hr & Hs).
    exists r. split; [done |]. intros x y. rewrite Hs. apply andb_comm. }
  destruct this as [ns name | a b | ns except | except];
    cbn [intersection_fuel].
  - destruct other as [ons oname | oa ob | ons oe | oe];
      [| apply Hswap; simpl in *; lia ..].
    eexists. split; [reflexivity |]. intros x y.
    destruct (match_ (Name ns name) ons oname) eqn:Hm.
    + apply match_Name_eq in Hm as [-> ->]. cbn [matches]. by rewrite andb_diag.
    + cbn [matches]. symmetry. apply andb_false_iff.
      destruct (match_ (Name ns name) x y) eqn:Hxy; [right | by left].
      apply match_Name_eq in Hxy as [-> ->]. by rewrite match_Name_sym.
  - cbn [plain] in Hp. apply andb_true_iff in Hp as [Hpa Hpb].
    pose proof (size_pos a). pose proof (size_pos b).
    destruct (IH a other Hpa Hq) as (ra & -> & Ha).
    { simpl in Hlt. destruct a, other; simpl in *; lia. }
    destruct (IH b other Hpb Hq) as (rb & -> & Hb).
    { simpl in Hlt. destruct b, other; simpl in *; lia. }
    cbn [bind]. eexists. split; [reflexivity |]. intros x y.
    rewrite matches_orNothing, Ha, Hb. cbn [match_].
    by rewrite andb_orb_distrib_l.
  - destruct other as [ons oname | oa ob | ons oe | oe];
      [| apply Hswap; simpl in *; lia | | apply Hswap; simpl in *; lia].
    + destruct (String.eqb_spec ns ons) as [<- | Hne]; cbn [negb].
      * destruct except as [e |].
        -- destruct (intersection_fuel_name_first e fuel ns oname)
             as (r & -> & H0 & H1); [simpl in Hlt; lia |].
           cbn [bind]. eexists. split; [reflexivity |]. intros x y.
           cbn [match_]. destruct (match_ e ns oname) eqn:Hm.
           ++ destruct (H1 eq_refl) as (t & -> & _). cbn [matches].
              symmetry. apply andb_false_iff.
              destruct (String.eqb_spec oname y) as [<- | ?];
                [| right; by rewrite andb_false_l].
              destruct (String.eqb_spec ns x) as [<- | ?];
                [| by left]. left. by rewrite Hm.
           ++ rewrite (H0 eq_refl). cbn [matches match_].
              destruct (String.eqb_spec oname y) as [<- | ?];
                [| by rewrite andb_false_r].
              destruct (String.eqb_spec ns x) as [<- | ?];
                [| by rewrite andb_false_r]. by rewrite Hm.
        -- eexists. split; [reflexivity |]. intros x y. cbn [matches match_].
           destruct (String.eqb ns x); [| by rewrite andb_false_r].
           by rewrite andb_true_r.
      * eexists. split; [reflexivity |]. intros x y. cbn [matches match_].
        symmetry. apply andb_false_iff.
        destruct (String.eqb_spec ns x) as [<- | ?]; [right | by left].
        apply andb_false_iff. right. by apply String.eqb_neq.
    + destruct (String.eqb_spec ns ons) as [<- | Hne]; cbn [negb].
      * destruct except as [e |], oe as [oe |].
        -- cbn [plain] in Hp, Hq.
           apply andb_true_iff in Hp as [Hse Hle].
           apply andb_true_iff in Hq as [Hsoe Hloe].
           destruct (simple_toArray e Hse) as (theseNames & He & Hne).
           destruct (simple_toArray oe Hsoe) as (otherNames & Hoe & Hnoe).
           rewrite He, Hoe.
           assert (Hall : Forall (fun n => noBrace (snd n) = true)
                            (theseNames ++ otherNames)).
           { apply Forall_app. split; by eapply toArray_localNamesOk. }
           destruct (makeTree_match (uniqueNames (theseNames ++ otherNames)))
             as (t & -> & Hm).
           { destruct theseNames as [| n0 rest]; [done |]. intros Hnil.
             assert (Hin : n0 ∈ uniqueNames ((n0 :: rest) ++ otherNames)).
             { apply uniqueNames_elem; [done |]. apply elem_of_cons. by left. }
             rewrite Hnil in Hin. by apply elem_of_nil in Hin. }
           cbn [bind]. eexists. split; [reflexivity |]. intros x y.
           cbn [matches match_]. rewrite Hm, uniqueNames_nameIn by done.
           unfold nameIn. rewrite existsb_app. fold (nameIn theseNames x y).
           fold (nameIn otherNames x y).
           rewrite <- (toArray_match e theseNames x y He).
           rewrite <- (toArray_match oe otherNames x y Hoe).
           destruct (String.eqb ns x), (match_ e x y), (match_ oe x y); done.
        -- eexists. split; [reflexivity |]. intros x y. cbn [matches match_].
           destruct (String.eqb ns x), (match_ e x y); done.
        -- eexists. split; [reflexivity |]. intros x y. cbn [matches match_].
           destruct (String.eqb ns x), (match_ oe x y); done.
        -- eexists. split; [reflexivity |]. intros x y. cbn [matches match_].
           destruct (String.eqb ns x); done.
      * eexists. split; [reflexivity |]. intros x y. cbn [matches match_].
        symmetry. apply andb_false_iff.
        destruct (String.eqb_spec ns x) as [<- | ?]; [right | by left].
        apply andb_false_iff. left. by apply String.eqb_neq.
  - destruct except as [e |]; [done |].
    eexists. split; [reflexivity |]. intros x y. done.
Qed.

(** On patterns in which no [anyName] has an [except] (and the [except]
    of an [nsName] is a choice of names, as Relax NG requires),
    [intersection] never throws and returns exactly the intersection: the
    result matches a name when both patterns match it, and only then. *)
Theorem intersection_plain_exact (p q : ConcreteName) :
  plain p = true -> plain q = true ->
  exists r,
    intersection p (Some q) = Ret r /\
    forall ns name, matches r ns name = match_ p ns name && match_ q ns name.
Proof.
  intros Hp Hq. apply intersection_fuel_plain; [done | done |].
  unfold enough. destruct p, q; simpl; lia.
Qed.

Lemma intersection_plain_exact_witness :
  exists r,
    intersection (NsName "urn:x" (Some (NameChoice (Name "urn:x" "a") (Name "urn:x" "b"))))
      (Some (NameChoice (NsName "urn:x" (Some (Name "urn:x" "b"))) (AnyName None)))
    = Ret r /\
    forall ns name,
      matches r ns name =
      match_ (NsName "urn:x" (Some (NameChoice (Name "urn:x" "a") (Name "urn:x" "b"))))
        ns name &&
      match_ (NameChoice (NsName "urn:x" (Some (Name "urn:x" "b"))) (AnyName None))
        ns name.
Proof.
  apply (intersection_plain_exact
           (NsName "urn:x" (Some (NameChoice (Name "urn:x" "a") (Name "urn:x" "b"))))
           (NameChoice (NsName "urn:x" (Some (Name "urn:x" "b"))) (AnyName None)));
    reflexivity.
Defined.

Lemma NsName_common ns e oe :
  plain (NsName ns e) = true -> plain (NsName ns oe) = true ->
  exists name, match_ (NsName ns e) ns name = true /\
               match_ (NsName ns oe) ns name = true.
Proof.
  intros He Hoe.
  assert (Hlist : forall x, plain (NsName ns x) = true ->
             exists l : list (string * string), forall name,
               name ∉ map snd l -> match_ (NsName ns x) ns name = true).
  { intros [x |] Hx; cbn [plain match_] in *.
    - apply andb_true_iff in Hx as [Hs _].
      destruct (simple_toArray x Hs) as (l & Hl & _). exists l. intros name Hn.
      rewrite String.eqb_refl, (toArray_match x l ns name Hl).
      destruct (nameIn l ns name) eqn:Hin; [| done].
      apply nameIn_elem in Hin. exfalso. apply Hn.
      apply list_elem_of_fmap. by exists (ns, name).
    - exists []. intros name _. by rewrite String.eqb_refl. }
  destruct (Hlist e He) as (l1 & H1). destruct (Hlist oe Hoe) as (l2 & H2).
  pose proof (infinite_is_fresh (map snd l1 ++ map snd l2)) as Hfresh.
  exists (fresh (map snd l1 ++ map snd l2)). split.
  - apply H1. intros Hin. apply Hfresh, elem_of_app. by left.
  - apply H2. intros Hin. apply Hfresh, elem_of_app. by right.
Qed.

Lemma plain_inhabited p :
  plain p = true -> exists ns name, match_ p ns name = true.
Proof.
  induction p as [ pns pname | a b IHa IHb | pns | pns e IHe | | e IHe ]
    using ConcreteName_rect'; intros Hp.
  - exists pns, pname. apply match_Name_eq. done.
  - cbn [plain] in Hp. apply andb_true_iff in Hp as [Ha _].
    destruct (IHa Ha) as (ns & name & Hm). exists ns, name. cbn [match_].
    by rewrite Hm.
  - destruct (NsName_common pns None None Hp Hp) as (name & Hm & _).
    by exists pns, name.
  - destruct (NsName_common pns (Some e) (Some e) Hp Hp) as (name & Hm & _).
    by exists pns, name.
  - by exists "", "".
  - done.
Qed.

Lemma intersects_fuel_plain fuel : forall this other,
  plain this = true -> plain other = true ->
  2 * (size this + size other) + pending this other < fuel ->
  exists r,
    intersects_fuel fuel this other = Ret r /\
    (r = true <-> exists x y, match_ this x y = true /\ match_ other x y = true).
Proof.
  induction fuel as [| fuel IH]; intros this other Hp Hq Hlt; [lia |].
  assert (Hswap : 2 * (size other + size this) + pending other this < fuel ->
                  exists r,
                    intersects_fuel fuel other this = Ret r /\
                    (r = true <->
                     exists x y, match_ this x y = true /\ match_ other x y = true)).
  { intros Hlt'. destruct (IH other this Hq Hp Hlt') as (r & Hr & Hs).
    exists r. split; [done |]. rewrite Hs.
    split; intros (x & y & ? & ?); by exists x, y. }
  destruct this as [ns name | a b | ns except | except];
    cbn [intersects_fuel].
  - destruct other as [ons oname | oa ob | ons oe | oe];
      [| apply Hswap; simpl in *; lia ..].
    eexists. split; [reflexivity |]. split.
    + intros Hm. exists ons, oname. split; [done |]. by apply match_Name_eq.
    + intros (x & y & Hx & Hy). apply match_Name_eq in Hy as [-> ->]. done.
  - cbn [plain] in Hp. apply andb_true_iff in Hp as [Hpa Hpb].
    pose proof (size_pos a). pose proof (size_pos b).
    destruct (IH a other Hpa Hq) as (ra & -> & Ha).
    { simpl in Hlt. destruct a, other; simpl in *; lia. }
    destruct (IH b other Hpb Hq) as (rb & Hrb & Hb).
    { simpl in Hlt. destruct b, other; simpl in *; lia. }
    cbn [bind]. destruct ra.
    + eexists. split; [reflexivity |]. split; [| done]. intros _.
      destruct (proj1 Ha eq_refl) as (x & y & Hx & Hy). exists x, y.
      cbn [match_]. by rewrite Hx.
    + exists rb. split; [done |]. rewrite Hb. split.
      * intros (x & y & Hx & Hy). exists x, y. cbn [match_].
        by rewrite Hx, orb_true_r.
      * intros (x & y & Hx & Hy). cbn [match_] in Hx.
        apply orb_true_iff in Hx as [Hx | Hx]; [| by exists x, y].
        assert (false = true); [| done]. apply Ha. by exists x, y.
  - destruct other as [ons oname | oa ob | ons oe | oe];
      [| apply Hswap; simpl in *; lia | | apply Hswap; simpl in *; lia].
    + destruct (String.eqb_spec ns ons) as [<- | Hne].
      * destruct except as [e |].
        -- rewrite intersects_fuel_name_first by (simpl in Hlt; lia).
           cbn [bind]. eexists. split; [reflexivity |]. split.
           ++ intros Hm. exists ns, oname. cbn [match_].
              rewrite !String.eqb_refl. by rewrite Hm.
           ++ intros (x & y & Hx & Hy). apply match_Name_eq in Hy as [-> ->].
              cbn [match_] in Hx. rewrite String.eqb_refl in Hx. done.
        -- eexists. split; [reflexivity |]. split; [| done]. intros _.
           exists ns, oname. cbn [match_]. by rewrite !String.eqb_refl.
      * eexists. split; [reflexivity |]. split; [done |].
        intros (x & y & Hx & Hy). apply match_Name_eq in Hy as [-> ->].
        cbn [match_] in Hx. apply andb_true_iff in Hx as [Hx _].
        by apply String.eqb_eq in Hx.
    + eexists. split; [reflexivity |]. split.
      * intros Heq. apply String.eqb_eq in Heq as <-.
        destruct (NsName_common ns except oe Hp Hq) as (name & H1 & H2).
        by exists ns, name.
      * intros (x & y & Hx & Hy). cbn [match_] in Hx, Hy.
        apply andb_true_iff in Hx as [Hx _]. apply andb_true_iff in Hy as [Hy _].
        apply String.eqb_eq in Hx, Hy. subst. apply String.eqb_refl.
  - destruct except as [e |]; [done |].
    eexists. split; [reflexivity |]. split; [| done]. intros _.
    destruct (plain_inhabited other Hq) as (x & y & Hm). by exists x, y.
Qed.

(** On the same patterns [intersects] never throws and answers what its
    documentation says: it returns true exactly when some name is matched by
    both patterns. *)
Theorem intersects_plain_exact (p q : ConcreteName) :
  plain p = true -> plain q = true ->
  exists r,
    intersects p q = Ret r /\
    (r = true <->
     exists ns name, match_ p ns name = true /\ match_ q ns name = true).
Proof.
  intros Hp Hq. apply intersects_fuel_plain; [done | done |].
  unfold enough. destruct p, q; simpl; lia.
Qed.

Lemma intersects_plain_exact_witness :
  exists r,
    intersects (NsName "urn:x" (Some (Name "urn:x" "a")))
      (NameChoice (Name "urn:x" "a") (Name "urn:y" "a")) = Ret r /\
    (r = true <->
     exists ns name,
       match_ (NsName "urn:x" (Some (Name "urn:x" "a"))) ns name = true /\
       match_ (NameChoice (Name "urn:x" "a") (Name "urn:y" "a")) ns name = true).
Proof.
  apply (intersects_plain_exact (NsName "urn:x" (Some (Name "urn:x" "a")))
           (NameChoice (Name "urn:x" "a") (Name "urn:y" "a"))); reflexivity.
Defined.

End name_patterns_facts.

(** ** Ref, NotAllowed and their walkers *)

Module patterns_facts.
Import name_patterns patterns.

Lemma matchValue_match p ns local :
  matchValue p (Some ns) (Some local) = match_ p ns local.
Proof.
  induction p as [ | a b IHa IHb | | pns e IHe | | e IHe ]
    using name_patterns_facts.ConcreteName_rect'; simpl; try done.
  - by rewrite IHa, IHb.
  - by rewrite IHe.
  - by rewrite IHe.
Qed.


Lemma RefWalker_fireEvent_accepts w name params :
  accepts w name params = true ->
  RefWalker_fireEvent w name params =
  (setCanEnd w true,
   mkInternalFireEventResult true None (Some [setCanEnd w true])).
Proof. unfold accepts, RefWalker_fireEvent. by intros ->. Qed.

Lemma RefWalker_fireEvent_rejects w name params :
  accepts w name params = false ->
  RefWalker_fireEvent w name params =
  (w, mkInternalFireEventResult false None None).
Proof. unfold accepts, RefWalker_fireEvent. by intros ->. Qed.

(** Once [canEnd] is true every event is rejected and the walker stays as
    it is. *)
Lemma fireEvents_spent events : forall w,
  canEnd w = true ->
  fst (fireEvents w events) = w /\
  Forall (fun r => matched r = false) (snd (fireEvents w events)).
Proof.
  induction events as [| [name params] rest IH]; intros w Hw; simpl.
  - by split.
  - rewrite RefWalker_fireEvent_rejects by (unfold accepts; by rewrite Hw).
    destruct (IH w Hw) as [H1 H2].
    destruct (fireEvents w rest) as [w'' rs]. simpl in *. split; [done |].
    by constructor.
Qed.


Lemma countMatched_none rs :
  Forall (fun r => matched r = false) rs -> countMatched rs = 0.
Proof.
  unfold countMatched. induction 1 as [| r rs Hr _ IH]; [done |].
  simpl. by rewrite Hr.
Qed.

Lemma fireEvents_fresh events : forall w,
  canEnd w = false ->
  countMatched (snd (fireEvents w events)) <= 1 /\
  (canEnd (fst (fireEvents w events)) = true <->
   countMatched (snd (fireEvents w events)) = 1).
Proof.
  induction events as [| [name params] rest IH]; intros w Hw; simpl.
  - rewrite Hw. unfold countMatched. simpl. split; [lia | split; [done | lia]].
  - destruct (accepts w name params) eqn:Hacc.
    + rewrite RefWalker_fireEvent_accepts by done.
      destruct (fireEvents_spent rest (setCanEnd w true) eq_refl) as [H1 H2].
      destruct (fireEvents (setCanEnd w true) rest) as [w'' rs]. simpl in *.
      subst w''. apply countMatched_none in H2.
      unfold countMatched in *. simpl. rewrite H2.
      split; [lia | split; done].
    + rewrite RefWalker_fireEvent_rejects by done.
      specialize (IH w Hw).
      destruct (fireEvents w rest) as [w'' rs]. simpl in *.
      unfold countMatched in *. simpl. done.
Qed.

(** C4: a RefWalker whose [canEnd] is false and that is fired an
    [enterStartTag] or [startTagAndAttributes] event whose (ns, local) its
    name class matches returns [matched = true] with [refs = [itself]] and
    has [canEnd] true afterwards; in every other case [fireEvent] returns
    [matched = false] (and leaves the walker as it is); [end()] returns the
    ElementNameError "tag required" exactly when [canEnd] is false, and
    false otherwise. Over any run of events on a walker that starts with
    [canEnd] false, at most one event is accepted, and [canEnd] is true at
    the end exactly when one was. *)
Theorem RefWalker_fireEvent_end (w : RefWalker) (name : string)
  (params : list string) :
  (forall ns local rest,
      canEnd w = false ->
      name = "enterStartTag" \/ name = "startTagAndAttributes" ->
      params = ns :: local :: rest ->
      match_ (startName w) ns local = true ->
      exists w',
        RefWalker_fireEvent w name params =
          (w', mkInternalFireEventResult true None (Some [w'])) /\
        canEnd w' = true /\ w' = setCanEnd w true) /\
  (forall ns local rest,
      params = ns :: local :: rest ->
      ~ (canEnd w = false /\
         (name = "enterStartTag" \/ name = "startTagAndAttributes") /\
         match_ (startName w) ns local = true) ->
      RefWalker_fireEvent w name params =
        (w, mkInternalFireEventResult false None None)) /\
  (accepts w name params = false ->
   RefWalker_fireEvent w name params =
     (w, mkInternalFireEventResult false None None)) /\
  (RefWalker_end w =
     Some [ElementNameError "tag required" (OfPattern (startName w))]
   <-> canEnd w = false) /\
  (RefWalker_end w = None <-> canEnd w = true) /\
  (forall events,
      canEnd w = false ->
      countMatched (snd (fireEvents w events)) <= 1 /\
      (canEnd (fst (fireEvents w events)) = true <->
       countMatched (snd (fireEvents w events)) = 1) /\
      (RefWalker_end (fst (fireEvents w events)) = None <->
       countMatched (snd (fireEvents w events)) = 1)).
Proof.
  split; [| split; [| split; [| split; [| split]]]].
  - intros ns local rest Hc Hname -> Hm. exists (setCanEnd w true).
    split; [| done]. apply RefWalker_fireEvent_accepts. unfold accepts.
    rewrite Hc. simpl. rewrite matchValue_match, Hm.
    by destruct Hname as [-> | ->].
  - intros ns local rest -> Hnot. apply RefWalker_fireEvent_rejects.
    unfold accepts. simpl. rewrite matchValue_match.
    destruct (canEnd w); [done |]. simpl.
    destruct (match_ (startName w) ns local); [| by rewrite andb_false_r].
    rewrite andb_true_r. apply not_true_is_false. intros Hn. apply Hnot.
    split; [done |]. split; [| done].
    apply orb_true_iff in Hn as [Hn | Hn]; apply String.eqb_eq in Hn; auto.
  - apply RefWalker_fireEvent_rejects.
  - unfold RefWalker_end. by destruct (canEnd w).
  - unfold RefWalker_end. by destruct (canEnd w).
  - intros events Hc. destruct (fireEvents_fresh events w Hc) as [H1 H2].
    split; [done | split; [done |]]. rewrite <- H2.
    unfold RefWalker_end. by destruct (canEnd (fst (fireEvents w events))).
Qed.


Lemma RefWalker_fireEvent_end_witness :
  exists w',
    RefWalker_fireEvent walkerOfA "enterStartTag" [""; "a"] =
      (w', mkInternalFireEventResult true None (Some [w'])) /\
    canEnd w' = true /\ w' = setCanEnd walkerOfA true.
Proof.
  apply (proj1 (RefWalker_fireEvent_end walkerOfA "enterStartTag" [""; "a"])
           "" "a" []).
  - reflexivity.
  - left. reflexivity.
  - reflexivity.
  - reflexivity.
Defined.

(** *** [hasEmptyPattern] and the fresh walker *)


(** C5 fails at a Ref whose element is flagged [notAllowed]:
    [hasEmptyPattern()] is false, and [newWalker()] hands out the walker of
    the element's content, the NotAllowed walker, whose [canEnd] is true. *)
Lemma hasEmptyPattern_not_canEnd :
  ~ (Ref_hasEmptyPattern refToNotAllowedElement = true <->
     exists w, newWalker (PRef refToNotAllowedElement) = Ret w /\
               walker_canEnd w = true).
Proof.
  intros [_ H]. discriminate H. exists (WNotAllowed singleton). by split.
Qed.

(** C5, amended: for a Ref whose element is not flagged [notAllowed],
    [hasEmptyPattern()] is false and [newWalker()] returns a RefWalker on
    that element with [canEnd] false, so that [hasEmptyPattern()] is true
    exactly when the fresh walker's [canEnd] is; for a Ref whose element is
    flagged [notAllowed], [newWalker()] is the [newWalker()] of the
    element's content; the walker of NotAllowed has [canEnd] true. *)
Theorem hasEmptyPattern_newWalker :
  (forall r d,
      resolvesTo r = Some d ->
      element_notAllowed (define_pat d) = false ->
      exists w,
        newWalker (PRef r) = Ret (WRef w) /\
        canEnd w = false /\
        element w = define_pat d /\
        startName w = element_name (define_pat d) /\
        Ref_hasEmptyPattern r = false /\
        (Ref_hasEmptyPattern r = true <-> walker_canEnd (WRef w) = true)) /\
  (forall r d,
      resolvesTo r = Some d ->
      element_notAllowed (define_pat d) = true ->
      newWalker (PRef r) = newWalker (element_pat (define_pat d))) /\
  (forall n, exists w,
      newWalker (PNotAllowed n) = Ret w /\ walker_canEnd w = true).
Proof.
  split; [| split].
  - intros [xmlPath name res] [dname [ename pat notAllowed]]; simpl.
    intros -> ->. eexists. split; [reflexivity |]. simpl. by repeat split.
  - intros [xmlPath name res] [dname [ename pat notAllowed]]; simpl.
    by intros -> ->.
  - intros n. by exists (WNotAllowed singleton).
Qed.

Lemma hasEmptyPattern_newWalker_witness :
  exists w,
    newWalker (PRef refToA) = Ret (WRef w) /\
    canEnd w = false /\
    (Ref_hasEmptyPattern refToA = true <-> walker_canEnd (WRef w) = true).
Proof.
  destruct (proj1 hasEmptyPattern_newWalker refToA
              (mkDefine "a" elementA) eq_refl eq_refl) as (w & H1 & H2 & _ & _ & _ & H3).
  by exists w.
Defined.

(** *** [_prepare] *)

Lemma Ref_prepare_resolves r definitions d :
  definitions !! ref_name r = Some d ->
  exists r', Ref_prepare r definitions = Ret r' /\ resolvesTo r' = Some d /\
             ref_name r' = ref_name r.
Proof. intros H. unfold Ref_prepare. rewrite H. by eexists. Qed.

Lemma Ref_prepare_unresolved r definitions :
  definitions !! ref_name r = None ->
  Ref_prepare r definitions = Throw (Error "${this.name} cannot be resolved").
Proof. intros H. unfold Ref_prepare. by rewrite H. Qed.

(** C9, at the Ref named [foo] and a map without [foo]: [_prepare] throws
    a plain Error whose message is the text [${this.name} cannot be
    resolved], with the name not put in; it is not [foo cannot be
    resolved]. *)
Theorem Ref_prepare_message_not_expanded :
  Ref_prepare (mkRef "/grammar/start/ref" "foo" None) ∅ =
    Throw (Error "${this.name} cannot be resolved") /\
  Ref_prepare (mkRef "/grammar/start/ref" "foo" None) ∅ <>
    Throw (Error ("foo" ++ " cannot be resolved")).
Proof. split; [reflexivity | discriminate]. Qed.

(** *** [possible] and the life of a Ref *)

Lemma newWalker_startTagEvent : forall p w,
  newWalker p = Ret (WRef w) ->
  startTagEvent w = mkEnterStartTagEvent (startName w).
Proof.
  fix IH 1. intros p w. destruct p as [n | r]; [done |].
  destruct r as [xmlPath name [[dname [ename pat notAllowed]] |]]; [| done].
  cbn [newWalker]. destruct notAllowed.
  - apply IH.
  - by intros [= <-].
Qed.

Lemma RefWalker_fireEvent_startTagEvent w name params :
  startTagEvent (fst (RefWalker_fireEvent w name params)) = startTagEvent w /\
  startName (fst (RefWalker_fireEvent w name params)) = startName w.
Proof. unfold RefWalker_fireEvent. by destruct (_ && _). Qed.

(** [possible()] tells what [fireEvent] will accept: for a walker handed
    out by [newWalker], after any run of events, a start tag is matched
    exactly when its name is matched by the name pattern of an event that
    [possible()] lists; and no other event is ever matched. *)
Theorem possible_predicts_fireEvent (p : Pattern) (w0 : InternalWalker)
  (events : list (string * list string)) :
  newWalker p = Ret w0 ->
  let w := walker_fireEvents w0 events in
  (forall ns local rest,
      matched (snd (walker_fireEvent w "enterStartTag" (ns :: local :: rest))) =
      existsb (fun ev => match_ (namePattern ev) ns local) (walker_possible w)) /\
  (forall name params,
      name <> "enterStartTag" -> name <> "startTagAndAttributes" ->
      matched (snd (walker_fireEvent w name params)) = false).
Proof.
  intros Hnew. cbv zeta.
  assert (Hinv : match walker_fireEvents w0 events with
                 | WRef w => startTagEvent w = mkEnterStartTagEvent (startName w)
                 | WNotAllowed _ => True
                 end).
  { assert (H0 : match w0 with
                 | WRef w => startTagEvent w = mkEnterStartTagEvent (startName w)
                 | WNotAllowed _ => True
                 end).
    { destruct w0 as [n | w]; [done |]. by eapply newWalker_startTagEvent. }
    clear Hnew. revert w0 H0.
    induction events as [| [name params] rest IH]; intros w0 H0; [done |].
    cbn [walker_fireEvents]. apply IH. destruct w0 as [n | w]; [done |].
    cbn [walker_fireEvent].
    pose proof (RefWalker_fireEvent_startTagEvent w name params) as [H1 H2].
    destruct (RefWalker_fireEvent w name params) as [w' r]. simpl in *. congruence. }
  destruct (walker_fireEvents w0 events) as [n | w]; [by split |].
  split.
  - intros ns local rest. cbn [walker_fireEvent walker_possible].
    unfold RefWalker_fireEvent, RefWalker_possible.
    cbn [lookup list_lookup String.eqb Ascii.eqb Bool.eqb orb andb].
    rewrite matchValue_match, andb_true_r.
    destruct (canEnd w); cbn [negb andb existsb]; [done |].
    rewrite Hinv. cbn [namePattern]. rewrite orb_false_r.
    by destruct (match_ (startName w) ns local).
  - intros name params H1 H2. cbn [walker_fireEvent]. unfold RefWalker_fireEvent.
    apply String.eqb_neq in H1, H2. rewrite H1, H2.
    by rewrite andb_false_r.
Qed.

Lemma possible_predicts_fireEvent_witness :
  matched (snd (walker_fireEvent
                  (walker_fireEvents (WRef walkerOfA) [("text", ["x"])])
                  "enterStartTag" [""; "a"])) =
  existsb (fun ev => match_ (namePattern ev) "" "a")
    (walker_possible (walker_fireEvents (WRef walkerOfA) [("text", ["x"])])).
Proof.
  apply (proj1 (possible_predicts_fireEvent (PRef refToA) (WRef walkerOfA)
                  [("text", ["x"])] eq_refl) "" "a" []).
Defined.

(** A Ref is of use after [_prepare] only. Before it, [element] and
    [newWalker] throw. [_prepare] binds the Ref to the definition that the
    map holds under its name, whatever it was bound to before; [element]
    is then the element of that definition, and [newWalker] returns a
    walker that waits for the start tag of this element, unless the
    element is flagged [notAllowed]. *)
Theorem prepare_then_newWalker (xmlPath name : string) (old : option Define)
  (definitions : gmap string Define) :
  Ref_element (mkRef xmlPath name None) =
    Throw (Error "trying to get an element on a ref hat has not been resolved") /\
  newWalker (PRef (mkRef xmlPath name None)) =
    Throw (Error "trying to get an element on a ref hat has not been resolved") /\
  (forall d,
      definitions !! name = Some d ->
      exists r,
        Ref_prepare (mkRef xmlPath name old) definitions = Ret r /\
        Ref_prepare r definitions = Ret r /\
        ref_name r = name /\
        Ref_element r = Ret (define_pat d) /\
        (element_notAllowed (define_pat d) = false ->
         exists w,
           newWalker (PRef r) = Ret (WRef w) /\
           element w = define_pat d /\
           canEnd w = false /\
           RefWalker_possible w =
             [mkEnterStartTagEvent (element_name (define_pat d))])).
Proof.
  split; [reflexivity |]. split; [reflexivity |].
  intros d Hd. unfold Ref_prepare. cbn [ref_name ref_xmlPath]. rewrite Hd.
  eexists. split; [reflexivity |]. cbn [ref_name]. rewrite Hd.
  split; [reflexivity |]. split; [reflexivity |]. split; [reflexivity |].
  destruct d as [dname [ename pat notAllowed]]. cbn. intros ->.
  eexists. split; [reflexivity |]. done.
Qed.

Lemma prepare_then_newWalker_witness :
  exists r,
    Ref_prepare (mkRef "/grammar/start/ref" "a" None)
      (<["a" := mkDefine "a" elementA]> ∅) = Ret r /\
    Ref_element r = Ret elementA.
Proof.
  destruct (proj2 (proj2 (prepare_then_newWalker "/grammar/start/ref" "a" None
                            (<["a" := mkDefine "a" elementA]> ∅)))
              (mkDefine "a" elementA) ltac:(apply lookup_insert_eq))
    as (r & Hr & _ & _ & He & _).
  by exists r.
Defined.

End patterns_facts.

(** ** The grammar walker *)

Module grammar_facts.
Import name_patterns patterns grammar.

Section Swallow.

Context {NameResolver ElementWalker : Type}.
Variable ElementWalker_fireEvent :
  ElementWalker -> string -> list string -> NameResolver ->
  ElementWalker * InternalFireEventResult.
Variable Element_newWalker :
  Element -> option string * option string -> ElementWalker.
Variable initWithAttributes :
  ElementWalker -> list string -> NameResolver ->
  ElementWalker * InternalFireEventResult.

Abbreviation GW := (GrammarWalker NameResolver ElementWalker).
Abbreviation fire := (fireEvent NameResolver ElementWalker ElementWalker_fireEvent
                    Element_newWalker initWithAttributes).
Abbreviation fireOnCurrent :=
  (_fireOnCurrentWalkers NameResolver ElementWalker ElementWalker_fireEvent).
Abbreviation fireSuspended :=
  (_fireSuspendedWsOnCurrentWalkers NameResolver ElementWalker
     ElementWalker_fireEvent).
Abbreviation swallow := (_swallowAttributeValue NameResolver ElementWalker).
Abbreviation stack := (elementWalkerStack NameResolver ElementWalker).

Lemma topFrame_returns (gw : GW) :
  stack gw <> [] -> exists walkers, topFrame _ _ gw = Ret walkers.
Proof.
  intros Hne. unfold topFrame.
  destruct (last (stack gw)) as [walkers |] eqn:Hl; [by eexists |].
  apply last_None in Hl. done.
Qed.

Lemma fireSuspended_keeps (gw : GW) :
  stack gw <> [] ->
  exists gw' wsMatch,
    fireSuspended gw = Ret (gw', wsMatch) /\ swallow gw' = swallow gw.
Proof.
  intros Hne. unfold _fireSuspendedWsOnCurrentWalkers.
  destruct (topFrame_returns gw Hne) as [walkers ->]. simpl.
  destruct walkers as [| walker [| w2 rest]].
  - simpl. by eexists _, _.
  - destruct (IWalker_fireEvent _ _ _ _ _ _ _) as [walker' result].
    by eexists _, _.
  - destruct (remainingWalkers _ _); by eexists _, _.
Qed.

Lemma fireOnCurrent_keeps (gw gw' : GW) name params ret :
  fireOnCurrent gw name params = Ret (gw', ret) -> swallow gw' = swallow gw.
Proof.
  unfold _fireOnCurrentWalkers.
  destruct (topFrame _ _ gw) as [walkers | |]; simpl; try done.
  destruct walkers as [| walker [| w2 rest]].
  - simpl. by intros [= <- <-].
  - destruct (IWalker_fireEvent _ _ _ _ _ _ _) as [walker' result].
    by intros [= <- <-].
  - destruct (remainingWalkers _ _); by intros [= <- <-].
Qed.


(** C8, amended. When an [attributeName] event is rejected by the walkers
    of the top frame and these give no errors of their own, [fireEvent]
    returns the AttributeNameError "attribute not allowed here" and sets the
    flag (when they give errors, these are returned and the flag is not
    set). While the flag is set, a [text] event of white space only is
    kept in the one-slot buffer: [fireEvent] returns false and the flag
    stays set. The first call after that with any other event is
    special-cased: it returns false for [attributeValue] and the
    ValidationError "attribute value required" for any other event, and
    clears the flag, so that only this one event is affected. *)
Theorem swallow_attribute_value (gw : GW) (name : string) (params : list string) :
  (forall gw' ret,
      name = "attributeName" ->
      swallow gw = false ->
      fireOnCurrent (beforeFiring _ _ gw) name params = Ret (gw', ret) ->
      matched ret = false ->
      (errors ret = None ->
       fire gw name params =
         Ret (setSwallowAttributeValue _ _ gw' true,
              Some [AttributeNameError "attribute not allowed here"
                      (OfParams (params !! 0%nat) (params !! 1%nat))])) /\
      (forall es, errors ret = Some es ->
                  fire gw name params = Ret (gw', Some es) /\
                  swallow gw' = false)) /\
  (forall text,
      swallow gw = true ->
      name = "text" ->
      params !! 0%nat = Some text ->
      hasNonWhitespace text = false ->
      text <> "" ->
      fire gw name params = Ret (setSuspendedWs _ _ gw (Some text), None) /\
      swallow (setSuspendedWs _ _ gw (Some text)) = true) /\
  (swallow gw = true ->
   isWhitespaceText name params = false ->
   stack gw <> [] ->
   exists gw',
     fire gw name params = Ret (gw', swallowed name) /\
     swallow gw' = false).
Proof.
  split; [| split].
  - intros gw' ret -> Hsw Hfire Hm. unfold fireEvent. simpl.
    unfold fireEventRest. simpl. rewrite Hsw.
    unfold beforeFiring in Hfire. rewrite Hfire. simpl. rewrite Hm.
    split.
    + intros ->. reflexivity.
    + intros es ->. split; [reflexivity |].
      apply fireOnCurrent_keeps in Hfire. by rewrite Hfire.
  - intros text Hsw -> Hp Hws Hne. unfold fireEvent. simpl.
    rewrite Hp, Hws. simpl.
    destruct (String.eqb_spec text ""); [done |]. by split.
  - intros Hsw Hws Hne. unfold fireEvent, isWhitespaceText in *.
    destruct (String.eqb name "text") eqn:Htext.
    + simpl in Hws. unfold fireEventRest. simpl.
      destruct (params !! 0%nat) as [text |].
      * rewrite Hws. simpl. rewrite Hsw. by eexists.
      * rewrite Hsw. by eexists.
    + destruct (String.eqb name "endTag") eqn:Hend.
      * destruct (negb _ && _).
        -- destruct (fireSuspended_keeps gw Hne) as (gw1 & wsMatch & -> & Hk).
           simpl. unfold fireEventRest. simpl. rewrite Hk, Hsw. by eexists.
        -- simpl. unfold fireEventRest. simpl. rewrite Hsw. by eexists.
      * unfold fireEventRest. simpl. rewrite Hsw. by eexists.
Qed.

End Swallow.


(** C8 fails when the event after the rejected [attributeName] is a text
    of white space: on the fresh walker of [grammarA], the attribute
    [x] is rejected, and the [text] event fired next returns false, not
    "attribute value required", and leaves the flag set; it is the event
    after it that gets the special case. *)
Lemma swallow_not_the_next_event :
  exists gw1 gw2 gw3,
    make unit unit grammarA tt = Ret walkerA /\
    fireA walkerA "attributeName" [""; "x"] =
      Ret (gw1, Some [AttributeNameError "attribute not allowed here"
                        (OfParams (Some "") (Some "x"))]) /\
    fireA gw1 "text" [" "] = Ret (gw2, None) /\
    _swallowAttributeValue _ _ gw2 = true /\
    fireA gw2 "leaveStartTag" [] =
      Ret (gw3, Some [ValidationError "attribute value required"]).
Proof.
  do 3 eexists. split; [reflexivity |].
  split; [vm_compute; reflexivity |].
  split; [vm_compute; reflexivity |].
  split; [reflexivity |]. vm_compute. reflexivity.
Qed.

Lemma swallow_attribute_value_witness :
  exists gw',
    fireA (setSwallowAttributeValue _ _ walkerA true) "attributeValue" ["1"] =
      Ret (gw', None) /\
    _swallowAttributeValue _ _ gw' = false.
Proof.
  apply (proj2 (proj2 (swallow_attribute_value noElementWalker_fireEvent
                         noElement_newWalker noInitWithAttributes
                         (setSwallowAttributeValue _ _ walkerA true)
                         "attributeValue" ["1"]))).
  - reflexivity.
  - reflexivity.
  - discriminate.
Defined.

(** *** The stack of frames, misplaced elements, white space *)

Section Frames.
Context {NameResolver ElementWalker : Type}.
Variable ElementWalker_fireEvent :
  ElementWalker -> string -> list string -> NameResolver ->
  ElementWalker * InternalFireEventResult.
Variable ElementWalker_end : ElementWalker -> EndResult.
Variable Element_newWalker :
  Element -> option string * option string -> ElementWalker.
Variable initWithAttributes :
  ElementWalker -> list string -> NameResolver ->
  ElementWalker * InternalFireEventResult.

Abbreviation GW := (GrammarWalker NameResolver ElementWalker).
Abbreviation fire := (fireEvent NameResolver ElementWalker ElementWalker_fireEvent
                    Element_newWalker initWithAttributes).
Abbreviation fireRest := (fireEventRest NameResolver ElementWalker
                    ElementWalker_fireEvent Element_newWalker initWithAttributes).
Abbreviation fireOnCurrent :=
  (_fireOnCurrentWalkers NameResolver ElementWalker ElementWalker_fireEvent).
Abbreviation fireSuspended :=
  (_fireSuspendedWsOnCurrentWalkers NameResolver ElementWalker
     ElementWalker_fireEvent).
Abbreviation stack := (elementWalkerStack NameResolver ElementWalker).
Abbreviation depth := (misplacedDepth NameResolver ElementWalker).

Lemma setTopFrame_length (gw : GW) walkers :
  length (stack (setTopFrame _ _ gw walkers)) = length (stack gw).
Proof. unfold setTopFrame. simpl. by rewrite length_insert. Qed.

Lemma fireOnCurrent_length (gw gw' : GW) name params ret :
  fireOnCurrent gw name params = Ret (gw', ret) ->
  length (stack gw') = length (stack gw).
Proof.
  unfold _fireOnCurrentWalkers.
  destruct (topFrame _ _ gw) as [walkers | |]; simpl; try done.
  destruct walkers as [| walker [| w2 rest]].
  - simpl. intros [= <- <-]. apply setTopFrame_length.
  - destruct (IWalker_fireEvent _ _ _ _ _ _ _) as [walker' result].
    intros [= <- <-]. apply setTopFrame_length.
  - destruct (remainingWalkers _ _); intros [= <- <-]; apply setTopFrame_length.
Qed.

Lemma fireSuspended_length (gw gw' : GW) wsMatch :
  fireSuspended gw = Ret (gw', wsMatch) ->
  length (stack gw') = length (stack gw).
Proof.
  unfold _fireSuspendedWsOnCurrentWalkers.
  destruct (topFrame _ _ gw) as [walkers | |]; simpl; try done.
  destruct walkers as [| walker [| w2 rest]].
  - simpl. intros [= <- <-]. apply setTopFrame_length.
  - destruct (IWalker_fireEvent _ _ _ _ _ _ _) as [walker' result].
    intros [= <- <-]. apply setTopFrame_length.
  - destruct (remainingWalkers _ _); intros [= <- <-]; apply setTopFrame_length.
Qed.

Lemma diagnose_length (gw gw' : GW) name params wsMatch r :
  diagnose _ _ Element_newWalker initWithAttributes gw name params wsMatch
    = Ret (gw', r) ->
  length (stack gw) <= length (stack gw').
Proof.
  unfold diagnose.
  destruct (_ || _).
  - destruct (Nat.ltb _ _).
    + intros [= <- <-]. simpl. rewrite length_app. lia.
    + destruct (paramNameToString _) as [key | |]; simpl; try done.
      destruct (elementDefinitions _ !! key) as [[| candidate [| ? ?]] |];
        simpl; try (intros [= <- <-]; simpl; rewrite length_app; lia).
      destruct (String.eqb name "startTagAndAttributes").
      * destruct (initWithAttributes _ _ _) as [newWalker' r0].
        destruct (negb _); simpl; [done |].
        intros [= <- <-]. simpl. rewrite length_app. lia.
      * simpl. intros [= <- <-]. simpl. rewrite length_app. lia.
  - repeat (destruct (String.eqb _ _); [intros [= <- <-]; simpl; lia |]).
    done.
Qed.

Lemma fireRest_keeps_stack (gw gw' : GW) name params wsMatch r :
  stack gw <> [] ->
  fireRest gw name params wsMatch = Ret (gw', r) ->
  stack gw' <> [].
Proof.
  intros Hne. unfold fireEventRest. simpl.
  destruct (_swallowAttributeValue _ _ gw).
  { intros [= <- <-]. done. }
  destruct (_fireOnCurrentWalkers _ _ _ _ _ _) as [[gw1 ret] | |] eqn:Hf;
    simpl; try done.
  apply fireOnCurrent_length in Hf. simpl in Hf.
  set (gw2 := if String.eqb name "endTag" then _ else gw1).
  assert (Hgw2 : stack gw2 <> []).
  { subst gw2. destruct (String.eqb name "endTag").
    - assert (Hpop : stack (if Nat.ltb 1 (length (stack gw1))
                            then setStack _ _ gw1 (removelast (stack gw1))
                            else gw1) <> []).
      { destruct (Nat.ltb_spec 1 (length (stack gw1))) as [Hl | Hl].
        - simpl. destruct (stack gw1) as [| a [| b l]]; simpl in *; try lia.
          done.
        - intros H0. rewrite H0 in Hf. simpl in Hf.
          destruct (stack gw); [done | simpl in Hf; lia]. }
      by destruct (Nat.ltb 0 _).
    - intros H0. rewrite H0 in Hf. simpl in Hf.
      destruct (stack gw); [done | simpl in Hf; lia]. }
  clearbody gw2.
  destruct (matched ret).
  - destruct (refs ret) as [[| r0 rs] |].
    + by intros [= <- <-].
    + unfold _processRefs.
      destruct (if String.eqb name "startTagAndAttributes" then _ else _)
        as [newWalkers | |]; simpl; try done.
      intros [= <- <-]. simpl. by destruct (stack gw2).
    + by intros [= <- <-].
  - destruct (errors ret).
    + by intros [= <- <-].
    + intros Hd. apply diagnose_length in Hd.
      intros H0. rewrite H0 in Hd. simpl in Hd.
      destruct (stack gw2); [done | simpl in Hd; lia].
Qed.

Lemma fire_keeps_stack (gw gw' : GW) name params r :
  stack gw <> [] ->
  fire gw name params = Ret (gw', r) ->
  stack gw' <> [].
Proof.
  intros Hne. unfold fireEvent.
  destruct (String.eqb name "text").
  { destruct (params !! 0%nat) as [text |].
    - destruct (negb _).
      + destruct (String.eqb text ""); [done |]. by intros [= <- <-].
      + by apply fireRest_keeps_stack.
    - by apply fireRest_keeps_stack. }
  destruct (String.eqb name "endTag").
  - destruct (negb _ && _).
    + destruct (_fireSuspendedWsOnCurrentWalkers _ _ _ _) as [[gw1 ws] | |] eqn:Hs;
        simpl; try done.
      apply fireSuspended_length in Hs.
      apply fireRest_keeps_stack. simpl. intros H0. rewrite H0 in Hs.
      destruct (stack gw); [done | simpl in Hs; lia].
    + simpl. by apply fireRest_keeps_stack.
  - by apply fireRest_keeps_stack.
Qed.

(** However many events were fired on a walker made by [make], and
    whatever they were, its stack of frames is never empty: [end()] does
    not throw "stack underflow" but returns. *)
Theorem end_never_underflows (g : Grammar) (nr : NameResolver)
  (events : list (string * list string)) (gw gw' : GW)
  (results : list FireEventResult) :
  make _ _ g nr = Ret gw ->
  fireAll _ _ ElementWalker_fireEvent Element_newWalker initWithAttributes
    gw events = Ret (gw', results) ->
  stack gw' <> [] /\
  length results = length events /\
  exists r, GrammarWalker_end _ _ ElementWalker_end gw' = Ret r.
Proof.
  intros Hmake Hrun.
  assert (H0 : stack gw <> []).
  { unfold make in Hmake. destruct (newWalker (start g)); simpl in Hmake; try done.
    by injection Hmake as <-. }
  clear Hmake.
  assert (Hinv : stack gw' <> [] /\ length results = length events).
  { revert gw gw' results H0 Hrun.
    induction events as [| [name params] rest IH]; intros gw gw' results H0; simpl.
    - by intros [= <- <-].
    - destruct (fireEvent _ _ _ _ _ gw name params) as [[gw1 r] | |] eqn:Hf;
        simpl; try done.
      destruct (fireAll _ _ _ _ _ gw1 rest) as [[gw2 rs] | |] eqn:Hr;
        simpl; try done.
      intros [= <- <-]. apply fire_keeps_stack in Hf; [| done].
      destruct (IH _ _ _ Hf Hr) as [H1 H2]. split; [done |]. simpl. by rewrite H2. }
  destruct Hinv as [H1 H2]. split; [done |]. split; [done |].
  unfold GrammarWalker_end. destruct (stack gw'); [done |]. by eexists.
Qed.

End Frames.

Lemma end_never_underflows_witness :
  exists r, GrammarWalker_end unit unit (fun _ => None)
              (setSuspendedWs unit unit
                 (setSwallowAttributeValue unit unit
                    (setIgnoreNextWs _ _ walkerA false) true) (Some " "))
            = Ret r.
Proof.
  refine (proj2 (proj2 (end_never_underflows noElementWalker_fireEvent
                   (fun _ => None) noElement_newWalker noInitWithAttributes
                   grammarA tt [("attributeName", [""; "x"]); ("text", [" "])]
                   walkerA _ _ _ _))).
  - reflexivity.
  - vm_compute. reflexivity.
Defined.

Section Misplaced.
Context {NameResolver ElementWalker : Type}.
Variable ElementWalker_fireEvent :
  ElementWalker -> string -> list string -> NameResolver ->
  ElementWalker * InternalFireEventResult.
Variable Element_newWalker :
  Element -> option string * option string -> ElementWalker.
Variable initWithAttributes :
  ElementWalker -> list string -> NameResolver ->
  ElementWalker * InternalFireEventResult.

Abbreviation GW := (GrammarWalker NameResolver ElementWalker).
Abbreviation fire := (fireEvent NameResolver ElementWalker ElementWalker_fireEvent
                    Element_newWalker initWithAttributes).
Abbreviation fireRest := (fireEventRest NameResolver ElementWalker
                    ElementWalker_fireEvent Element_newWalker initWithAttributes).
Abbreviation fireOnCurrent :=
  (_fireOnCurrentWalkers NameResolver ElementWalker ElementWalker_fireEvent).
Abbreviation fireSuspended :=
  (_fireSuspendedWsOnCurrentWalkers NameResolver ElementWalker
     ElementWalker_fireEvent).
Abbreviation stack := (elementWalkerStack NameResolver ElementWalker).
Abbreviation depth := (misplacedDepth NameResolver ElementWalker).
Abbreviation swallow := (_swallowAttributeValue NameResolver ElementWalker).
Abbreviation misplaced := (inMisplacedElement NameResolver ElementWalker).

Lemma last_snoc_frame (below : list (list (IWalker ElementWalker))) frame :
  last (below ++ [frame]) = Some frame.
Proof. apply last_snoc. Qed.

Lemma insert_last_frame (below : list (list (IWalker ElementWalker))) frame frame' :
  <[pred (length (below ++ [frame])) := frame']> (below ++ [frame]) =
  below ++ [frame'].
Proof.
  rewrite length_app. simpl. replace (pred (length below + 1)) with (length below + 0) by lia.
  by rewrite insert_app_r.
Qed.

Lemma setStack_same (gw : GW) : setStack _ _ gw (stack gw) = gw.
Proof. by destruct gw. Qed.

(** A walker whose top frame is the single misplaced walker: the event goes
    to it, and the frame stays as it is. *)
Lemma fireOnCurrent_misplaced (gw : GW) below m name params :
  stack gw = below ++ [[IMisplaced _ m]] ->
  fireOnCurrent gw name params = Ret (gw, MisplacedElementWalker_fireEvent name).
Proof.
  intros Hst. unfold _fireOnCurrentWalkers, topFrame. rewrite Hst, last_snoc_frame.
  simpl. unfold setTopFrame. rewrite Hst, insert_last_frame, <- Hst.
  by rewrite setStack_same.
Qed.

Lemma fireSuspended_misplaced (gw : GW) below m :
  stack gw = below ++ [[IMisplaced _ m]] ->
  fireSuspended gw = Ret (gw, true).
Proof.
  intros Hst. unfold _fireSuspendedWsOnCurrentWalkers, topFrame.
  rewrite Hst, last_snoc_frame.
  simpl. unfold setTopFrame. rewrite Hst, insert_last_frame, <- Hst.
  by rewrite setStack_same.
Qed.

Lemma misplaced_intro (gw : GW) below m :
  0 < depth gw -> swallow gw = false ->
  stack gw = below ++ [[IMisplaced _ m]] -> below <> [] -> misplaced gw.
Proof. intros. split; [done |]. split; [done |]. by exists below, m. Qed.

(** Inside an element that could not be placed no error is reported: every
    event returns false. A start tag goes one level deeper (one more frame
    with a misplaced walker), an end tag comes back one level (the frame is
    popped), and any other event leaves the depth and the stack as they
    are. The one call that throws is the empty text event. *)
Theorem misplaced_element_is_silent (gw : GW) (name : string)
  (params : list string) :
  misplaced gw ->
  ~ (name = "text" /\ params !! 0%nat = Some "") ->
  exists gw',
    fire gw name params = Ret (gw', None) /\
    swallow gw' = false /\
    if String.eqb name "enterStartTag" || String.eqb name "startTagAndAttributes"
    then depth gw' = S (depth gw) /\
         stack gw' = stack gw ++ [[IMisplaced _ newMisplacedElementWalker]] /\
         misplaced gw'
    else if String.eqb name "endTag"
    then depth gw' = pred (depth gw) /\ stack gw' = removelast (stack gw)
    else depth gw' = depth gw /\ stack gw' = stack gw /\ misplaced gw'.
Proof.
  intros (Hd & Hsw & below & m & Hst & Hbelow) Hempty.
  assert (Hrest : forall gw0 : GW,
             stack gw0 = stack gw -> depth gw0 = depth gw -> swallow gw0 = false ->
             exists gw',
               fireRest gw0 name params true = Ret (gw', None) /\
               swallow gw' = false /\
               if String.eqb name "enterStartTag" ||
                  String.eqb name "startTagAndAttributes"
               then depth gw' = S (depth gw) /\
                    stack gw' = stack gw ++ [[IMisplaced _ newMisplacedElementWalker]] /\
                    misplaced gw'
               else if String.eqb name "endTag"
               then depth gw' = pred (depth gw) /\ stack gw' = removelast (stack gw)
               else depth gw' = depth gw /\ stack gw' = stack gw /\ misplaced gw').
  { intros gw0 Hst0 Hd0 Hsw0. unfold fireEventRest. cbv zeta.
    set (gw1 := setSuspendedWs _ _ gw0 None).
    assert (Hst1 : stack gw1 = stack gw) by (rewrite <- Hst0; reflexivity).
    assert (Hd1 : depth gw1 = depth gw) by (rewrite <- Hd0; reflexivity).
    assert (Hsw1 : swallow gw1 = false) by (rewrite <- Hsw0; reflexivity).
    clearbody gw1. clear gw0 Hst0 Hd0 Hsw0. rewrite Hsw1.
    rewrite (fireOnCurrent_misplaced _ below m) by congruence.
    cbn [bind]. unfold MisplacedElementWalker_fireEvent.
    destruct (String.eqb name "enterStartTag" ||
              String.eqb name "startTagAndAttributes") eqn:Hstart.
    - assert (String.eqb name "endTag" = false) as ->.
      { apply orb_true_iff in Hstart as [H | H]; apply String.eqb_eq in H;
          by subst. }
      cbn [matched errors]. unfold diagnose. rewrite Hstart, Hd1.
      destruct (Nat.ltb_spec 0 (depth gw)) as [_ | ?]; [| lia].
      eexists. split; [reflexivity |]. split; [exact Hsw1 |].
      split; [reflexivity |]. split; [cbn; by rewrite Hst1 |].
      apply (misplaced_intro _ (stack gw) newMisplacedElementWalker).
      * cbn. lia.
      * exact Hsw1.
      * cbn. by rewrite Hst1.
      * rewrite Hst. by destruct below.
    - cbn [matched refs]. destruct (String.eqb name "endTag") eqn:Hend.
      + rewrite Hst1, Hst. rewrite length_app. cbn [length].
        destruct (Nat.ltb_spec 1 (length below + 1)) as [_ | Hl];
          [| destruct below; [done | simpl in Hl; lia]].
        cbn [misplacedDepth setStack]. rewrite Hd1.
        destruct (Nat.ltb_spec 0 (depth gw)) as [_ | ?]; [| lia].
        eexists. split; [reflexivity |]. split; [exact Hsw1 |].
        split; [reflexivity |]. cbn. by rewrite removelast_last.
      + eexists. split; [reflexivity |]. split; [exact Hsw1 |].
        split; [exact Hd1 |]. split; [exact Hst1 |].
        apply (misplaced_intro _ below m); congruence. }
  unfold fireEvent.
  destruct (String.eqb name "text") eqn:Htext.
  - apply String.eqb_eq in Htext. subst name. cbn [String.eqb orb] in *.
    assert (("text" =? "enterStartTag") || ("text" =? "startTagAndAttributes")
            = false) as Hno by reflexivity.
    destruct (params !! 0%nat) as [text |] eqn:Hp.
    + destruct (hasNonWhitespace text) eqn:Hws; cbn [negb].
      * by apply Hrest.
      * destruct (String.eqb_spec text "") as [-> | Hne];
          [exfalso; by apply Hempty |].
        eexists. split; [reflexivity |]. split; [exact Hsw |].
        split; [reflexivity |]. split; [reflexivity |].
        by apply (misplaced_intro _ below m).
    + by apply Hrest.
  - destruct (String.eqb name "endTag") eqn:Hend.
    + assert (exists gw0 : GW,
                 (if negb (ignoreNextWs _ _ gw) && bool_decide (suspendedWs _ _ gw <> None)
                  then fireSuspended gw else Ret (gw, true)) = Ret (gw0, true) /\
                 gw0 = gw) as (gw0 & -> & ->).
      { destruct (negb _ && _); [| by eexists].
        rewrite (fireSuspended_misplaced gw below m Hst). by eexists. }
      cbn [bind]. by apply Hrest.
    + by apply Hrest.
Qed.

Lemma fireOnCurrent_only_stack (gw gw' : GW) name params ret :
  fireOnCurrent gw name params = Ret (gw', ret) ->
  gw' = setStack _ _ gw (stack gw').
Proof.
  unfold _fireOnCurrentWalkers.
  destruct (topFrame _ _ gw) as [walkers | |]; simpl; try done.
  destruct walkers as [| walker [| w2 rest]].
  - simpl. by intros [= <- <-].
  - destruct (IWalker_fireEvent _ _ _ _ _ _ _) as [walker' result].
    by intros [= <- <-].
  - destruct (remainingWalkers _ _); by intros [= <- <-].
Qed.

(** How the walker gets there: a start tag that the walkers of the top
    frame reject without an error of their own, and whose name is not the
    name of exactly one element definition, is answered by the one
    ElementNameError "tag not allowed here" (or "... with these
    attributes"), and the walker is inside a misplaced element from then
    on. *)
Theorem misplaced_element_entered (gw gw1 : GW) (name ns local : string)
  (rest : list string) (ret : InternalFireEventResult) :
  name = "enterStartTag" \/ name = "startTagAndAttributes" ->
  swallow gw = false ->
  depth gw = 0 ->
  stack gw <> [] ->
  fireOnCurrent (beforeFiring _ _ gw) name (ns :: local :: rest) = Ret (gw1, ret) ->
  matched ret = false ->
  errors ret = None ->
  (forall candidate,
      elementDefinitions (gw_el _ _ gw) !! toString (Name ns local)
      <> Some [candidate]) ->
  exists gw',
    fire gw name (ns :: local :: rest) =
      Ret (gw', Some [ElementNameError
                        (if String.eqb name "enterStartTag"
                         then "tag not allowed here"
                         else "tag not allowed here with these attributes")
                        (OfParams (Some ns) (Some local))]) /\
    misplaced gw' /\ depth gw' = 1.
Proof.
  intros Hname Hsw Hd Hne Hfire Hm Herr Hcand.
  assert (Htext : String.eqb name "text" = false) by (by destruct Hname as [-> | ->]).
  assert (Hend : String.eqb name "endTag" = false) by (by destruct Hname as [-> | ->]).
  assert (Hstart : String.eqb name "enterStartTag" ||
                   String.eqb name "startTagAndAttributes" = true)
    by (by destruct Hname as [-> | ->]).
  pose proof (fireOnCurrent_only_stack _ _ _ _ _ Hfire) as Hgw1.
  pose proof (fireOnCurrent_length ElementWalker_fireEvent _ _ _ _ _ Hfire) as Hlen.
  unfold fireEvent. rewrite Htext, Hend. unfold fireEventRest. cbv zeta.
  unfold beforeFiring in Hfire, Hgw1, Hlen.
  change (swallow (setSuspendedWs _ _ (setIgnoreNextWs _ _ gw false) None))
    with (swallow gw). rewrite Hsw, Hfire. cbn [bind]. rewrite Hend, Hm, Herr.
  unfold diagnose. rewrite Hstart.
  assert (Hd1 : depth gw1 = 0) by (rewrite Hgw1; exact Hd).
  assert (Hel : gw_el _ _ gw1 = gw_el _ _ gw) by (by rewrite Hgw1).
  assert (Hsw1 : swallow gw1 = false) by (rewrite Hgw1; exact Hsw).
  rewrite Hd1. cbn [Nat.ltb Nat.leb lookup list_lookup fst snd paramNameToString
                      bind default]. unfold id. rewrite Hel.
  set (key := toString (Name ns local)) in *.
  assert (Hst1 : stack gw1 <> []).
  { intros H0. rewrite H0 in Hlen. cbn in Hlen. destruct (stack gw); [done |].
    simpl in Hlen. lia. }
  assert (Hgoal : forall msg,
             exists gw',
               Ret (pushFrame _ _ (setMisplacedDepth _ _ gw1 1)
                      [IMisplaced _ newMisplacedElementWalker],
                    Some [ElementNameError msg (OfParams (Some ns) (Some local))])
               = Ret (gw', Some [ElementNameError msg
                                   (OfParams (Some ns) (Some local))]) /\
               misplaced gw' /\ depth gw' = 1).
  { intros msg. eexists. split; [reflexivity |]. split; [| reflexivity].
    apply (misplaced_intro _ (stack gw1) newMisplacedElementWalker);
      [cbn; lia | exact Hsw1 | reflexivity | done]. }
  destruct (elementDefinitions (gw_el _ _ gw) !! key)
    as [[| candidate [| c2 cs]] |] eqn:Hk; cbn [bind]; try apply Hgoal.
  exfalso. by apply (Hcand candidate).
Qed.

Lemma fire_forgets_whitespace (gw : GW) ws name params :
  name <> "endTag" \/ ignoreNextWs _ _ gw = true ->
  fire (setSuspendedWs _ _ gw ws) name params = fire gw name params.
Proof.
  intros Hcase. unfold fireEvent.
  destruct (String.eqb name "text"); [by destruct (params !! 0%nat) |].
  destruct (String.eqb_spec name "endTag") as [-> | _]; [| done].
  destruct Hcase as [? | Hig]; [done |].
  change (ignoreNextWs _ _ (setSuspendedWs _ _ gw ws)) with (ignoreNextWs _ _ gw).
  by rewrite Hig.
Qed.

(** White space between tags is dropped: a [text] event of white space only
    is answered by false, and the event after it has the outcome it would
    have had without it, unless it is the [endTag] of an element in which
    an event other than an end tag came last (the white space is then
    fired at the walkers as text). *)
Theorem whitespace_is_dropped (gw : GW) (ws name : string) (params : list string) :
  hasNonWhitespace ws = false ->
  ws <> "" ->
  name <> "endTag" \/ ignoreNextWs _ _ gw = true ->
  fireAll _ _ ElementWalker_fireEvent Element_newWalker initWithAttributes gw
    [("text", [ws]); (name, params)] =
  let* '(gw', r) := fire gw name params in Ret (gw', [None; r]).
Proof.
  intros Hws Hne Hcase. cbn [fireAll].
  assert (fire gw "text" [ws] = Ret (setSuspendedWs _ _ gw (Some ws), None)) as ->.
  { unfold fireEvent. cbn [String.eqb Ascii.eqb Bool.eqb lookup list_lookup].
    rewrite Hws. cbn [negb]. by destruct (String.eqb_spec ws ""). }
  cbn [bind]. rewrite fire_forgets_whitespace by done.
  by destruct (fire gw name params) as [[gw' r] | |].
Qed.

End Misplaced.

Lemma misplaced_element_is_silent_witness :
  exists gw',
    fireA walkerInMisplaced "attributeName" [""; "x"] = Ret (gw', None) /\
    _swallowAttributeValue _ _ gw' = false /\
    misplacedDepth _ _ gw' = 1 /\
    elementWalkerStack _ _ gw' = elementWalkerStack _ _ walkerInMisplaced /\
    inMisplacedElement _ _ gw'.
Proof.
  apply (misplaced_element_is_silent noElementWalker_fireEvent
           noElement_newWalker noInitWithAttributes walkerInMisplaced
           "attributeName" [""; "x"]).
  - split; [cbn; lia |]. split; [reflexivity |].
    exists [[IRef unit walkerOfA]], newMisplacedElementWalker. by split.
  - intros [? _]. discriminate.
Defined.

Lemma misplaced_element_entered_witness :
  exists gw',
    fireA walkerA "enterStartTag" [""; "zz"] =
      Ret (gw', Some [ElementNameError "tag not allowed here"
                        (OfParams (Some "") (Some "zz"))]) /\
    inMisplacedElement _ _ gw' /\ misplacedDepth _ _ gw' = 1.
Proof.
  refine (misplaced_element_entered noElementWalker_fireEvent
            noElement_newWalker noInitWithAttributes walkerA _ "enterStartTag"
            "" "zz" [] _ _ _ _ _ _ _ _ _).
  - by left.
  - reflexivity.
  - reflexivity.
  - discriminate.
  - vm_compute. reflexivity.
  - reflexivity.
  - reflexivity.
  - intros candidate. vm_compute. discriminate.
Defined.

Lemma whitespace_is_dropped_witness :
  fireAll _ _ noElementWalker_fireEvent noElement_newWalker noInitWithAttributes
    walkerA [("text", ["  "]); ("enterStartTag", [""; "a"])] =
  let* '(gw', r) := fireA walkerA "enterStartTag" [""; "a"] in Ret (gw', [None; r]).
Proof.
  apply (whitespace_is_dropped noElementWalker_fireEvent noElement_newWalker
           noInitWithAttributes walkerA "  " "enterStartTag" [""; "a"]).
  - reflexivity.
  - discriminate.
  - left. discriminate.
Defined.

Lemma NoDup_fmap_filter {A : Type} (f : A -> string) (l : list A) :
  NoDup (map f l) <-> forall k, length (filter (fun x => f x = k) l) <= 1.
Proof.
  induction l as [| x l IH]; simpl.
  - split; [intros _ k; simpl; lia | intros _; constructor].
  - rewrite NoDup_cons, IH. split.
    + intros [Hx Hl] k. rewrite filter_cons.
      destruct (decide (f x = k)) as [<- | Hne]; [| apply Hl].
      assert (filter (fun y => f y = f x) l = []) as ->; [| simpl; lia].
      destruct (filter (fun y => f y = f x) l) as [| y rest] eqn:Hf; [done |].
      assert (Hy : y ∈ filter (fun y => f y = f x) l)
        by (rewrite Hf; apply elem_of_cons; by left).
      apply list_elem_of_filter in Hy as [Heq Hy]. exfalso. apply Hx.
      rewrite <- Heq. change (f y ∈ f <$> l). apply list_elem_of_fmap.
      by exists y.
    + intros Hall. split.
      * intros Hx. change (f x ∈ f <$> l) in Hx.
        apply list_elem_of_fmap in Hx as (y & Heq & Hy).
        specialize (Hall (f x)). rewrite filter_cons in Hall.
        destruct (decide (f x = f x)); [| done]. simpl in Hall.
        assert (y ∈ filter (fun z => f z = f x) l) as Hin
            by (apply list_elem_of_filter; by split).
        destruct (filter (fun z => f z = f x) l); [by apply elem_of_nil in Hin |].
        simpl in Hall. lia.
      * intros k. specialize (Hall k). rewrite filter_cons in Hall.
        destruct (decide (f x = k)); simpl in Hall; lia.
Qed.

Lemma fileElement_lookup newDef def key :
  default [] (fileElement newDef def !! key) =
  default [] (newDef !! key) ++
  (if decide (elementKey def = key) then [define_pat (snd def)] else []).
Proof.
  unfold fileElement, elementKey. cbv zeta.
  set (k := toString (element_name (define_pat (snd def)))).
  destruct (decide (k = key)) as [<- | Hne].
  - destruct (newDef !! k) as [els |] eqn:Hk; by rewrite lookup_insert_eq.
  - destruct (newDef !! k) as [els |] eqn:Hk;
      rewrite lookup_insert_ne by done; by rewrite app_nil_r.
Qed.

Lemma elementDefinitions_fold defs : forall acc key,
  default [] (fold_left fileElement defs acc !! key) =
  default [] (acc !! key) ++
  map (fun def => define_pat (snd def)) (filter (fun def => elementKey def = key) defs).
Proof.
  induction defs as [| def defs IH]; intros acc key; simpl.
  - by rewrite app_nil_r.
  - rewrite IH, fileElement_lookup, filter_cons, <- app_assoc.
    by destruct (decide (elementKey def = key)).
Qed.

(** What [elementDefinitions] holds under a key: the elements of the
    definitions with this key, in the order of the definitions. *)
Lemma elementDefinitions_lookup g key :
  default [] (elementDefinitions g !! key) =
  map (fun def => define_pat (snd def))
    (filter (fun def => elementKey def = key) (definitions g)).
Proof.
  unfold elementDefinitions. change (fold_left _ (definitions g) ∅)
    with (fold_left fileElement (definitions g) ∅).
  by rewrite elementDefinitions_fold, lookup_empty.
Qed.

(** [whollyContextIndependent()] is true exactly when no two definitions
    hold elements whose name patterns have the same string form; and under
    every key [elementDefinitions] holds the elements of the definitions with
    this key, in the order of the definitions. *)
Theorem whollyContextIndependent_iff (g : Grammar) :
  (whollyContextIndependent g = true <-> NoDup (map elementKey (definitions g))) /\
  forall key,
    default [] (elementDefinitions g !! key) =
    map (fun def => define_pat (snd def))
      (filter (fun def => elementKey def = key) (definitions g)).
Proof.
  split; [| apply elementDefinitions_lookup].
  rewrite NoDup_fmap_filter. unfold whollyContextIndependent.
  rewrite forallb_forall. split.
  - intros Hall key. pose proof (elementDefinitions_lookup g key) as Hk.
    destruct (elementDefinitions g !! key) as [els |] eqn:Hl.
    + specialize (Hall (key, els)). simpl in Hall.
      assert (Hin : In (key, els) (map_to_list (elementDefinitions g))).
      { apply list_elem_of_In, elem_of_map_to_list. done. }
      apply Hall in Hin. apply negb_true_iff, Nat.ltb_ge in Hin.
      simpl in Hk. rewrite Hk in Hin. by rewrite length_map in Hin.
    + simpl in Hk. symmetry in Hk. apply map_eq_nil in Hk. rewrite Hk. simpl. lia.
  - intros Hall [key els] Hin. simpl.
    apply list_elem_of_In, elem_of_map_to_list in Hin.
    pose proof (elementDefinitions_lookup g key) as Hk. rewrite Hin in Hk.
    simpl in Hk. apply negb_true_iff, Nat.ltb_ge. rewrite Hk, length_map.
    apply Hall.
Qed.

End grammar_facts.

(** ** The Element tree *)

Module parser_facts.
Import parser.

(** *** Reading the store after an assignment *)

Lemma parent_setParent_eq (h : store) x v :
  is_Some (h !! x) -> parent (setParent h x v) x = v.
Proof.
  intros [n Hn]. unfold setParent, parent. rewrite Hn.
  destruct n; by rewrite lookup_insert_eq.
Qed.

Lemma parent_setParent_ne (h : store) x v y :
  x <> y -> parent (setParent h x v) y = parent h y.
Proof.
  intros Hne. unfold setParent, parent.
  destruct (h !! x) as [[e | t] |]; [| | done]; by rewrite lookup_insert_ne by done.
Qed.

Lemma parent_setParent_None (h : store) x y :
  parent (setParent h x None) y = if decide (x = y) then None else parent h y.
Proof.
  destruct (decide (x = y)) as [-> | Hne]; [| by apply parent_setParent_ne].
  destruct (h !! y) as [n |] eqn:Hy; [apply parent_setParent_eq; by rewrite Hy |].
  unfold setParent. rewrite Hy. unfold parent. by rewrite Hy.
Qed.

Lemma childrenOf_setParent (h : store) x v y :
  childrenOf (setParent h x v) y = childrenOf h y.
Proof.
  unfold setParent, childrenOf.
  destruct (h !! x) as [[e | t] |] eqn:Hx; [| | done].
  - destruct (decide (x = y)) as [<- | Hne].
    + by rewrite lookup_insert_eq, Hx.
    + by rewrite lookup_insert_ne by done.
  - destruct (decide (x = y)) as [<- | Hne].
    + by rewrite lookup_insert_eq, Hx.
    + by rewrite lookup_insert_ne by done.
Qed.

Lemma isElement_setParent (h : store) x v y :
  isElement (setParent h x v) y = isElement h y.
Proof.
  unfold setParent, isElement.
  destruct (h !! x) as [[e | t] |] eqn:Hx; [| | done].
  - destruct (decide (x = y)) as [<- | Hne].
    + by rewrite lookup_insert_eq, Hx.
    + by rewrite lookup_insert_ne by done.
  - destruct (decide (x = y)) as [<- | Hne].
    + by rewrite lookup_insert_eq, Hx.
    + by rewrite lookup_insert_ne by done.
Qed.

Lemma dom_setParent (h : store) x v : dom (setParent h x v) = dom h.
Proof.
  unfold setParent. destruct (h !! x) as [[e | t] |] eqn:Hx; [| | done];
    apply dom_insert_lookup_L; by rewrite Hx.
Qed.

Lemma parent_setChildren (h : store) x cs y :
  parent (setChildren h x cs) y = parent h y.
Proof.
  unfold setChildren, parent.
  destruct (h !! x) as [[e | t] |] eqn:Hx; try done.
  destruct (decide (x = y)) as [<- | Hne].
  - by rewrite lookup_insert_eq, Hx.
  - by rewrite lookup_insert_ne by done.
Qed.

Lemma childrenOf_setChildren_eq (h : store) x cs :
  isElement h x = true -> childrenOf (setChildren h x cs) x = cs.
Proof.
  unfold isElement, setChildren, childrenOf.
  destruct (h !! x) as [[e | t] |] eqn:Hx; try done.
  by rewrite lookup_insert_eq.
Qed.

Lemma childrenOf_setChildren_ne (h : store) x cs y :
  x <> y -> childrenOf (setChildren h x cs) y = childrenOf h y.
Proof.
  intros Hne. unfold setChildren, childrenOf.
  destruct (h !! x) as [[e | t] |] eqn:Hx; try done.
  by rewrite lookup_insert_ne by done.
Qed.

Lemma isElement_setChildren (h : store) x cs y :
  isElement (setChildren h x cs) y = isElement h y.
Proof.
  unfold setChildren, isElement.
  destruct (h !! x) as [[e | t] |] eqn:Hx; try done.
  destruct (decide (x = y)) as [<- | Hne].
  - by rewrite lookup_insert_eq, Hx.
  - by rewrite lookup_insert_ne by done.
Qed.

Lemma dom_setChildren (h : store) x cs : dom (setChildren h x cs) = dom h.
Proof.
  unfold setChildren. destruct (h !! x) as [[e | t] |] eqn:Hx; try done.
  apply dom_insert_lookup_L. by rewrite Hx.
Qed.

Lemma childrenOf_isElement (h : store) x c :
  c ∈ childrenOf h x -> isElement h x = true.
Proof.
  unfold childrenOf, isElement. destruct (h !! x) as [[e | t] |]; try done.
  all: by intros ?%elem_of_nil.
Qed.

Lemma parent_is_Some (h : store) x p : parent h x = Some p -> is_Some (h !! x).
Proof. unfold parent. destruct (h !! x); [by eexists | done]. Qed.


Lemma invariant_linksAgree (h : store) : parentChildInvariant h <-> linksAgree h.
Proof.
  unfold parentChildInvariant. split.
  - intros H. split.
    + intros p c Hc. unfold childrenOf in Hc.
      destruct (h !! p) as [[e | t] |] eqn:Hp; try by apply elem_of_nil in Hc.
      destruct (H p _ Hp) as [[HF _] _]. rewrite Forall_forall in HF. by apply HF.
    + intros c p Hc. destruct (parent_is_Some h c p Hc) as [n Hn].
      destruct (H c _ Hn) as [_ H2]. by rewrite Hc in H2.
    + intros p. unfold childrenOf.
      destruct (h !! p) as [[e | t] |] eqn:Hp; try apply NoDup_nil_2.
      by destruct (H p _ Hp) as [[_ ?] _].
  - intros [H1 H2 H3] r n Hr. split.
    + destruct n as [e | t]; [| done].
      assert (Hc : childrenOf h r = children e) by (unfold childrenOf; by rewrite Hr).
      split.
      * apply Forall_forall. intros c Hin. apply H1. by rewrite Hc.
      * rewrite <- Hc. apply H3.
    + destruct (parent h r) as [p |] eqn:Hp; [| done]. by apply H2.
Qed.

Lemma indexOf_lookup x l i : indexOf x l = Some i -> l !! i = Some x.
Proof.
  revert i. induction l as [| y l IH]; intros i; simpl; [done |].
  destruct (Nat.eqb_spec y x) as [-> | Hne].
  - by intros [= <-].
  - destruct (indexOf x l) as [j |]; simpl; [| done].
    intros [= <-]. simpl. by apply IH.
Qed.

Lemma indexOf_elem x l : x ∈ l -> is_Some (indexOf x l).
Proof.
  induction l as [| y l IH]; [by intros ?%elem_of_nil |].
  intros Hin. simpl. destruct (Nat.eqb_spec y x) as [-> | Hne]; [by eexists |].
  apply elem_of_cons in Hin as [-> | Hin]; [done |].
  destruct (IH Hin) as [j ->]. by eexists.
Qed.

Lemma elem_of_delete_NoDup (l : list ref) i c y :
  NoDup l -> l !! i = Some c -> y ∈ delete i l <-> y ∈ l /\ y <> c.
Proof.
  intros Hnd Hi. pose proof (delete_Permutation l i c Hi) as Hp.
  rewrite Hp in Hnd. apply NoDup_cons in Hnd as [Hc _].
  rewrite (elem_of_Permutation_proper y _ _ Hp), elem_of_cons.
  split.
  - intros Hy. split; [by right |]. by intros ->.
  - by intros [[-> | ?] ?].
Qed.

Lemma NoDup_delete (l : list ref) i : NoDup l -> NoDup (delete i l).
Proof.
  intros Hnd. by eapply sublist_NoDup; [| apply sublist_delete].
Qed.


Lemma removeChildAt_spec (h : store) this i c :
  linksAgree h -> childrenOf h this !! i = Some c ->
  exists h',
    removeChildAt h this i = Ret h' /\ linksAgree h' /\
    parent h' c = None /\
    childrenOf h' this = delete i (childrenOf h this) /\
    sameOutside h h' [c] [this].
Proof.
  intros [H1 H2 H3] Hi. unfold removeChildAt. rewrite Hi.
  eexists. split; [reflexivity |].
  assert (Hin : c ∈ childrenOf h this) by (by eapply list_elem_of_lookup_2).
  assert (Hel : isElement h this = true) by (by eapply childrenOf_isElement).
  assert (Hpc : parent h c = Some this) by (by apply H1).
  assert (Hchildren : forall y,
             childrenOf (setParent (setChildren h this (delete i (childrenOf h this))) c None) y =
             if decide (this = y) then delete i (childrenOf h this) else childrenOf h y).
  { intros y. rewrite childrenOf_setParent. destruct (decide (this = y)) as [<- | ?].
    - by rewrite childrenOf_setChildren_eq.
    - by rewrite childrenOf_setChildren_ne. }
  assert (Hparent : forall y,
             parent (setParent (setChildren h this (delete i (childrenOf h this))) c None) y =
             if decide (c = y) then None else parent h y).
  { intros y. rewrite parent_setParent_None. destruct (decide (c = y)); [done |].
    apply parent_setChildren. }
  split; [| split; [| split]].
  - split.
    + intros p x. rewrite Hchildren, Hparent.
      destruct (decide (this = p)) as [<- | Hne].
      * rewrite (elem_of_delete_NoDup _ i c) by done. intros [Hx Hxc].
        destruct (decide (c = x)); [done |]. by apply H1.
      * intros Hx. destruct (decide (c = x)) as [<- | ?]; [| by apply H1].
        apply H1 in Hx. congruence.
    + intros x p. rewrite Hchildren, Hparent.
      destruct (decide (c = x)) as [<- | Hne]; [done |]. intros Hx.
      destruct (decide (this = p)) as [<- | ?]; [| by apply H2].
      apply (elem_of_delete_NoDup _ i c); [done | done |]. split; [by apply H2 | done].
    + intros p. rewrite Hchildren. destruct (decide (this = p)); [| done].
      by apply NoDup_delete.
  - rewrite Hparent. by destruct (decide (c = c)).
  - rewrite Hchildren. by destruct (decide (this = this)).
  - constructor.
    + by rewrite dom_setParent, dom_setChildren.
    + intros y. by rewrite isElement_setParent, isElement_setChildren.
    + intros y Hy. rewrite Hparent. destruct (decide (c = y)) as [<- | ?]; [| done].
      exfalso. apply Hy. by apply list_elem_of_singleton.
    + intros y Hy. rewrite Hchildren. destruct (decide (this = y)) as [<- | ?]; [| done].
      exfalso. apply Hy. by apply list_elem_of_singleton.
Qed.

Lemma removeChild_spec (h : store) this c :
  linksAgree h -> parent h c = Some this ->
  exists h' i,
    removeChild h this c = Ret h' /\ linksAgree h' /\
    parent h' c = None /\
    childrenOf h this !! i = Some c /\
    childrenOf h' this = delete i (childrenOf h this) /\
    sameOutside h h' [c] [this].
Proof.
  intros Hinv Hp. unfold removeChild, indexOfChild.
  rewrite bool_decide_eq_true_2 by done.
  destruct (indexOf_elem c (childrenOf h this)) as [i Hi];
    [by apply (parent_children h Hinv) |].
  rewrite Hi. simpl. apply indexOf_lookup in Hi.
  destruct (removeChildAt_spec h this i c Hinv Hi) as (h' & Hr & ? & ? & ? & ?).
  by exists h', i.
Qed.

(** *** Assignments to several parents *)

Lemma setParents_cons (h : store) x xs v :
  setParents h (x :: xs) v = setParents (setParent h x v) xs v.
Proof. reflexivity. Qed.

Lemma childrenOf_setParents xs : forall (h : store) v y,
  childrenOf (setParents h xs v) y = childrenOf h y.
Proof.
  induction xs as [| x xs IH]; intros h v y; [done |].
  by rewrite setParents_cons, IH, childrenOf_setParent.
Qed.

Lemma isElement_setParents xs : forall (h : store) v y,
  isElement (setParents h xs v) y = isElement h y.
Proof.
  induction xs as [| x xs IH]; intros h v y; [done |].
  by rewrite setParents_cons, IH, isElement_setParent.
Qed.

Lemma dom_setParents xs : forall (h : store) v,
  dom (setParents h xs v) = dom h.
Proof.
  induction xs as [| x xs IH]; intros h v; [done |].
  by rewrite setParents_cons, IH, dom_setParent.
Qed.

Lemma is_Some_dom (h : store) x : is_Some (h !! x) <-> x ∈ dom h.
Proof. symmetry. apply elem_of_dom. Qed.

Lemma parent_setParents xs : forall (h : store) v y,
  (forall x, x ∈ xs -> is_Some (h !! x)) ->
  parent (setParents h xs v) y = if decide (y ∈ xs) then v else parent h y.
Proof.
  induction xs as [| x xs IH]; intros h v y Hdom.
  - simpl. destruct (decide (y ∈ [])) as [Hin | ?]; [| done].
    by apply elem_of_nil in Hin.
  - rewrite setParents_cons, IH.
    2:{ intros z Hz. apply is_Some_dom. rewrite dom_setParent.
        apply is_Some_dom, Hdom. by right. }
    destruct (decide (y ∈ xs)) as [Hin | Hnin].
    + rewrite decide_True; [done | by right].
    + destruct (decide (x = y)) as [<- | Hne].
      * rewrite decide_True by (by left).
        apply parent_setParent_eq, Hdom. by left.
      * rewrite decide_False.
        -- by apply parent_setParent_ne.
        -- intros [-> | ?]%elem_of_cons; done.
Qed.

(** *** The invariant while nodes are being adopted *)

Lemma linksAgree_nothing_pending (h : store) this : linksAgree h <-> linksAgreeBut h this [].
Proof.
  split.
  - intros [H1 H2 H3]. split; try done.
    + intros c p Hp _. by apply H2.
    + by intros c ?%elem_of_nil.
  - intros [H1 H2 H3 _]. split; try done.
    intros c p Hp. apply H2; [done |]. by intros ?%elem_of_nil.
Qed.

(** One turn of the loop of [appendChildren]: the node leaves the array of
    its parent and gets [this] as its parent. *)
Lemma adopt_one (h : store) this pending x :
  linksAgreeBut h this pending -> x ∉ pending -> is_Some (h !! x) ->
  exists h',
    detach h x = Ret h' /\
    linksAgreeBut (setParent h' x (Some this)) this (x :: pending) /\
    dom h' = dom h /\
    (forall y, isElement h' y = isElement h y) /\
    (parent h x <> Some this -> childrenOf h' this = childrenOf h this).
Proof.
  intros [H1 H2 H3 H4] Hx Hdom. unfold detach.
  destruct (parent h x) as [p |] eqn:Hp.
  - (* the node is taken out of the array of its parent *)
    assert (Hin : x ∈ childrenOf h p) by (by apply H2).
    unfold removeChild, indexOfChild.
    rewrite bool_decide_eq_true_2 by done.
    destruct (indexOf_elem x (childrenOf h p) Hin) as [i Hi].
    rewrite Hi. simpl. apply indexOf_lookup in Hi.
    unfold removeChildAt. rewrite Hi.
    set (cs := childrenOf h p) in *.
    assert (Hnd : NoDup cs) by apply H3.
    assert (Hel : isElement h p = true) by (by eapply childrenOf_isElement).
    eexists. split; [reflexivity |].
    assert (Hchildren : forall y,
               childrenOf (setParent (setParent (setChildren h p (delete i cs)) x None)
                             x (Some this)) y =
               if decide (p = y) then delete i cs else childrenOf h y).
    { intros y. rewrite !childrenOf_setParent.
      destruct (decide (p = y)) as [<- | ?].
      - by rewrite childrenOf_setChildren_eq.
      - by rewrite childrenOf_setChildren_ne. }
    assert (Hparent : forall y,
               parent (setParent (setParent (setChildren h p (delete i cs)) x None)
                         x (Some this)) y =
               if decide (x = y) then Some this else parent h y).
    { intros y. destruct (decide (x = y)) as [<- | Hne].
      - apply parent_setParent_eq. apply is_Some_dom.
        rewrite dom_setParent, dom_setChildren. by apply is_Some_dom.
      - rewrite !parent_setParent_ne by done. apply parent_setChildren. }
    split; [| split; [| split]].
    + split.
      * intros q c. rewrite Hchildren, Hparent.
        destruct (decide (p = q)) as [<- | Hne].
        -- rewrite (elem_of_delete_NoDup _ i x) by done. intros [Hc Hcx].
           rewrite decide_False by done. by apply H1.
        -- intros Hc. destruct (decide (x = c)) as [<- | ?]; [| by apply H1].
           apply H1 in Hc. congruence.
      * intros c q. rewrite Hchildren, Hparent.
        intros Hc Hnin. rewrite not_elem_of_cons in Hnin. destruct Hnin as [Hcx Hnin].
        rewrite decide_False in Hc by done.
        destruct (decide (p = q)) as [<- | ?]; [| by apply H2].
        apply (elem_of_delete_NoDup _ i x); [done | done |]. split; [| done].
        by apply H2.
      * intros q. rewrite Hchildren. destruct (decide (p = q)); [| done].
        by apply NoDup_delete.
      * intros c. rewrite Hchildren, Hparent. intros [-> | Hc]%elem_of_cons.
        -- rewrite decide_True by done. split; [done |].
           destruct (decide (p = this)) as [-> | Hne].
           ++ rewrite (elem_of_delete_NoDup _ i x) by done. by intros [_ ?].
           ++ intros Hc. apply H1 in Hc. congruence.
        -- destruct (H4 c Hc) as [Hpc Hnc].
           rewrite decide_False by (by intros <-). split; [done |].
           destruct (decide (p = this)) as [-> | Hne]; [| done].
           intros Hd. apply Hnc. by eapply list_elem_of_delete_inv.
    + by rewrite dom_setParent, dom_setChildren.
    + intros y. by rewrite isElement_setParent, isElement_setChildren.
    + intros Hne. rewrite childrenOf_setParent.
      apply childrenOf_setChildren_ne. by intros ->.
  - (* the node has no parent *)
    eexists. split; [reflexivity |].
    assert (Hparent : forall y,
               parent (setParent h x (Some this)) y =
               if decide (x = y) then Some this else parent h y).
    { intros y. destruct (decide (x = y)) as [<- | Hne].
      - by apply parent_setParent_eq.
      - by apply parent_setParent_ne. }
    split; [| split; [| split]]; try done.
    split.
    + intros q c. rewrite childrenOf_setParent, Hparent. intros Hc.
      destruct (decide (x = c)) as [<- | ?]; [| by apply H1].
      apply H1 in Hc. congruence.
    + intros c q. rewrite childrenOf_setParent, Hparent.
      intros Hc Hnin. rewrite not_elem_of_cons in Hnin. destruct Hnin as [Hcx Hnin].
      rewrite decide_False in Hc by done. by apply H2.
    + intros q. by rewrite childrenOf_setParent.
    + intros c. rewrite childrenOf_setParent, Hparent.
      intros [-> | Hc]%elem_of_cons.
      * rewrite decide_True by done. split; [done |].
        intros Hc. apply H1 in Hc. congruence.
      * destruct (H4 c Hc) as [Hpc Hnc].
        by rewrite decide_False by (by intros <-).
Qed.

(** The end of [appendChild] and the like: the pending nodes are put in the
    array. *)
Lemma attach_pending (h : store) this pending els pre post :
  linksAgreeBut h this pending ->
  isElement h this = true ->
  childrenOf h this = pre ++ post ->
  els ≡ₚ pending -> NoDup els ->
  linksAgree (setChildren h this (pre ++ els ++ post)).
Proof.
  intros [H1 H2 H3 H4] Hel Hcs Hperm Hnd.
  assert (Hchildren : forall y,
             childrenOf (setChildren h this (pre ++ els ++ post)) y =
             if decide (this = y) then pre ++ els ++ post else childrenOf h y).
  { intros y. destruct (decide (this = y)) as [<- | ?].
    - by rewrite childrenOf_setChildren_eq.
    - by rewrite childrenOf_setChildren_ne. }
  assert (Hold : forall c, c ∈ pre ++ post -> c ∉ els).
  { intros c Hc Hin. rewrite Hperm in Hin. destruct (H4 c Hin) as [_ Hn].
    apply Hn. by rewrite Hcs. }
  assert (Hmem : forall c, c ∈ pre ++ els ++ post <-> c ∈ els \/ c ∈ pre ++ post).
  { intros c. rewrite !elem_of_app. tauto. }
  split.
  - intros p c. rewrite Hchildren, parent_setChildren.
    destruct (decide (this = p)) as [<- | ?]; [| by apply H1].
    rewrite Hmem. intros [Hc | Hc].
    + rewrite Hperm in Hc. by destruct (H4 c Hc).
    + apply H1. by rewrite Hcs.
  - intros c p. rewrite Hchildren, parent_setChildren. intros Hp.
    destruct (decide (c ∈ els)) as [Hin | Hnin].
    + pose proof Hin as Hin'. rewrite Hperm in Hin'.
      destruct (H4 c Hin') as [Hpc _].
      assert (p = this) as -> by congruence.
      rewrite decide_True by done. apply Hmem. by left.
    + assert (Hc : c ∈ childrenOf h p).
      { apply H2; [done |]. by rewrite <- Hperm. }
      destruct (decide (this = p)) as [<- | ?]; [| done].
      apply Hmem. right. by rewrite <- Hcs.
  - intros p. rewrite Hchildren. destruct (decide (this = p)); [| done].
    assert (Hp : pre ++ els ++ post ≡ₚ els ++ pre ++ post).
    { by rewrite !(assoc app), (comm app pre els). }
    rewrite Hp. apply NoDup_app. split; [done |]. split.
    + intros c Hc Hc'. by apply (Hold c).
    + rewrite <- Hcs. apply H3.
Qed.

(** *** The operations that keep the invariant *)

Lemma appendChild_keeps (h : store) this child :
  linksAgree h -> isElement h this = true -> is_Some (h !! child) ->
  exists h', appendChild h this child = Ret h' /\ linksAgree h'.
Proof.
  intros Hinv Hel Hdom. apply (linksAgree_nothing_pending h this) in Hinv.
  destruct (adopt_one h this [] child Hinv) as (h1 & Hd & Hp & _ & Hiel & _);
    [by intros ?%elem_of_nil | done |].
  unfold appendChild. rewrite Hd. simpl. eexists. split; [reflexivity |].
  apply (attach_pending (setParent h1 child (Some this)) this [child] [child]
           (childrenOf (setParent h1 child (Some this)) this) [] Hp).
  - by rewrite isElement_setParent, Hiel.
  - by rewrite app_nil_r.
  - done.
  - apply NoDup_singleton.
Qed.

Lemma prependChild_keeps (h : store) this child :
  linksAgree h -> isElement h this = true -> is_Some (h !! child) ->
  exists h', prependChild h this child = Ret h' /\ linksAgree h'.
Proof.
  intros Hinv Hel Hdom. apply (linksAgree_nothing_pending h this) in Hinv.
  destruct (adopt_one h this [] child Hinv) as (h1 & Hd & Hp & _ & Hiel & _);
    [by intros ?%elem_of_nil | done |].
  unfold prependChild. rewrite Hd. simpl. eexists. split; [reflexivity |].
  apply (attach_pending (setParent h1 child (Some this)) this [child] [child]
           [] (childrenOf (setParent h1 child (Some this)) this) Hp).
  - by rewrite isElement_setParent, Hiel.
  - done.
  - done.
  - apply NoDup_singleton.
Qed.

Lemma adopt_all els : forall (h : store) this pending,
  linksAgreeBut h this pending ->
  NoDup (els ++ pending) ->
  (forall x, x ∈ els -> is_Some (h !! x)) ->
  exists h',
    adopt h this els = Ret h' /\
    linksAgreeBut h' this (rev els ++ pending) /\
    dom h' = dom h /\
    (forall y, isElement h' y = isElement h y).
Proof.
  induction els as [| x els IH]; intros h this pending Hp Hnd Hdom.
  - exists h. split; [done | split; [done | split; done]].
  - simpl in Hnd. apply NoDup_cons in Hnd as [Hx Hnd].
    destruct (adopt_one h this pending x Hp) as (h1 & Hd & Hp1 & Hdom1 & Hiel1 & _).
    { intros Hin. apply Hx. apply elem_of_app. by right. }
    { apply Hdom. by left. }
    simpl. rewrite Hd. simpl.
    destruct (IH (setParent h1 x (Some this)) this (x :: pending) Hp1)
      as (h' & Ha & Hp' & Hdom' & Hiel').
    { apply NoDup_app. apply NoDup_app in Hnd as (Hn1 & Hn2 & Hn3).
      split; [done |]. split.
      - intros y Hy [-> | Hy']%elem_of_cons.
        + apply Hx. apply elem_of_app. by left.
        + by apply (Hn2 y).
      - apply NoDup_cons. split; [| done].
        intros Hin. apply Hx. apply elem_of_app. by right. }
    { intros y Hy. apply is_Some_dom. rewrite dom_setParent, Hdom1.
      apply is_Some_dom, Hdom. by right. }
    exists h'. split; [done |]. split.
    + by rewrite <- (assoc app).
    + split.
      * by rewrite Hdom', dom_setParent.
      * intros y. by rewrite Hiel', isElement_setParent.
Qed.

Lemma appendChildren_keeps (h : store) this els :
  linksAgree h -> isElement h this = true -> NoDup els ->
  (forall x, x ∈ els -> is_Some (h !! x)) ->
  exists h', appendChildren h this els = Ret h' /\ linksAgree h'.
Proof.
  intros Hinv Hel Hnd Hdom. apply (linksAgree_nothing_pending h this) in Hinv.
  destruct (adopt_all els h this [] Hinv) as (h1 & Ha & Hp & _ & Hiel);
    [by rewrite app_nil_r | done |].
  unfold appendChildren. rewrite Ha. simpl. eexists. split; [reflexivity |].
  rewrite app_nil_r in Hp.
  pose proof (attach_pending h1 this (rev els) els (childrenOf h1 this) [] Hp)
    as Hatt.
  rewrite !app_nil_r in Hatt. apply Hatt; [by rewrite Hiel | done | | done].
  apply Permutation_rev.
Qed.




Lemma childrenOf_not_element (h : store) x :
  isElement h x = false -> childrenOf h x = [].
Proof. unfold isElement, childrenOf. by destruct (h !! x) as [[? | ?] |]. Qed.

Lemma setChildren_not_element (h : store) x cs :
  isElement h x = false -> setChildren h x cs = h.
Proof. unfold isElement, setChildren. by destruct (h !! x) as [[? | ?] |]. Qed.

Lemma children_in_store (h : store) p c :
  linksAgree h -> c ∈ childrenOf h p -> is_Some (h !! c).
Proof.
  intros Hinv Hc. eapply parent_is_Some. by apply (children_parent h Hinv).
Qed.

Lemma empty_keeps (h : store) this : linksAgree h -> linksAgree (empty h this).
Proof.
  intros Hinv. pose proof Hinv as [H1 H2 H3]. unfold empty.
  set (cs := childrenOf h this).
  assert (Hdom : forall x, x ∈ cs -> is_Some (setChildren h this [] !! x)).
  { intros x Hx. apply is_Some_dom. rewrite dom_setChildren.
    apply is_Some_dom. by eapply children_in_store. }
  assert (Hchildren : forall y,
             childrenOf (setParents (setChildren h this []) cs None) y =
             if decide (this = y) then [] else childrenOf h y).
  { intros y. rewrite childrenOf_setParents.
    destruct (decide (this = y)) as [<- | ?].
    - destruct (isElement h this) eqn:Hel.
      + by rewrite childrenOf_setChildren_eq.
      + rewrite setChildren_not_element by done.
        by apply childrenOf_not_element.
    - by rewrite childrenOf_setChildren_ne. }
  assert (Hparent : forall y,
             parent (setParents (setChildren h this []) cs None) y =
             if decide (y ∈ cs) then None else parent h y).
  { intros y. rewrite parent_setParents by done.
    destruct (decide (y ∈ cs)); [done |]. apply parent_setChildren. }
  split.
  - intros p c. rewrite Hchildren, Hparent.
    destruct (decide (this = p)) as [<- | Hne]; [by intros ?%elem_of_nil |].
    intros Hc. rewrite decide_False; [by apply H1 |].
    intros Hc'. apply H1 in Hc, Hc'. congruence.
  - intros c p. rewrite Hchildren, Hparent.
    destruct (decide (c ∈ cs)) as [? | Hnin]; [done |]. intros Hp.
    destruct (decide (this = p)) as [<- | ?]; [| by apply H2].
    exfalso. apply Hnin. by apply H2.
  - intros p. rewrite Hchildren. destruct (decide (this = p)); [| done].
    apply NoDup_nil_2.
Qed.

Lemma grabChildren_keeps (h : store) this src :
  linksAgree h -> isElement h this = true -> linksAgree (grabChildren h this src).
Proof.
  intros Hinv Hel. pose proof Hinv as [H1 H2 H3]. unfold grabChildren.
  set (cs := childrenOf h src).
  set (h1 := setChildren h src []).
  set (old := childrenOf h1 this).
  assert (Hel1 : isElement h1 this = true)
    by (unfold h1; by rewrite isElement_setChildren).
  assert (Hdom : forall x, x ∈ cs ->
                           is_Some (setChildren h1 this (old ++ cs) !! x)).
  { intros x Hx. apply is_Some_dom. unfold h1. rewrite !dom_setChildren.
    apply is_Some_dom. by eapply children_in_store. }
  assert (Hold : old = if decide (src = this) then [] else childrenOf h this).
  { unfold old, h1. destruct (decide (src = this)) as [-> | ?].
    - by rewrite childrenOf_setChildren_eq.
    - by rewrite childrenOf_setChildren_ne. }
  assert (Hcs : src <> this -> forall c, c ∈ cs -> c ∉ childrenOf h this).
  { intros Hne c Hc Hc'. apply H1 in Hc, Hc'. congruence. }
  assert (Hchildren : forall y,
             childrenOf (setParents (setChildren h1 this (old ++ cs)) cs (Some this)) y =
             if decide (this = y) then old ++ cs
             else if decide (src = y) then [] else childrenOf h y).
  { intros y. rewrite childrenOf_setParents.
    destruct (decide (this = y)) as [<- | ?].
    - by rewrite childrenOf_setChildren_eq.
    - rewrite childrenOf_setChildren_ne by done. unfold h1.
      destruct (decide (src = y)) as [<- | ?].
      + destruct (isElement h src) eqn:Hsrc.
        * by rewrite childrenOf_setChildren_eq.
        * rewrite setChildren_not_element by done.
          by apply childrenOf_not_element.
      + by rewrite childrenOf_setChildren_ne. }
  assert (Hparent : forall y,
             parent (setParents (setChildren h1 this (old ++ cs)) cs (Some this)) y =
             if decide (y ∈ cs) then Some this else parent h y).
  { intros y. rewrite parent_setParents by done.
    destruct (decide (y ∈ cs)); [done |].
    unfold h1. by rewrite !parent_setChildren. }
  split.
  - intros p c. rewrite Hchildren, Hparent.
    destruct (decide (this = p)) as [<- | Hne].
    + rewrite elem_of_app. intros [Hc | Hc]; [| by rewrite decide_True].
      destruct (decide (c ∈ cs)); [done |]. apply H1.
      rewrite Hold in Hc. destruct (decide (src = this)); [| done].
      by apply elem_of_nil in Hc.
    + destruct (decide (src = p)) as [<- | ?]; [by intros ?%elem_of_nil |].
      intros Hc. rewrite decide_False; [by apply H1 |].
      intros Hc'. apply H1 in Hc, Hc'. congruence.
  - intros c p. rewrite Hchildren, Hparent.
    destruct (decide (c ∈ cs)) as [Hc | Hnc].
    + intros [= <-]. rewrite decide_True by done. apply elem_of_app. by right.
    + intros Hp. pose proof (H2 c p Hp) as Hc.
      destruct (decide (this = p)) as [<- | ?].
      * apply elem_of_app. left. rewrite Hold.
        destruct (decide (src = this)) as [-> | ?]; done.
      * destruct (decide (src = p)) as [<- | ?]; done.
  - intros p. rewrite Hchildren.
    destruct (decide (this = p)) as [<- | ?].
    + rewrite Hold. destruct (decide (src = this)) as [-> | Hne].
      * simpl. apply H3.
      * apply NoDup_app. split; [apply H3 |]. split; [| apply H3].
        intros c Hc Hc'. by apply (Hcs Hne c).
    + destruct (decide (src = p)); [apply NoDup_nil_2 | apply H3].
Qed.

Lemma detach_spec (h : store) x :
  linksAgree h ->
  exists h',
    detach h x = Ret h' /\ linksAgree h' /\ parent h' x = None /\
    dom h' = dom h /\
    (forall y, isElement h' y = isElement h y) /\
    (forall y, y <> x -> parent h' y = parent h y) /\
    (forall y, parent h x <> Some y -> childrenOf h' y = childrenOf h y).
Proof.
  intros Hinv. unfold detach. destruct (parent h x) as [p |] eqn:Hp.
  - destruct (removeChild_spec h p x Hinv Hp)
      as (h' & i & Hr & Hinv' & Hpx & _ & _ & [Hd He Hpar Hch]).
    exists h'. do 5 (split; [done |]). split.
    + intros y Hy. apply Hpar. by intros ->%list_elem_of_singleton.
    + intros y Hy. apply Hch. intros ->%list_elem_of_singleton. done.
  - exists h. by do 5 (split; [done |]).
Qed.

Lemma insert_Permutation_delete (l : list ref) i x :
  i < length l -> <[i := x]> l ≡ₚ x :: delete i l.
Proof.
  intros Hi. rewrite insert_take_drop by done. rewrite delete_take_drop.
  by rewrite Permutation_middle.
Qed.

Lemma replaceChildAt_keeps (h : store) this i child replacement :
  linksAgree h ->
  childrenOf h this !! i = Some child ->
  is_Some (h !! replacement) ->
  parent h replacement <> Some this ->
  exists h',
    replaceChildAt h this i replacement = Ret h' /\ linksAgree h' /\
    childrenOf h' this = <[i := replacement]> (childrenOf h this) /\
    parent h' replacement = Some this /\
    parent h' child = None.
Proof.
  intros Hinv Hi Hdom Hnot.
  destruct (detach_spec h replacement Hinv)
    as (h1 & Hd & [H1 H2 H3] & Hpr & Hdom1 & Hiel & Hpar & Hch).
  unfold replaceChildAt. rewrite Hi, Hd. simpl.
  eexists. split; [reflexivity |].
  assert (Hcs : childrenOf h1 this = childrenOf h this) by (by apply Hch).
  rewrite Hcs. set (cs := childrenOf h this) in *.
  assert (Hlen : i < length cs) by (by eapply lookup_lt_Some).
  unfold arraySet. destruct (Nat.ltb_spec i (length cs)) as [_ | ?]; [| lia].
  assert (Hin : child ∈ cs) by (by eapply list_elem_of_lookup_2).
  assert (Hel : isElement h1 this = true).
  { rewrite Hiel. by eapply childrenOf_isElement. }
  assert (Hcr : child <> replacement).
  { intros ->. apply Hnot. by apply (children_parent h Hinv). }
  assert (Hpc : parent h1 child = Some this).
  { rewrite Hpar by done. by apply (children_parent h Hinv). }
  assert (Hnd : NoDup cs) by apply (children_NoDup h Hinv).
  assert (Hrn : replacement ∉ cs).
  { intros Hr. rewrite <- Hcs in Hr. apply H1 in Hr. congruence. }
  assert (Hmem : forall y, y ∈ <[i := replacement]> cs <->
                           y = replacement \/ (y ∈ cs /\ y <> child)).
  { intros y. rewrite (elem_of_Permutation_proper y _ _
                         (insert_Permutation_delete cs i replacement Hlen)).
    rewrite elem_of_cons. by rewrite (elem_of_delete_NoDup cs i child). }
  set (h2 := setChildren h1 this (<[i := replacement]> cs)).
  assert (Hchildren : forall y,
             childrenOf (setParent (setParent h2 child None) replacement (Some this)) y =
             if decide (this = y) then <[i := replacement]> cs else childrenOf h1 y).
  { intros y. rewrite !childrenOf_setParent. unfold h2.
    destruct (decide (this = y)) as [<- | ?].
    - by rewrite childrenOf_setChildren_eq.
    - by rewrite childrenOf_setChildren_ne. }
  assert (Hparent : forall y,
             parent (setParent (setParent h2 child None) replacement (Some this)) y =
             if decide (replacement = y) then Some this
             else if decide (child = y) then None else parent h1 y).
  { intros y. destruct (decide (replacement = y)) as [<- | Hne].
    - apply parent_setParent_eq. apply is_Some_dom.
      unfold h2. rewrite dom_setParent, dom_setChildren, Hdom1.
      by apply is_Some_dom.
    - rewrite parent_setParent_ne by done. rewrite parent_setParent_None.
      destruct (decide (child = y)); [done |]. apply parent_setChildren. }
  split; [| split; [| split]].
  2:{ rewrite Hchildren. by rewrite decide_True. }
  2:{ rewrite Hparent. by rewrite decide_True. }
  2:{ rewrite Hparent. rewrite decide_False by done. by rewrite decide_True. }
  split.
  - intros p c. rewrite Hchildren, Hparent.
    destruct (decide (this = p)) as [<- | Hne].
    + rewrite Hmem. intros [-> | [Hc Hcc]]; [by rewrite decide_True |].
      rewrite decide_False by (by intros <-).
      rewrite decide_False by done. apply H1. by rewrite Hcs.
    + intros Hc. pose proof (H1 p c Hc) as Hp.
      rewrite decide_False by (intros <-; congruence).
      rewrite decide_False by (intros <-; congruence). done.
  - intros c p. rewrite Hchildren, Hparent.
    destruct (decide (replacement = c)) as [<- | Hne].
    + intros [= <-]. rewrite decide_True by done. apply Hmem. by left.
    + destruct (decide (child = c)) as [<- | Hnc]; [done |]. intros Hp.
      pose proof (H2 c p Hp) as Hc.
      destruct (decide (this = p)) as [<- | ?]; [| done].
      apply Hmem. right. split; [by rewrite <- Hcs | done].
  - intros p. rewrite Hchildren. destruct (decide (this = p)); [| apply H3].
    rewrite (insert_Permutation_delete cs i replacement Hlen).
    apply NoDup_cons. split; [| by apply NoDup_delete].
    intros Hr. apply Hrn. by eapply list_elem_of_delete_inv.
Qed.

Lemma replaceChildWith_keeps (h : store) this child replacement :
  linksAgree h ->
  parent h child = Some this ->
  is_Some (h !! replacement) ->
  parent h replacement <> Some this ->
  exists h' i,
    replaceChildWith h this child replacement = Ret h' /\ linksAgree h' /\
    childrenOf h this !! i = Some child /\
    childrenOf h' this = <[i := replacement]> (childrenOf h this) /\
    parent h' replacement = Some this /\
    parent h' child = None.
Proof.
  intros Hinv Hp Hdom Hnot. unfold replaceChildWith, indexOfChild.
  rewrite bool_decide_eq_true_2 by done.
  destruct (indexOf_elem child (childrenOf h this)) as [i Hi];
    [by apply (parent_children h Hinv) |].
  rewrite Hi. simpl. apply indexOf_lookup in Hi.
  destruct (replaceChildAt_keeps h this i child replacement)
    as (h' & ? & ? & ? & ? & ?); try done.
  by exists h', i.
Qed.




(** C7, at [define.replaceChildWith(text, ref)] on
    [<define><ref/><text/></define>], a tree that has the invariant and a
    call whose two arguments are different nodes: the call returns, and
    afterwards the invariant is lost. The replacement is taken out of the
    array first, which moves [child] from index 1 to index 0, and the
    assignment to index 1 then puts the replacement after it: the array is
    [text, ref], with [text] still in it although its parent is
    undefined. *)
Theorem replaceChildWith_loses_invariant :
  parentChildInvariant defineOfTwo /\
  replaceChildWith defineOfTwo 0 2 1 = Ret afterReplaceChildWith /\
  childrenOf afterReplaceChildWith 0 = [2; 1] /\
  parent afterReplaceChildWith 2 = None /\
  parent afterReplaceChildWith 1 = Some 0 /\
  ~ parentChildInvariant afterReplaceChildWith.
Proof.
  split; [apply (bool_decide_unpack _); vm_compute; reflexivity |].
  split; [vm_compute; reflexivity |].
  split; [reflexivity |]. split; [reflexivity |]. split; [reflexivity |].
  apply (bool_decide_eq_false_1 _). vm_compute. reflexivity.
Qed.


(** Replacing a child by itself is not a no-op either: the child is taken
    out first, and the assignment at its old index then overwrites the
    child that followed it, here the text element, which stays without a
    place in the array and with [define] as its parent. *)
Lemma replaceChildAt_itself_loses_invariant :
  exists h,
    replaceChildAt defineOfTwo 0 0 1 = Ret h /\
    childrenOf h 0 = [1] /\
    parent h 2 = Some 0 /\
    ~ parentChildInvariant h.
Proof.
  exists (<[0 := el None "define" [1]]> defineOfTwo).
  split; [vm_compute; reflexivity |].
  split; [reflexivity |]. split; [reflexivity |].
  apply (bool_decide_eq_false_1 _). vm_compute. reflexivity.
Qed.

(** [replaceContent] does not take a new child out of the element it is
    in: after [replaceContent([text])] on the second define, the text
    element is in the arrays of both. *)
Lemma replaceContent_loses_invariant :
  parentChildInvariant grammarOfTwo /\
  childrenOf (replaceContent grammarOfTwo 2 [3]) 1 = [3] /\
  childrenOf (replaceContent grammarOfTwo 2 [3]) 2 = [3] /\
  ~ parentChildInvariant (replaceContent grammarOfTwo 2 [3]).
Proof.
  split; [apply (bool_decide_unpack _); vm_compute; reflexivity |].
  split; [reflexivity |]. split; [reflexivity |].
  apply (bool_decide_eq_false_1 _). vm_compute. reflexivity.
Qed.


(** *** What the methods do *)

Lemma without_notin x l : x ∉ l -> without x l = l.
Proof.
  induction l as [| y l IH]; [done |]. intros Hx. simpl.
  apply not_elem_of_cons in Hx as [Hne Hx].
  destruct (Nat.eqb_spec y x); [congruence |]. simpl. by rewrite IH.
Qed.

Lemma without_delete x l i :
  NoDup l -> l !! i = Some x -> without x l = delete i l.
Proof.
  revert i. induction l as [| y l IH]; intros i Hnd Hi; [done |].
  apply NoDup_cons in Hnd as [Hy Hnd]. destruct i as [| i]; simpl in *.
  - injection Hi as ->. rewrite Nat.eqb_refl. simpl. by apply without_notin.
  - destruct (Nat.eqb_spec y x) as [-> | _].
    + exfalso. apply Hy. by eapply list_elem_of_lookup_2.
    + simpl. f_equal. by apply IH.
Qed.

(** What [detach] does to the arrays: the node is gone from every one. *)
Lemma detach_children (h h' : store) x :
  linksAgree h -> detach h x = Ret h' ->
  forall y, childrenOf h' y = without x (childrenOf h y).
Proof.
  intros Hinv. unfold detach. destruct (parent h x) as [p |] eqn:Hp.
  - destruct (removeChild_spec h p x Hinv Hp)
      as (h1 & i & -> & _ & _ & Hi & Hdel & [_ _ _ Hch]).
    intros [= <-] y. destruct (decide (y = p)) as [-> | Hne].
    + rewrite Hdel. symmetry. apply without_delete; [apply Hinv | done].
    + rewrite Hch by (by intros ->%list_elem_of_singleton).
      symmetry. apply without_notin. intros Hin.
      apply (children_parent h Hinv) in Hin. congruence.
  - intros [= <-] y. symmetry. apply without_notin. intros Hin.
    apply (children_parent h Hinv) in Hin. congruence.
Qed.

Lemma localOf_setParent (h : store) x v y :
  localOf (setParent h x v) y = localOf h y.
Proof.
  unfold localOf, setParent. destruct (h !! x) as [[e | t] |] eqn:Hx; try done;
    (destruct (decide (x = y)) as [<- | Hne];
     [rewrite lookup_insert_eq, Hx | rewrite lookup_insert_ne by done]; done).
Qed.

Lemma localOf_setChildren (h : store) x cs y :
  localOf (setChildren h x cs) y = localOf h y.
Proof.
  unfold localOf, setChildren. destruct (h !! x) as [[e | t] |] eqn:Hx; try done.
  destruct (decide (x = y)) as [<- | Hne];
    [rewrite lookup_insert_eq, Hx | rewrite lookup_insert_ne by done]; done.
Qed.

Lemma localOf_setParents xs : forall (h : store) v y,
  localOf (setParents h xs v) y = localOf h y.
Proof.
  induction xs as [| x xs IH]; intros h v y; [done |].
  rewrite setParents_cons, IH. apply localOf_setParent.
Qed.

Lemma localOf_detach (h h' : store) x y :
  detach h x = Ret h' -> localOf h' y = localOf h y.
Proof.
  unfold detach, removeChild, removeChildAt.
  destruct (parent h x) as [p |]; [| by intros [= <-]].
  destruct (indexOfChild h p x) as [i | |]; simpl; try done.
  destruct (childrenOf h p !! i); [| done]. intros [= <-].
  by rewrite localOf_setParent, localOf_setChildren.
Qed.

Lemma adoptOne_views (h h1 : store) this child :
  linksAgree h -> isElement h this = true -> is_Some (h !! child) ->
  detach h child = Ret h1 ->
  (forall cs y,
      parent (setChildren (setParent h1 child (Some this)) this cs) y =
      if decide (y = child) then Some this else parent h y) /\
  (forall cs y,
      childrenOf (setChildren (setParent h1 child (Some this)) this cs) y =
      if decide (y = this) then cs else without child (childrenOf h y)) /\
  childrenOf (setParent h1 child (Some this)) this = without child (childrenOf h this) /\
  (forall cs, dom (setChildren (setParent h1 child (Some this)) this cs) = dom h) /\
  (forall cs y, isElement (setChildren (setParent h1 child (Some this)) this cs) y
                = isElement h y) /\
  (forall cs y, localOf (setChildren (setParent h1 child (Some this)) this cs) y
                = localOf h y).
Proof.
  intros Hinv Hel Hdom Hd.
  destruct (detach_spec h child Hinv) as (h1' & Hd' & _ & _ & Hdom1 & Hel1 & Hpar1 & _).
  rewrite Hd in Hd'. injection Hd' as <-.
  pose proof (detach_children h h1 child Hinv Hd) as Hch1.
  assert (Hin1 : is_Some (h1 !! child)) by (by rewrite is_Some_dom, Hdom1, <- is_Some_dom).
  split; [| split; [| split; [| split; [| split]]]].
  - intros cs y. rewrite parent_setChildren. destruct (decide (y = child)) as [-> | Hne].
    + by apply parent_setParent_eq.
    + rewrite parent_setParent_ne by done. by apply Hpar1.
  - intros cs y. destruct (decide (y = this)) as [-> | Hne].
    + apply childrenOf_setChildren_eq. by rewrite isElement_setParent, Hel1.
    + rewrite childrenOf_setChildren_ne by done.
      by rewrite childrenOf_setParent, Hch1.
  - by rewrite childrenOf_setParent, Hch1.
  - intros cs. by rewrite dom_setChildren, dom_setParent.
  - intros cs y. by rewrite isElement_setChildren, isElement_setParent.
  - intros cs y. rewrite localOf_setChildren, localOf_setParent.
    by eapply localOf_detach.
Qed.

(** [appendChild]: what the store is like afterwards. *)
Lemma appendChild_spec (h : store) (this child : ref) :
  linksAgree h -> isElement h this = true -> is_Some (h !! child) ->
  exists h',
    appendChild h this child = Ret h' /\ linksAgree h' /\
    (forall y, parent h' y = if decide (y = child) then Some this else parent h y) /\
    (forall y, childrenOf h' y =
               if decide (y = this) then without child (childrenOf h y) ++ [child]
               else without child (childrenOf h y)) /\
    dom h' = dom h /\
    (forall y, isElement h' y = isElement h y) /\
    (forall y, localOf h' y = localOf h y).
Proof.
  intros Hinv Hel Hdom.
  destruct (appendChild_keeps h this child Hinv Hel Hdom) as (h' & Happ & Hinv').
  exists h'. split; [done |]. split; [done |].
  unfold appendChild in Happ.
  destruct (detach h child) as [h1 | |] eqn:Hd; simpl in Happ; try done.
  injection Happ as <-.
  destruct (adoptOne_views h h1 this child Hinv Hel Hdom Hd)
    as (Hpar & Hch & Hthis & Hdom1 & Hel1 & Hloc1).
  split; [apply Hpar |]. split.
  { intros y. rewrite Hch. destruct (decide (y = this)) as [-> |]; [| done].
    by rewrite Hthis. }
  split; [apply Hdom1 |]. split; [apply Hel1 | apply Hloc1].
Qed.

(** [prependChild]: what the store is like afterwards. *)
Lemma prependChild_spec (h : store) (this child : ref) :
  linksAgree h -> isElement h this = true -> is_Some (h !! child) ->
  exists h',
    prependChild h this child = Ret h' /\ linksAgree h' /\
    (forall y, parent h' y = if decide (y = child) then Some this else parent h y) /\
    (forall y, childrenOf h' y =
               if decide (y = this) then child :: without child (childrenOf h y)
               else without child (childrenOf h y)) /\
    dom h' = dom h /\
    (forall y, isElement h' y = isElement h y) /\
    (forall y, localOf h' y = localOf h y).
Proof.
  intros Hinv Hel Hdom.
  destruct (prependChild_keeps h this child Hinv Hel Hdom) as (h' & Happ & Hinv').
  exists h'. split; [done |]. split; [done |].
  unfold prependChild in Happ.
  destruct (detach h child) as [h1 | |] eqn:Hd; simpl in Happ; try done.
  injection Happ as <-.
  destruct (adoptOne_views h h1 this child Hinv Hel Hdom Hd)
    as (Hpar & Hch & Hthis & Hdom1 & Hel1 & Hloc1).
  split; [apply Hpar |]. split.
  { intros y. rewrite Hch. destruct (decide (y = this)) as [-> |]; [| done].
    by rewrite Hthis. }
  split; [apply Hdom1 |]. split; [apply Hel1 | apply Hloc1].
Qed.

(** [appendChild] and [prependChild] move the child: it is taken out of
    the array it was in, it becomes the last (the first) child of [this],
    its parent is [this], and nothing else changes; the links agree
    afterwards. *)
Theorem appendChild_moves (h : store) (this child : ref) :
  linksAgree h -> isElement h this = true -> is_Some (h !! child) ->
  (exists h',
      appendChild h this child = Ret h' /\ linksAgree h' /\
      (forall y, parent h' y = if decide (y = child) then Some this else parent h y) /\
      (forall y, childrenOf h' y =
                 if decide (y = this) then without child (childrenOf h y) ++ [child]
                 else without child (childrenOf h y))) /\
  (exists h',
      prependChild h this child = Ret h' /\ linksAgree h' /\
      (forall y, parent h' y = if decide (y = child) then Some this else parent h y) /\
      (forall y, childrenOf h' y =
                 if decide (y = this) then child :: without child (childrenOf h y)
                 else without child (childrenOf h y))).
Proof.
  intros Hinv Hel Hdom. split.
  - destruct (appendChild_spec h this child Hinv Hel Hdom)
      as (h' & H1 & H2 & H3 & H4 & _).
    by exists h'.
  - destruct (prependChild_spec h this child Hinv Hel Hdom)
      as (h' & H1 & H2 & H3 & H4 & _).
    by exists h'.
Qed.

Lemma appendChild_moves_witness :
  exists h',
    appendChild grammarOfTwo 2 3 = Ret h' /\ linksAgree h' /\
    (forall y, parent h' y = if decide (y = 3) then Some 2 else parent grammarOfTwo y) /\
    (forall y, childrenOf h' y =
               if decide (y = 2) then without 3 (childrenOf grammarOfTwo y) ++ [3]
               else without 3 (childrenOf grammarOfTwo y)).
Proof.
  apply (proj1 (appendChild_moves grammarOfTwo 2 3
                  (proj1 (invariant_linksAgree grammarOfTwo)
                     ltac:(apply (bool_decide_unpack _); vm_compute; reflexivity))
                  eq_refl ltac:(by eexists))).
Defined.

(** [remove()] takes a node out of its parent: the node has no parent
    afterwards and is in no array, nothing else changes, and the links
    agree; on a node without a parent it does nothing, so that a second
    call changes nothing. [removeChild] of a node whose parent is not [this]
    throws. *)
Theorem remove_detaches (h : store) (this : ref) :
  linksAgree h ->
  (exists h',
      remove h this = Ret h' /\ linksAgree h' /\
      parent h' this = None /\
      (forall y, y <> this -> parent h' y = parent h y) /\
      (forall y, childrenOf h' y = without this (childrenOf h y)) /\
      dom h' = dom h /\
      remove h' this = Ret h') /\
  (forall p, parent h this <> Some p ->
             removeChild h p this = Throw (Error "the child is not a child of this")).
Proof.
  intros Hinv. split.
  - destruct (detach_spec h this Hinv) as (h' & Hd & Hinv' & Hp & Hdom & _ & Hpar & _).
    exists h'. split; [exact Hd |]. split; [done |]. split; [done |].
    split; [done |]. split; [by apply detach_children |]. split; [done |].
    unfold remove. by rewrite Hp.
  - intros p Hp. unfold removeChild, indexOfChild.
    by rewrite bool_decide_eq_false_2.
Qed.

Lemma remove_detaches_witness :
  exists h',
    remove grammarOfTwo 3 = Ret h' /\ linksAgree h' /\
    parent h' 3 = None /\
    (forall y, y <> 3 -> parent h' y = parent grammarOfTwo y) /\
    (forall y, childrenOf h' y = without 3 (childrenOf grammarOfTwo y)) /\
    dom h' = dom grammarOfTwo /\
    remove h' 3 = Ret h'.
Proof.
  apply (proj1 (remove_detaches grammarOfTwo 3
                  (proj1 (invariant_linksAgree grammarOfTwo)
                     ltac:(apply (bool_decide_unpack _); vm_compute; reflexivity)))).
Defined.

(** [replaceWith] and [replaceChildWith] put the replacement where the
    node was, when the replacement is not a child of the same parent: the
    array of the parent changes at the index of the node only, the
    replacement has the parent and the node has none, and the links agree.
    [replaceWith] on a node without a parent throws "no parent". *)
Theorem replaceWith_replaces (h : store) (this replacement : ref) :
  linksAgree h ->
  (forall p,
      parent h this = Some p ->
      is_Some (h !! replacement) ->
      parent h replacement <> Some p ->
      exists h' i,
        replaceWith h this replacement = Ret h' /\
        replaceChildWith h p this replacement = Ret h' /\
        linksAgree h' /\
        childrenOf h p !! i = Some this /\
        childrenOf h' p = <[i := replacement]> (childrenOf h p) /\
        parent h' replacement = Some p /\
        parent h' this = None) /\
  (parent h this = None ->
   replaceWith h this replacement = Throw (Error "no parent")).
Proof.
  intros Hinv. split.
  - intros p Hp Hin Hnot.
    destruct (replaceChildWith_keeps h p this replacement Hinv Hp Hin Hnot)
      as (h' & i & Hr & Hinv' & Hi & Hch & Hpr & Hpt).
    exists h', i. unfold replaceWith. rewrite Hp. done.
  - intros Hp. unfold replaceWith. by rewrite Hp.
Qed.

Lemma replaceWith_replaces_witness :
  exists h' i,
    replaceWith grammarOfTwo 2 3 = Ret h' /\
    replaceChildWith grammarOfTwo 0 2 3 = Ret h' /\
    linksAgree h' /\
    childrenOf grammarOfTwo 0 !! i = Some 2 /\
    childrenOf h' 0 = <[i := 3]> (childrenOf grammarOfTwo 0) /\
    parent h' 3 = Some 0 /\
    parent h' 2 = None.
Proof.
  apply (proj1 (replaceWith_replaces grammarOfTwo 2 3
                  (proj1 (invariant_linksAgree grammarOfTwo)
                     ltac:(apply (bool_decide_unpack _); vm_compute; reflexivity)))
           0).
  - reflexivity.
  - by eexists.
  - discriminate.
Defined.


(** *** Attributes *)

Lemma getAttribute_putAttribute (h : store) this name attr y other :
  isElement h this = true ->
  getAttribute (putAttribute h this name attr) y other =
  if decide (y = this /\ other = name) then Some (qa_value attr)
  else getAttribute h y other.
Proof.
  unfold isElement, getAttribute, putAttribute.
  destruct (h !! this) as [[e | t] |] eqn:Hthis; try done. intros _.
  destruct (decide (y = this)) as [-> | Hy].
  - rewrite lookup_insert_eq. simpl. destruct (decide (other = name)) as [-> | Ho].
    + rewrite lookup_insert_eq. simpl. by rewrite decide_True.
    + rewrite lookup_insert_ne by done. rewrite Hthis.
      rewrite decide_False; [done | by intros [_ ?]].
  - rewrite lookup_insert_ne by done. rewrite decide_False; [done | by intros [? _]].
Qed.

(** Attributes: what [setAttribute] has set [getAttribute] and
    [mustGetAttribute] give back, and no other attribute of any element
    changes, nor a parent or an array of children; after [removeAttribute]
    the attribute is [undefined] and [mustGetAttribute] throws;
    [setXMLNS(value)] is read back under the name [xmlns]; and
    [setAttribute] refuses a name with a colon. *)
Theorem attribute_round_trip (h : store) (this : ref) (name value : string) :
  isElement h this = true ->
  (hasColon name = false ->
   exists h',
     setAttribute h this name value = Ret h' /\
     getAttribute h' this name = Some value /\
     mustGetAttribute h' this name = Ret value /\
     (forall y other, (y, other) <> (this, name) ->
                      getAttribute h' y other = getAttribute h y other) /\
     (forall y, parent h' y = parent h y /\ childrenOf h' y = childrenOf h y) /\
     getAttribute (removeAttribute h' this name) this name = None /\
     mustGetAttribute (removeAttribute h' this name) this name =
       Throw (Error ("no attribute named " ++ name))) /\
  (hasColon name = true ->
   setAttribute h this name value =
     Throw (Error "we don't support namespaces on this function")) /\
  (forall XMLNS_NAMESPACE,
      getAttribute (setXMLNS XMLNS_NAMESPACE h this value) this "xmlns" = Some value).
Proof.
  intros Hel. split; [| split].
  - intros Hc. unfold setAttribute. rewrite Hc. eexists. split; [reflexivity |].
    split; [| split; [| split; [| split; [| split]]]].
    + rewrite getAttribute_putAttribute by done. by rewrite decide_True.
    + unfold mustGetAttribute. rewrite getAttribute_putAttribute by done.
      by rewrite decide_True.
    + intros y other Hne. rewrite getAttribute_putAttribute by done.
      rewrite decide_False; [done |]. intros [-> ->]. done.
    + intros y. unfold parent, childrenOf, putAttribute, isElement in *.
      destruct (h !! this) as [[e | t] |] eqn:Hthis; try done.
      destruct (decide (y = this)) as [-> | Hy].
      * rewrite lookup_insert_eq, Hthis. done.
      * by rewrite lookup_insert_ne.
    + unfold getAttribute, removeAttribute, putAttribute, isElement in *.
      destruct (h !! this) as [[e | t] |] eqn:Hthis; try done.
      rewrite lookup_insert_eq, lookup_insert_eq. simpl.
      by rewrite lookup_delete_eq.
    + unfold mustGetAttribute, getAttribute, removeAttribute, putAttribute,
        isElement in *.
      destruct (h !! this) as [[e | t] |] eqn:Hthis; try done.
      rewrite lookup_insert_eq, lookup_insert_eq. simpl.
      by rewrite lookup_delete_eq.
  - intros Hc. unfold setAttribute. by rewrite Hc.
  - intros X. unfold setXMLNS. rewrite getAttribute_putAttribute by done.
    by rewrite decide_True.
Qed.

Lemma attribute_round_trip_witness :
  exists h',
    setAttribute grammarOfTwo 1 "name" "start" = Ret h' /\
    getAttribute h' 1 "name" = Some "start".
Proof.
  destruct (proj1 (attribute_round_trip grammarOfTwo 1 "name" "start" eq_refl)
              eq_refl) as (h' & Hs & Hg & _).
  by exists h'.
Defined.

(** *** [empty] and [grabChildren] *)

Lemma empty_spec (h : store) (this : ref) :
  linksAgree h ->
  isElement h this = true ->
  linksAgree (empty h this) /\
  childrenOf (empty h this) this = [] /\
  (forall y, y <> this -> childrenOf (empty h this) y = childrenOf h y) /\
  (forall y, parent (empty h this) y =
             if decide (y ∈ childrenOf h this) then None else parent h y).
Proof.
  intros Hinv Hel.
  split; [by apply empty_keeps |]. unfold empty. cbv zeta.
  split; [| split].
  - rewrite childrenOf_setParents. by apply childrenOf_setChildren_eq.
  - intros y Hy. rewrite childrenOf_setParents.
    by apply childrenOf_setChildren_ne.
  - intros y. rewrite parent_setParents.
    + destruct (decide (y ∈ childrenOf h this)); [done |].
      apply parent_setChildren.
    + intros x Hx. apply is_Some_dom. rewrite dom_setChildren.
      apply is_Some_dom. by eapply children_in_store.
Qed.

Lemma grabChildren_spec (h : store) (this src : ref) :
  linksAgree h ->
  isElement h this = true ->
  src <> this ->
  linksAgree (grabChildren h this src) /\
  childrenOf (grabChildren h this src) this =
    childrenOf h this ++ childrenOf h src /\
  childrenOf (grabChildren h this src) src = [] /\
  (forall y, y <> this -> y <> src ->
             childrenOf (grabChildren h this src) y = childrenOf h y) /\
  (forall y, parent (grabChildren h this src) y =
             if decide (y ∈ childrenOf h src) then Some this else parent h y) /\
  dom (grabChildren h this src) = dom h /\
  (forall y, isElement (grabChildren h this src) y = isElement h y) /\
  (forall y, localOf (grabChildren h this src) y = localOf h y).
Proof.
  intros Hinv Hel Hne. split; [by apply grabChildren_keeps |].
  unfold grabChildren. cbv zeta.
  assert (Hthis : childrenOf (setChildren h src []) this = childrenOf h this)
    by (by apply childrenOf_setChildren_ne).
  split; [| split; [| split; [| split; [| split; [| split]]]]].
  - rewrite childrenOf_setParents, Hthis. apply childrenOf_setChildren_eq.
    by rewrite isElement_setChildren.
  - rewrite childrenOf_setParents, childrenOf_setChildren_ne by done.
    destruct (isElement h src) eqn:Hsrc.
    + by apply childrenOf_setChildren_eq.
    + rewrite setChildren_not_element by done. by apply childrenOf_not_element.
  - intros y Hy1 Hy2. rewrite childrenOf_setParents.
    rewrite !childrenOf_setChildren_ne by done. done.
  - intros y. rewrite parent_setParents.
    + destruct (decide (y ∈ childrenOf h src)); [done |].
      by rewrite !parent_setChildren.
    + intros x Hx. apply is_Some_dom. rewrite !dom_setChildren.
      apply is_Some_dom. by eapply children_in_store.
  - by rewrite dom_setParents, !dom_setChildren.
  - intros y. by rewrite isElement_setParents, !isElement_setChildren.
  - intros y. by rewrite localOf_setParents, !localOf_setChildren.
Qed.

(** [empty()] leaves [this] without children and its former children
    without a parent; [grabChildren(src)], for another element [src], moves
    the children of [src] to the end of the array of [this], in their order,
    and leaves [src] empty. Nothing else changes, and the links agree
    afterwards. *)
Theorem empty_and_grabChildren (h : store) (this : ref) :
  linksAgree h ->
  isElement h this = true ->
  (linksAgree (empty h this) /\
   childrenOf (empty h this) this = [] /\
   (forall y, y <> this -> childrenOf (empty h this) y = childrenOf h y) /\
   (forall y, parent (empty h this) y =
              if decide (y ∈ childrenOf h this) then None else parent h y)) /\
  (forall src,
      src <> this ->
      linksAgree (grabChildren h this src) /\
      childrenOf (grabChildren h this src) this =
        childrenOf h this ++ childrenOf h src /\
      childrenOf (grabChildren h this src) src = [] /\
      (forall y, y <> this -> y <> src ->
                 childrenOf (grabChildren h this src) y = childrenOf h y) /\
      (forall y, parent (grabChildren h this src) y =
                 if decide (y ∈ childrenOf h src) then Some this else parent h y)).
Proof.
  intros Hinv Hel. split; [by apply empty_spec |].
  intros src Hne.
  destruct (grabChildren_spec h this src Hinv Hel Hne) as (H1 & H2 & H3 & H4 & H5 & _).
  done.
Qed.

Lemma empty_and_grabChildren_witness :
  linksAgree (grabChildren grammarOfTwo 2 1) /\
  childrenOf (grabChildren grammarOfTwo 2 1) 2 =
    childrenOf grammarOfTwo 2 ++ childrenOf grammarOfTwo 1.
Proof.
  destruct (proj2 (empty_and_grabChildren grammarOfTwo 2
                     (proj1 (invariant_linksAgree grammarOfTwo)
                        ltac:(apply (bool_decide_unpack _); vm_compute; reflexivity))
                     eq_refl) 1 ltac:(discriminate)) as (H1 & H2 & _).
  by split.
Defined.

Lemma withoutAll_cons x xs l : withoutAll (x :: xs) l = withoutAll xs (without x l).
Proof.
  unfold withoutAll, without. induction l as [| c l IH]; [done |].
  simpl in *. destruct (Nat.eqb c x); simpl.
  - exact IH.
  - destruct (negb (existsb (Nat.eqb c) xs)); by rewrite IH.
Qed.

Lemma withoutAll_nil l : withoutAll [] l = l.
Proof.
  unfold withoutAll. induction l as [| c l IH]; [done |]. simpl in *.
  by rewrite IH.
Qed.

Lemma elem_of_withoutAll xs l c : c ∈ withoutAll xs l <-> c ∈ l /\ c ∉ xs.
Proof.
  unfold withoutAll. rewrite list_elem_of_In, filter_In, <- list_elem_of_In.
  rewrite negb_true_iff, <- not_true_iff_false, existsb_exists.
  split; intros [H1 H2]; (split; [done |]).
  - intros Hin. apply H2. exists c. split; [by apply list_elem_of_In |].
    apply Nat.eqb_refl.
  - intros (y & Hy & Heq). apply Nat.eqb_eq in Heq. subst.
    by apply H2, list_elem_of_In.
Qed.

Lemma withoutAll_notin xs l : (forall c, c ∈ l -> c ∉ xs) -> withoutAll xs l = l.
Proof.
  induction l as [| c l IH]; [done |]. intros Hl. unfold withoutAll in *.
  cbn [List.filter].
  assert (existsb (Nat.eqb c) xs = false) as ->.
  { apply not_true_iff_false. rewrite existsb_exists. intros (y & Hy & Heq).
    apply Nat.eqb_eq in Heq. subst. apply (Hl y); [apply elem_of_cons; by left |].
    by apply list_elem_of_In. }
  cbn [negb]. f_equal. apply IH. intros c' Hc'. apply Hl. apply elem_of_cons. by right.
Qed.

(** [detach] in the middle of an adoption. *)
Lemma detach_views_pending (h h' : store) this pending x :
  linksAgreeBut h this pending -> x ∉ pending ->
  detach h x = Ret h' ->
  (forall y, childrenOf h' y = without x (childrenOf h y)) /\
  (forall y, parent h' y = if decide (y = x) then None else parent h y) /\
  (forall y, localOf h' y = localOf h y).
Proof.
  intros [H1 H2 H3 H4] Hx Hd. split; [| split].
  - unfold detach in Hd. destruct (parent h x) as [p |] eqn:Hp.
    + unfold removeChild, indexOfChild in Hd.
      rewrite bool_decide_eq_true_2 in Hd by done.
      destruct (indexOf x (childrenOf h p)) as [i |] eqn:Hi; simpl in Hd; [| done].
      apply indexOf_lookup in Hi. unfold removeChildAt in Hd. rewrite Hi in Hd.
      injection Hd as <-. intros y. rewrite childrenOf_setParent.
      destruct (decide (p = y)) as [<- | Hne].
      * rewrite childrenOf_setChildren_eq
          by (eapply childrenOf_isElement, list_elem_of_lookup_2; exact Hi).
        symmetry. by apply without_delete.
      * rewrite childrenOf_setChildren_ne by done. symmetry. apply without_notin.
        intros Hin. apply H1 in Hin. congruence.
    + injection Hd as <-. intros y. symmetry. apply without_notin.
      intros Hin. apply H1 in Hin. congruence.
  - unfold detach in Hd. destruct (parent h x) as [p |] eqn:Hp.
    + unfold removeChild, indexOfChild in Hd.
      rewrite bool_decide_eq_true_2 in Hd by done.
      destruct (indexOf x (childrenOf h p)) as [i |] eqn:Hi; simpl in Hd; [| done].
      apply indexOf_lookup in Hi. unfold removeChildAt in Hd. rewrite Hi in Hd.
      injection Hd as <-. intros y. rewrite parent_setParent_None.
      destruct (decide (x = y)) as [<- | Hne].
      * by rewrite decide_True.
      * rewrite decide_False by done. apply parent_setChildren.
    + injection Hd as <-. intros y. destruct (decide (y = x)) as [-> |]; done.
  - intros y. by eapply localOf_detach.
Qed.

(** The loop of [appendChildren] and [insertAt]: every node of the list is
    gone from the array it was in and has [this] as its parent. *)
Lemma adopt_views els : forall (h h' : store) this pending,
  linksAgreeBut h this pending ->
  NoDup (els ++ pending) ->
  (forall x, x ∈ els -> is_Some (h !! x)) ->
  adopt h this els = Ret h' ->
  (forall y, childrenOf h' y = withoutAll els (childrenOf h y)) /\
  (forall y, parent h' y = if decide (y ∈ els) then Some this else parent h y) /\
  (forall y, localOf h' y = localOf h y).
Proof.
  induction els as [| x rest IH]; intros h h' this pending Hinv Hnd Hin Had.
  - injection Had as <-. split; [| split]; try done.
    intros y. by rewrite withoutAll_nil.
  - cbn [adopt] in Had.
    assert (Hxp : x ∉ pending).
    { intros Hx. apply NoDup_app in Hnd as (_ & Hdis & _).
      apply (Hdis x); [apply elem_of_cons; by left | done]. }
    destruct (adopt_one h this pending x Hinv Hxp) as (h1 & Hd & Hinv1 & Hdom1 & _ & _).
    { apply Hin. apply elem_of_cons. by left. }
    rewrite Hd in Had. cbn [bind] in Had.
    destruct (detach_views_pending h h1 this pending x Hinv Hxp Hd) as (Hc1 & Hp1 & Hl1).
    destruct (IH (setParent h1 x (Some this)) h' this (x :: pending) Hinv1)
      as (Hc & Hp & Hl); [| | done |].
    { cbn [app] in Hnd. apply NoDup_cons in Hnd as [Hx Hnd].
      rewrite <- Permutation_middle. apply NoDup_cons. done. }
    { intros y Hy. apply is_Some_dom. rewrite dom_setParent, Hdom1.
      apply is_Some_dom, Hin. apply elem_of_cons. by right. }
    assert (Hx1 : is_Some (h1 !! x)).
    { apply is_Some_dom. rewrite Hdom1. apply is_Some_dom, Hin, elem_of_cons. by left. }
    split; [| split].
    + intros y. by rewrite Hc, childrenOf_setParent, Hc1, withoutAll_cons.
    + intros y. rewrite Hp. destruct (decide (y ∈ rest)) as [Hy | Hy].
      * rewrite decide_True; [done |]. apply elem_of_cons. by right.
      * destruct (decide (y = x)) as [-> | Hne].
        -- rewrite parent_setParent_eq by done. rewrite decide_True; [done |].
           apply elem_of_cons. by left.
        -- rewrite parent_setParent_ne by done. rewrite Hp1, decide_False by done.
           rewrite decide_False; [done |]. by intros [? | ?]%elem_of_cons.
    + intros y. by rewrite Hl, localOf_setParent, Hl1.
Qed.

Lemma appendChildren_spec (h : store) (this : ref) (els : list ref) :
  linksAgree h -> isElement h this = true -> NoDup els ->
  (forall x, x ∈ els -> is_Some (h !! x)) ->
  exists h',
    appendChildren h this els = Ret h' /\ linksAgree h' /\
    (forall y, childrenOf h' y =
               if decide (y = this) then withoutAll els (childrenOf h y) ++ els
               else withoutAll els (childrenOf h y)) /\
    (forall y, parent h' y = if decide (y ∈ els) then Some this else parent h y) /\
    dom h' = dom h /\
    (forall y, isElement h' y = isElement h y) /\
    (forall y, localOf h' y = localOf h y).
Proof.
  intros Hinv Hel Hnd Hin.
  destruct (appendChildren_keeps h this els Hinv Hel Hnd Hin) as (h' & Happ & Hinv').
  exists h'. split; [done |]. split; [done |].
  pose proof (proj1 (linksAgree_nothing_pending h this) Hinv) as Hbut.
  destruct (adopt_all els h this [] Hbut) as (h1 & Had & _ & Hdom1 & Hel1);
    [by rewrite app_nil_r | done |].
  destruct (adopt_views els h h1 this [] Hbut) as (Hc1 & Hp1 & Hl1);
    [by rewrite app_nil_r | done | done |].
  unfold appendChildren in Happ. rewrite Had in Happ. cbn [bind] in Happ.
  injection Happ as <-.
  split; [| split; [| split; [| split]]].
  - intros y. destruct (decide (y = this)) as [-> | Hne].
    + rewrite childrenOf_setChildren_eq by (by rewrite Hel1). by rewrite Hc1.
    + rewrite childrenOf_setChildren_ne by done. apply Hc1.
  - intros y. rewrite parent_setChildren. apply Hp1.
  - by rewrite dom_setChildren.
  - intros y. by rewrite isElement_setChildren.
  - intros y. by rewrite localOf_setChildren.
Qed.




Lemma xml_ind' (P : xml -> Prop)
  (HText : forall text, P (XText text))
  (HElem : forall node children, Forall P children -> P (XElem node children)) :
  forall d, P d.
Proof.
  fix IH 1. intros [node children | text]; [| apply HText].
  apply HElem. induction children as [| c cs IHcs]; constructor; [apply IH | apply IHcs].
Qed.

Lemma runEvents_app {Validator : Type} (event : ParserState Validator -> SaxEvent ->
                                                outcome (ParserState Validator))
  (evs1 evs2 : list SaxEvent) : forall st,
  runEvents Validator event st (evs1 ++ evs2) =
  let* st' := runEvents Validator event st evs1 in runEvents Validator event st' evs2.
Proof.
  induction evs1 as [| ev evs1 IH]; intros st; [done |]. simpl.
  destruct (event st ev) as [st1 | |]; simpl; [apply IH | done | done].
Qed.

(** *** Reading a document off the store *)

Lemma sameShape_refl n : sameShape n n.
Proof. by destruct n. Qed.

Lemma sameShape_trans n1 n2 n3 : sameShape n1 n2 -> sameShape n2 n3 -> sameShape n1 n3.
Proof.
  destruct n1, n2, n3; simpl; try done.
  - intros [-> ->] [-> ->]. done.
  - congruence.
Qed.

Lemma keepsShapes_refl (h : store) : keepsShapes h h.
Proof. intros y n Hy. exists n. split; [done | apply sameShape_refl]. Qed.

Lemma keepsShapes_trans (h1 h2 h3 : store) :
  keepsShapes h1 h2 -> keepsShapes h2 h3 -> keepsShapes h1 h3.
Proof.
  intros H12 H23 y n Hy. destruct (H12 y n Hy) as (n2 & Hy2 & Hs2).
  destruct (H23 y n2 Hy2) as (n3 & Hy3 & Hs3). exists n3. split; [done |].
  by eapply sameShape_trans.
Qed.

Lemma keepsShapes_unchanged (h h' : store) :
  (forall y : ref, is_Some (h !! y) -> h' !! y = h !! y) -> keepsShapes h h'.
Proof.
  intros Hsame y n Hy. exists n. split; [| apply sameShape_refl].
  rewrite Hsame; [done | by eexists].
Qed.

Lemma keepsShapes_setParent (h : store) x v : keepsShapes h (setParent h x v).
Proof.
  intros y n Hy. unfold setParent. destruct (h !! x) as [[e | t] |] eqn:Hx.
  - destruct (decide (x = y)) as [<- | Hne].
    + rewrite lookup_insert_eq. eexists. split; [done |].
      pose proof (eq_trans (eq_sym Hy) Hx) as Heq. injection Heq as ->. done.
    + rewrite lookup_insert_ne by done. exists n. split; [done | apply sameShape_refl].
  - destruct (decide (x = y)) as [<- | Hne].
    + rewrite lookup_insert_eq. eexists. split; [done |].
      pose proof (eq_trans (eq_sym Hy) Hx) as Heq. injection Heq as ->. done.
    + rewrite lookup_insert_ne by done. exists n. split; [done | apply sameShape_refl].
  - exists n. split; [done | apply sameShape_refl].
Qed.

Lemma keepsShapes_setParents xs : forall (h : store) v,
  keepsShapes h (setParents h xs v).
Proof.
  induction xs as [| x xs IH]; intros h v; [apply keepsShapes_refl |].
  rewrite setParents_cons. eapply keepsShapes_trans; [apply keepsShapes_setParent |].
  apply IH.
Qed.

Lemma treeOf_keepsShapes fuel : forall (h h' : store) r t,
  keepsShapes h h' -> treeOf fuel h r = Some t -> treeOf fuel h' r = Some t.
Proof.
  induction fuel as [| fuel IH]; intros h h' r t Hk; [done |]. simpl.
  destruct (h !! r) as [n |] eqn:Hr; [| done].
  destruct (Hk r n Hr) as (n' & -> & Hs).
  destruct n as [e | tx], n' as [e' | tx']; simpl in Hs; try done.
  - destruct Hs as [-> ->].
    destruct (mapM (treeOf fuel h) (children e')) as [ts |] eqn:Hm; [| done].
    simpl. intros [= <-]. apply mapM_Some in Hm.
    assert (mapM (treeOf fuel h') (children e') = Some ts) as ->; [| done].
    apply mapM_Some. eapply Forall2_impl; [exact Hm |]. intros c tc. by apply IH.
  - by rewrite Hs.
Qed.

Lemma treeOf_more_fuel fuel : forall fuel' (h : store) r t,
  fuel <= fuel' -> treeOf fuel h r = Some t -> treeOf fuel' h r = Some t.
Proof.
  induction fuel as [| fuel IH]; intros fuel' h r t Hle; [done |].
  destruct fuel' as [| fuel']; [lia |]. simpl.
  destruct (h !! r) as [[e | tx] |]; try done.
  destruct (mapM (treeOf fuel h) (children e)) as [ts |] eqn:Hm; [| done].
  simpl. intros [= <-]. apply mapM_Some in Hm.
  assert (mapM (treeOf fuel' h) (children e) = Some ts) as ->; [| done].
  apply mapM_Some. eapply Forall2_impl; [exact Hm |]. intros c tc.
  apply IH. lia.
Qed.

(** *** The nodes that the parser makes *)

Lemma newText_views (h : store) text :
  let h' := fst (newText h text) in
  let t := snd (newText h text) in
  h !! t = None /\
  h' !! t = Some (TextNode (mkText None text)) /\
  (forall y : ref, is_Some (h !! y) -> h' !! y = h !! y) /\
  (forall y : ref, parent h' y = parent h y) /\
  (forall y : ref, childrenOf h' y = childrenOf h y).
Proof.
  cbn. set (t := fresh (dom h)).
  assert (Ht : h !! t = None) by (apply not_elem_of_dom, is_fresh).
  split; [done |]. split; [by rewrite lookup_insert_eq |].
  split; [| split].
  - intros y Hy. rewrite lookup_insert_ne; [done |]. intros <-.
    rewrite Ht in Hy. by destruct Hy.
  - intros y. unfold parent. destruct (decide (t = y)) as [<- | Hne].
    + by rewrite lookup_insert_eq, Ht.
    + by rewrite lookup_insert_ne.
  - intros y. unfold childrenOf. destruct (decide (t = y)) as [<- | Hne].
    + by rewrite lookup_insert_eq, Ht.
    + by rewrite lookup_insert_ne.
Qed.

Lemma setParents_lookup_other xs : forall (h : store) v (y : ref),
  y ∉ xs -> setParents h xs v !! y = h !! y.
Proof.
  induction xs as [| x xs IH]; intros h v y Hy; [done |].
  apply not_elem_of_cons in Hy as [Hne Hy]. rewrite setParents_cons, IH by done.
  unfold setParent. destruct (h !! x) as [[e | t] |]; try done;
    by rewrite lookup_insert_ne.
Qed.

Lemma fromSax_views (h : store) node cs :
  (forall c : ref, c ∈ cs -> is_Some (h !! c)) ->
  let h' := fst (fromSax h node cs) in
  let r := snd (fromSax h node cs) in
  h !! r = None /\
  (exists e, h' !! r = Some (ElementNode e) /\ tagOf e = node /\ children e = cs) /\
  keepsShapes h h' /\
  (forall y : ref, y ∉ cs -> is_Some (h !! y) -> h' !! y = h !! y) /\
  (forall y : ref, parent h' y = if decide (y ∈ cs) then Some r else parent h y) /\
  (forall y : ref, childrenOf h' y = if decide (y = r) then cs else childrenOf h y) /\
  (forall y : ref, is_Some (h' !! y) <-> y = r \/ is_Some (h !! y)).
Proof.
  intros Hcs. unfold fromSax, newElement. cbn [fst snd].
  set (r := fresh (dom h)).
  set (n := ElementNode (mkElement None None (tag_prefix node) (tag_local node)
                           (tag_uri node) (tag_ns node) (tag_attributes node) cs)).
  assert (Hr : h !! r = None) by (apply not_elem_of_dom, is_fresh).
  assert (Hrcs : r ∉ cs).
  { intros Hin. apply Hcs in Hin. rewrite Hr in Hin. by destruct Hin. }
  assert (Hin1 : forall x, x ∈ cs -> is_Some (<[r := n]> h !! x)).
  { intros x Hx. rewrite lookup_insert_is_Some. right.
    split; [by intros <- | by apply Hcs]. }
  split; [done |]. split; [| split; [| split; [| split; [| split]]]].
  - exists (mkElement None None (tag_prefix node) (tag_local node)
              (tag_uri node) (tag_ns node) (tag_attributes node) cs).
    split; [| by destruct node].
    rewrite setParents_lookup_other by done. by rewrite lookup_insert_eq.
  - eapply keepsShapes_trans; [| apply keepsShapes_setParents].
    intros y ny Hy. exists ny. split; [| apply sameShape_refl].
    rewrite lookup_insert_ne; [done |]. intros <-. congruence.
  - intros y Hy Hsome. rewrite setParents_lookup_other by done.
    rewrite lookup_insert_ne; [done |]. intros <-. rewrite Hr in Hsome.
    by destruct Hsome.
  - intros y. rewrite parent_setParents by done.
    destruct (decide (y ∈ cs)); [done |]. unfold parent.
    destruct (decide (r = y)) as [<- | Hne].
    + by rewrite lookup_insert_eq, Hr.
    + by rewrite lookup_insert_ne.
  - intros y. rewrite childrenOf_setParents. unfold childrenOf.
    destruct (decide (y = r)) as [-> | Hne].
    + by rewrite lookup_insert_eq.
    + by rewrite lookup_insert_ne.
  - intros y. rewrite is_Some_dom, dom_setParents, <- is_Some_dom.
    rewrite lookup_insert_is_Some. split.
    + intros [<- | [_ H]]; [by left | by right].
    + intros [-> | H]; [by left |]. destruct (decide (r = y)); [by left | by right].
Qed.

Lemma treeOf_S fuel (h : store) (node : ref) :
  treeOf (S fuel) h node =
  match h !! node with
  | Some (TextNode t) => Some (XText (text t))
  | Some (ElementNode e) => XElem (tagOf e) <$> mapM (treeOf fuel h) (children e)
  | None => None
  end.
Proof. done. Qed.

(** *** One event *)

Lemma parent_absent (h : store) (r : ref) : h !! r = None -> parent h r = None.
Proof. intros Hr. unfold parent. by rewrite Hr. Qed.

Lemma childrenOf_absent (h : store) (r : ref) : h !! r = None -> childrenOf h r = [].
Proof. intros Hr. unfold childrenOf. by rewrite Hr. Qed.

Lemma fromSax_linksAgree (h : store) node cs :
  linksAgree h -> NoDup cs ->
  (forall c : ref, c ∈ cs -> is_Some (h !! c) /\ parent h c = None) ->
  linksAgree (fst (fromSax h node cs)).
Proof.
  intros [H1 H2 H3] Hnd Hcs.
  destruct (fromSax_views h node cs) as (Hr & _ & _ & _ & Hp & Hc & _).
  { intros c Hc. by apply Hcs. }
  set (h' := fst (fromSax h node cs)) in *. set (r := snd (fromSax h node cs)) in *.
  split.
  - intros p c. rewrite Hc, Hp. destruct (decide (p = r)) as [-> | Hne].
    + intros Hin. by rewrite decide_True.
    + intros Hin. rewrite decide_False; [by apply H1 |].
      intros Hin'. apply Hcs in Hin' as [_ Hnone]. apply H1 in Hin. congruence.
  - intros c p. rewrite Hc, Hp. destruct (decide (c ∈ cs)) as [Hin | Hnin].
    + intros [= <-]. by rewrite decide_True.
    + intros Hpar. apply H2 in Hpar. rewrite decide_False; [done |].
      intros ->. rewrite (childrenOf_absent h r Hr) in Hpar.
      by apply elem_of_nil in Hpar.
  - intros p. rewrite Hc. destruct (decide (p = r)); [done | apply H3].
Qed.

Section ParserRuns.

Variable RELAXNG_URI : string.

Abbreviation event :=
  (BasicParser_event unit NullValidator_ontag NullValidator_ontag NullValidator_ontext
     RELAXNG_URI).
Abbreviation run := (runEvents unit event).

Lemma ontext_step (h : store) (p : BasicParser) top rest text :
  bp_stack p = top :: rest -> bp_drop p = 0 -> parserInvariant h p ->
  exists h' (t : ref),
    event (h, p, tt) (TextEvent text) =
    Ret (h', {| bp_stack := mkFrame (f_node top) (f_children top ++ [t]) :: rest;
                bp_drop := 0 |}, tt) /\
    parserInvariant h'
      {| bp_stack := mkFrame (f_node top) (f_children top ++ [t]) :: rest;
         bp_drop := 0 |} /\
    (forall y : ref, is_Some (h !! y) -> h' !! y = h !! y) /\
    h !! t = None /\
    h' !! t = Some (TextNode (mkText None text)).
Proof.
  intros Hst Hdrop [Hl Hnd Hpen].
  destruct (newText_views h text) as (Ht & Ht' & Hsame & Hp & Hc).
  exists (fst (newText h text)), (snd (newText h text)).
  set (h' := fst (newText h text)) in *. set (t := snd (newText h text)) in *.
  split; [| split; [| done]].
  { cbn. rewrite Hdrop, Hst. done. }
  assert (Hpn : pendingNodes {| bp_stack := mkFrame (f_node top) (f_children top ++ [t])
                                              :: rest; bp_drop := 0 |}
                ≡ₚ t :: pendingNodes p).
  { unfold pendingNodes. rewrite Hst. cbn. rewrite <- app_assoc. cbn.
    by rewrite <- Permutation_middle. }
  split.
  - destruct Hl as [H1 H2 H3]. split.
    + intros q c. rewrite Hc, Hp. apply H1.
    + intros c q. rewrite Hc, Hp. apply H2.
    + intros q. rewrite Hc. apply H3.
  - rewrite Hpn. apply NoDup_cons. split; [| done].
    intros Hin. apply Hpen in Hin as [Hsome _]. rewrite Ht in Hsome.
    by destruct Hsome.
  - intros c. rewrite Hpn, elem_of_cons. intros [-> | Hin].
    + split; [by rewrite Ht' |]. rewrite Hp. by apply parent_absent.
    + destruct (Hpen c Hin) as [Hsome Hnone]. split; [| by rewrite Hp].
      by rewrite Hsame.
Qed.

Lemma onclose_step (h : store) (p : BasicParser) node cs next rest node' :
  bp_stack p = mkFrame (Some node) cs :: next :: rest -> bp_drop p = 0 ->
  parserInvariant h p ->
  exists h' (r : ref) e,
    event (h, p, tt) (CloseTag node') =
    Ret (h', {| bp_stack := mkFrame (f_node next) (f_children next ++ [r]) :: rest;
                bp_drop := 0 |}, tt) /\
    parserInvariant h'
      {| bp_stack := mkFrame (f_node next) (f_children next ++ [r]) :: rest;
         bp_drop := 0 |} /\
    (forall y : ref, y ∉ cs -> is_Some (h !! y) -> h' !! y = h !! y) /\
    keepsShapes h h' /\
    h !! r = None /\
    h' !! r = Some (ElementNode e) /\ tagOf e = node /\ children e = cs.
Proof.
  intros Hst Hdrop [Hl Hnd Hpen].
  assert (Hpn0 : pendingNodes p = cs ++ f_children next ++ concat (map f_children rest)).
  { unfold pendingNodes. by rewrite Hst. }
  rewrite Hpn0 in Hnd, Hpen.
  apply NoDup_app in Hnd as (Hcsnd & Hdisj & Hrestnd).
  assert (Hcs : forall c : ref, c ∈ cs -> is_Some (h !! c) /\ parent h c = None).
  { intros c Hc. apply Hpen, elem_of_app. by left. }
  pose proof (fromSax_linksAgree h node cs Hl Hcsnd Hcs) as Hl'.
  destruct (fromSax_views h node cs) as (Hr & (e & He & Htag & Hch) & Hk & Hsame & Hp & Hc & Hd).
  { intros c Hc. by apply Hcs. }
  exists (fst (fromSax h node cs)), (snd (fromSax h node cs)), e.
  set (h' := fst (fromSax h node cs)) in *. set (r := snd (fromSax h node cs)) in *.
  split; [| split; [| done]].
  { cbn -[fromSax]. rewrite Hdrop, Hst. cbn -[fromSax].
    by rewrite (surjective_pairing (fromSax h node cs)). }
  assert (Hpn : pendingNodes {| bp_stack := mkFrame (f_node next) (f_children next ++ [r])
                                              :: rest; bp_drop := 0 |}
                ≡ₚ r :: f_children next ++ concat (map f_children rest)).
  { unfold pendingNodes. cbn. rewrite <- app_assoc. cbn.
    by rewrite <- Permutation_middle. }
  split; [done | |].
  - rewrite Hpn. apply NoDup_cons. split; [| done].
    intros Hin. assert (Hsome : is_Some (h !! r)).
    { apply Hpen, elem_of_app. by right. }
    rewrite Hr in Hsome. by destruct Hsome.
  - intros c. rewrite Hpn, elem_of_cons. intros [-> | Hin].
    + split; [by rewrite He |]. rewrite Hp, decide_False.
      * by apply parent_absent.
      * intros Hin. apply Hcs in Hin as [Hsome _]. rewrite Hr in Hsome.
        by destruct Hsome.
    + destruct (Hpen c) as [Hsome Hnone]; [apply elem_of_app; by right |].
      split; [apply Hd; by right |].
      rewrite Hp, decide_False; [done |]. intros Hin'. by apply (Hdisj c).
Qed.

(** *** A subtree that is dropped *)

Lemma run_dropped (d : xml) : forall (h : store) (p : BasicParser),
  bp_drop p <> 0 -> run (h, p, tt) (events d) = Ret (h, p, tt).
Proof.
  induction d as [text | node children IH] using xml_ind'; intros h p Hdrop.
  - cbn. destruct (bp_drop p) as [| n] eqn:Hn; [done |]. done.
  - assert (Hcs : forall (p : BasicParser), bp_drop p <> 0 ->
                    run (h, p, tt) (flat_map events children) = Ret (h, p, tt)).
    { clear Hdrop p. induction IH as [| c cs Hc _ IHcs]; intros p Hdrop; [done |].
      cbn [flat_map]. rewrite runEvents_app, Hc by done. cbn [bind]. by apply IHcs. }
    cbn [events runEvents]. cbn [BasicParser_event BasicParser_onopentag
                                NullValidator_ontag bind].
    destruct (bp_drop p) as [| n] eqn:Hn; [done |]. cbn [Nat.eqb negb].
    rewrite orb_true_r. cbn [bind]. rewrite runEvents_app, Hcs by done. cbn.
    rewrite <- Hn.
    by destruct p.
Qed.

Lemma run_dropped_list (ds : list xml) : forall (h : store) (p : BasicParser),
  bp_drop p <> 0 -> run (h, p, tt) (flat_map events ds) = Ret (h, p, tt).
Proof.
  induction ds as [| d ds IH]; intros h p Hdrop; [done |].
  cbn [flat_map]. rewrite runEvents_app, run_dropped by done. cbn [bind].
  by apply IH.
Qed.

(** *** A subtree that is kept *)

Lemma trees_of_children (h h' : store) (rs : list ref) (ks : list xml) :
  keepsShapes h h' ->
  Forall2 (fun r t => treeOf (S (height t)) h r = Some t) rs ks ->
  Forall2 (fun r t => treeOf (S (list_max (map height ks))) h' r = Some t) rs ks.
Proof.
  intros Hk Htr.
  assert (Hle : Forall (fun t => height t <= list_max (map height ks)) ks).
  { pose proof (proj1 (list_max_le (map height ks) _) (le_n _)) as Hm.
    rewrite List.Forall_map in Hm. exact Hm. }
  revert Hle. generalize (list_max (map height ks)). intros n Hle.
  induction Htr as [| r t rs ks Hrt _ IH]; [constructor |].
  apply Forall_cons in Hle as [Ht Hle]. constructor; [| by apply IH].
  eapply treeOf_keepsShapes; [exact Hk |].
  eapply treeOf_more_fuel; [| exact Hrt]. lia.
Qed.

Lemma run_kept (d : xml) : forall (h : store) (p : BasicParser) top rest,
  bp_stack p = top :: rest -> bp_drop p = 0 -> parserInvariant h p ->
  exists h' (rs : list ref),
    run (h, p, tt) (events d) =
    Ret (h', {| bp_stack := mkFrame (f_node top) (f_children top ++ rs) :: rest;
                bp_drop := 0 |}, tt) /\
    parserInvariant h'
      {| bp_stack := mkFrame (f_node top) (f_children top ++ rs) :: rest;
         bp_drop := 0 |} /\
    (forall y : ref, is_Some (h !! y) -> h' !! y = h !! y) /\
    (forall r : ref, r ∈ rs -> h !! r = None) /\
    Forall2 (fun r t => treeOf (S (height t)) h' r = Some t) rs (kept RELAXNG_URI d).
Proof.
  induction d as [text | node children IH] using xml_ind';
    intros h p top rest Hst Hdrop Hinv.
  - destruct (ontext_step h p top rest text Hst Hdrop Hinv)
      as (h' & t & Hev & Hinv' & Hsame & Ht & Ht').
    exists h', [t]. split; [| split; [done | split; [done | split]]].
    + cbn [events runEvents]. by rewrite Hev.
    + intros r Hr. apply list_elem_of_singleton in Hr. by subst.
    + constructor; [| constructor]. cbn. by rewrite Ht'.
  - assert (Hcs : forall (h : store) (p : BasicParser) top rest,
      bp_stack p = top :: rest -> bp_drop p = 0 -> parserInvariant h p ->
      exists h' (rs : list ref),
        run (h, p, tt) (flat_map events children) =
        Ret (h', {| bp_stack := mkFrame (f_node top) (f_children top ++ rs) :: rest;
                    bp_drop := 0 |}, tt) /\
        parserInvariant h'
          {| bp_stack := mkFrame (f_node top) (f_children top ++ rs) :: rest;
             bp_drop := 0 |} /\
        (forall y : ref, is_Some (h !! y) -> h' !! y = h !! y) /\
        (forall r : ref, r ∈ rs -> h !! r = None) /\
        Forall2 (fun r t => treeOf (S (height t)) h' r = Some t) rs
          (flat_map (kept RELAXNG_URI) children)).
    { clear h p top rest Hst Hdrop Hinv.
      induction IH as [| c cs Hc _ IHcs]; intros h p top rest Hst Hdrop Hinv.
      - exists h, []. rewrite app_nil_r.
        assert (p = {| bp_stack := mkFrame (f_node top) (f_children top) :: rest;
                       bp_drop := 0 |}) as <-.
        { destruct p as [st dr], top. cbn in *. by subst. }
        split; [done |]. split; [done |]. split; [done |]. split; [| constructor].
        intros r Hr. by apply elem_of_nil in Hr.
      - destruct (Hc h p top rest Hst Hdrop Hinv)
          as (h1 & rs1 & Hrun1 & Hinv1 & Hsame1 & Hfr1 & Htr1).
        destruct (IHcs h1 {| bp_stack := mkFrame (f_node top) (f_children top ++ rs1)
                                           :: rest; bp_drop := 0 |}
                    (mkFrame (f_node top) (f_children top ++ rs1)) rest
                    eq_refl eq_refl Hinv1)
          as (h2 & rs2 & Hrun2 & Hinv2 & Hsame2 & Hfr2 & Htr2).
        cbn [f_node f_children] in *. rewrite <- app_assoc in Hrun2, Hinv2.
        exists h2, (rs1 ++ rs2). split; [| split; [done | split; [| split]]].
        + cbn [flat_map]. rewrite runEvents_app, Hrun1. cbn [bind]. exact Hrun2.
        + intros y Hy. rewrite Hsame2, Hsame1; [done | done |]. by rewrite Hsame1.
        + intros r Hr. apply elem_of_app in Hr as [Hr | Hr]; [by apply Hfr1 |].
          apply Hfr2 in Hr. destruct (h !! r) as [n |] eqn:Hhr; [| done].
          rewrite Hsame1 in Hr; [| by rewrite Hhr]. congruence.
        + cbn [flat_map]. apply Forall2_app; [| done].
          eapply Forall2_impl; [exact Htr1 |]. intros r t.
          apply treeOf_keepsShapes. by apply keepsShapes_unchanged. }
    cbn [events runEvents]. cbn [BasicParser_event BasicParser_onopentag
                                NullValidator_ontag bind]. rewrite Hdrop.
    cbn [Nat.eqb negb]. rewrite orb_false_r. cbn [kept].
    destruct (String.eqb (tag_uri node) RELAXNG_URI) eqn:Huri; cbn [negb].
    + cbn [bind]. set (p1 := {| bp_stack := mkFrame (Some node) [] :: bp_stack p; bp_drop := 0 |}).
      assert (Hinv1 : parserInvariant h p1).
      { destruct Hinv as [Hl Hnd Hpen]. by split. }
      destruct (Hcs h p1 (mkFrame (Some node) []) (top :: rest)
                  ltac:(cbn; by rewrite Hst) eq_refl Hinv1)
        as (h2 & rs & Hrun2 & Hinv2 & Hsame2 & Hfr2 & Htr2).
      cbn [f_node f_children app] in *.
      destruct (onclose_step h2 {| bp_stack := mkFrame (Some node) rs :: top :: rest;
                                   bp_drop := 0 |}
                  node rs top rest node eq_refl eq_refl Hinv2)
        as (h3 & r & e & Hev3 & Hinv3 & Hsame3 & Hk3 & Hr3 & He3 & Htag3 & Hch3).
      exists h3, [r]. split; [| split; [done | split; [| split]]].
      * rewrite runEvents_app, Hrun2. cbn [bind runEvents]. by rewrite Hev3.
      * intros y Hy. rewrite Hsame3, Hsame2; [done | done | | by rewrite Hsame2].
        intros Hin. apply Hfr2 in Hin. rewrite Hin in Hy. by destruct Hy.
      * intros r' Hr'. apply list_elem_of_singleton in Hr'. subst r'.
        destruct (h !! r) as [n |] eqn:Hhr; [| done].
        rewrite Hsame2 in Hr3; [| by rewrite Hhr]. congruence.
      * constructor; [| constructor]. cbn [height]. rewrite treeOf_S, He3, Htag3, Hch3.
        assert (mapM (treeOf (S (list_max (map height
                                 (flat_map (kept RELAXNG_URI) children)))) h3) rs
                = Some (flat_map (kept RELAXNG_URI) children)) as ->; [| done].
        apply mapM_Some. by apply (trees_of_children h2).
    + cbn [bind]. rewrite runEvents_app, run_dropped_list by done.
      cbn. exists h, []. rewrite app_nil_r.
      assert ({| bp_stack := bp_stack p; bp_drop := 0 |} =
              {| bp_stack := mkFrame (f_node top) (f_children top) :: rest;
                 bp_drop := 0 |}) as Hp.
      { rewrite Hst. by destruct top. }
      assert (p = {| bp_stack := bp_stack p; bp_drop := 0 |}) as Hp'.
      { destruct p. cbn in *. by subst. }
      rewrite <- Hp. split; [done |]. split; [by rewrite <- Hp' |].
      split; [done |]. split; [| constructor].
      intros r Hr. by apply elem_of_nil in Hr.
Qed.

End ParserRuns.

Lemma kept_allIn (RELAXNG_URI : string) (d : xml) :
  allIn RELAXNG_URI d = true -> kept RELAXNG_URI d = [d].
Proof.
  induction d as [text | node children IH] using xml_ind'; [done |].
  cbn [allIn kept]. intros [Huri Hcs]%andb_true_iff. rewrite Huri.
  assert (flat_map (kept RELAXNG_URI) children = children) as ->; [| done].
  induction IH as [| c cs Hc _ IHcs]; [done |].
  cbn [forallb] in Hcs. apply andb_true_iff in Hcs as [Hc' Hcs].
  cbn [flat_map]. by rewrite Hc, IHcs.
Qed.

Lemma parserInvariant_new (h : store) : linksAgree h -> parserInvariant h newBasicParser.
Proof.
  intros Hl. split; [done | apply NoDup_nil_2 |].
  intros c Hc. by apply elem_of_nil in Hc.
Qed.

Lemma parse_document (RELAXNG_URI : string) (d : xml) (h : store) :
  linksAgree h ->
  exists h' (rs : list ref),
    runEvents unit
      (BasicParser_event unit NullValidator_ontag NullValidator_ontag
         NullValidator_ontext RELAXNG_URI)
      (h, newBasicParser, tt) (events d) =
    Ret (h', {| bp_stack := [mkFrame None rs]; bp_drop := 0 |}, tt) /\
    Forall2 (fun r t => treeOf (S (height t)) h' r = Some t /\
                        h !! r = None /\ parent h' r = None)
      rs (kept RELAXNG_URI d) /\
    linksAgree h' /\
    (forall y : ref, is_Some (h !! y) -> h' !! y = h !! y).
Proof.
  intros Hl.
  destruct (run_kept RELAXNG_URI d h newBasicParser (mkFrame None []) []
              eq_refl eq_refl (parserInvariant_new h Hl))
    as (h' & rs & Hrun & [Hl' _ Hpen] & Hsame & Hfr & Htr).
  cbn [f_node f_children app] in *. exists h', rs.
  split; [exact Hrun |]. split; [| done].
  assert (Hin : forall r : ref, r ∈ rs -> h !! r = None /\ parent h' r = None).
  { intros r Hr. split; [by apply Hfr |]. apply Hpen. unfold pendingNodes. cbn.
    by rewrite app_nil_r. }
  clear Hrun Hpen Hfr. induction Htr as [| r t rs ts Hrt _ IH]; constructor.
  - split; [done |]. apply Hin, elem_of_cons. by left.
  - apply IH. intros r' Hr'. apply Hin, elem_of_cons. by right.
Qed.

Lemma root_of_element (h : store) (r : ref) fuel node children :
  treeOf fuel h r = Some (XElem node children) ->
  root h {| bp_stack := [mkFrame None [r]]; bp_drop := 0 |} = Ret (Some r).
Proof.
  intros Htree. cbn. assert (isElement h r = true) as ->; [| done].
  unfold isElement. destruct fuel; [done |]. rewrite treeOf_S in Htree.
  destruct (h !! r) as [[e | tx] |]; done.
Qed.

(** [BasicParser], made with the validator that does not validate, on the
    events of a document whose root element is in the namespace: the run
    returns, [root] is a new element without parent, and the document read
    off [root] is the document without the elements of other namespaces
    (and what is in them); for a document all in the namespace it is the
    document itself. The store stays well linked and the nodes that were
    in it are as they were. *)
Theorem BasicParser_round_trip (RELAXNG_URI : string) (node : QualifiedTag)
  (children : list xml) (h : store) :
  linksAgree h ->
  tag_uri node = RELAXNG_URI ->
  let d := XElem node children in
  let t := XElem node (flat_map (kept RELAXNG_URI) children) in
  exists h' p' (r : ref),
    runEvents unit
      (BasicParser_event unit NullValidator_ontag NullValidator_ontag
         NullValidator_ontext RELAXNG_URI)
      (h, newBasicParser, tt) (events d) = Ret (h', p', tt) /\
    root h' p' = Ret (Some r) /\
    treeOf (S (height t)) h' r = Some t /\
    (allIn RELAXNG_URI d = true -> t = d) /\
    h !! r = None /\
    parent h' r = None /\
    linksAgree h' /\
    (forall y : ref, is_Some (h !! y) -> h' !! y = h !! y).
Proof.
  intros Hl Huri d t.
  destruct (parse_document RELAXNG_URI d h Hl) as (h' & rs & Hrun & Htr & Hl' & Hsame).
  assert (Hk : kept RELAXNG_URI d = [t]).
  { subst d t. cbn [kept]. by rewrite Huri, String.eqb_refl. }
  rewrite Hk in Htr.
  apply Forall2_cons_inv_r in Htr as (r & rs' & (Hr & Hfr & Hpar) & Hnil & ->).
  apply Forall2_nil_inv_r in Hnil as ->.
  exists h', {| bp_stack := [mkFrame None [r]]; bp_drop := 0 |}, r.
  split; [exact Hrun |]. split; [by eapply root_of_element |].
  split; [exact Hr |]. split; [| done].
  intros Hall. apply kept_allIn in Hall. rewrite Hk in Hall. congruence.
Qed.

(** An element of another namespace, with all that is in it, is skipped:
    its events leave the store and the parser as they were, whatever the
    parser holds. *)
Theorem foreign_element_is_skipped (RELAXNG_URI : string) (node : QualifiedTag)
  (children : list xml) (h : store) (p : BasicParser) :
  tag_uri node <> RELAXNG_URI ->
  runEvents unit
    (BasicParser_event unit NullValidator_ontag NullValidator_ontag
       NullValidator_ontext RELAXNG_URI)
    (h, p, tt) (events (XElem node children)) = Ret (h, p, tt).
Proof.
  intros Huri. apply String.eqb_neq in Huri.
  cbn [events runEvents]. cbn [BasicParser_event BasicParser_onopentag
                              NullValidator_ontag bind].
  rewrite Huri. cbn [negb orb bind].
  rewrite runEvents_app, run_dropped_list by done. cbn. by destruct p.
Qed.

Lemma BasicParser_round_trip_witness :
  exists h' p' (r : ref),
    runEvents unit
      (BasicParser_event unit NullValidator_ontag NullValidator_ontag
         NullValidator_ontext "urn:rng")
      (∅, newBasicParser, tt)
      (events (XElem (mkQualifiedTag "" "grammar" "urn:rng" ∅ ∅)
                 [XText "a"; XElem (mkQualifiedTag "" "x" "urn:other" ∅ ∅) [XText "b"];
                  XElem (mkQualifiedTag "" "start" "urn:rng" ∅ ∅) []])) =
    Ret (h', p', tt) /\
    root h' p' = Ret (Some r) /\
    treeOf 3 h' r =
    Some (XElem (mkQualifiedTag "" "grammar" "urn:rng" ∅ ∅)
            [XText "a"; XElem (mkQualifiedTag "" "start" "urn:rng" ∅ ∅) []]).
Proof.
  destruct (BasicParser_round_trip "urn:rng" (mkQualifiedTag "" "grammar" "urn:rng" ∅ ∅)
              [XText "a"; XElem (mkQualifiedTag "" "x" "urn:other" ∅ ∅) [XText "b"];
               XElem (mkQualifiedTag "" "start" "urn:rng" ∅ ∅) []] ∅
              (proj1 (invariant_linksAgree ∅)
                 ltac:(apply (bool_decide_unpack _); vm_compute; reflexivity))
              eq_refl)
    as (h' & p' & r & H1 & H2 & H3 & _).
  exists h', p', r. exact (conj H1 (conj H2 H3)).
Defined.

Lemma foreign_element_is_skipped_witness :
  runEvents unit
    (BasicParser_event unit NullValidator_ontag NullValidator_ontag
       NullValidator_ontext "urn:rng")
    (∅, newBasicParser, tt)
    (events (XElem (mkQualifiedTag "" "x" "urn:other" ∅ ∅)
               [XText "b"; XElem (mkQualifiedTag "" "start" "urn:rng" ∅ ∅) []])) =
  Ret (∅, newBasicParser, tt).
Proof.
  apply (foreign_element_is_skipped "urn:rng" (mkQualifiedTag "" "x" "urn:other" ∅ ∅)).
  cbn. discriminate.
Defined.

(** *** The parser of the conversion *)

Lemma bind_Ret_r {A : Type} (c : outcome A) : (let* x := c in Ret x) = c.
Proof. by destruct c. Qed.

Lemma strip_XElem node children :
  strip (XElem node children) =
  XElem node (flat_map (stripIn (tag_local node)) children).
Proof. done. Qed.

Lemma allIn_strip (RELAXNG_URI : string) (d : xml) :
  allIn RELAXNG_URI d = true -> allIn RELAXNG_URI (strip d) = true.
Proof.
  induction d as [text | node children IH] using xml_ind'; [done |].
  rewrite strip_XElem. cbn [allIn]. intros [Huri Hcs]%andb_true_iff.
  rewrite Huri. cbn [andb]. clear Huri.
  induction IH as [| c cs Hc _ IHcs]; [done |].
  cbn [forallb] in Hcs. apply andb_true_iff in Hcs as [Hc' Hcs].
  cbn [flat_map]. rewrite forallb_app, IHcs by done. rewrite andb_true_r.
  unfold stripIn. destruct (keepsText (tag_local node) c); [| done].
  cbn [forallb]. by rewrite Hc.
Qed.

Section ConversionRuns.

Variable RELAXNG_URI : string.
Hypothesis RELAXNG_URI_value : RELAXNG_URI = "http://relaxng.org/ns/structure/1.0".

Abbreviation event :=
  (BasicParser_event unit NullValidator_ontag NullValidator_ontag NullValidator_ontext
     RELAXNG_URI).
Abbreviation run := (runEvents unit event).
Abbreviation cevent :=
  (ConversionParser_event unit NullValidator_ontag NullValidator_ontag
     NullValidator_ontext RELAXNG_URI).
Abbreviation crun := (runEvents unit cevent).

(** The state between two events inside an element. *)
Lemma run_stripIn (local : string) (d : xml) (h : store) (p : BasicParser) top rest :
  bp_stack p = top :: rest -> bp_drop p = 0 -> parserInvariant h p ->
  exists h' (rs : list ref),
    run (h, p, tt) (flat_map events (stripIn local d)) =
    Ret (h', {| bp_stack := mkFrame (f_node top) (f_children top ++ rs) :: rest;
                bp_drop := 0 |}, tt) /\
    parserInvariant h'
      {| bp_stack := mkFrame (f_node top) (f_children top ++ rs) :: rest;
         bp_drop := 0 |}.
Proof.
  intros Hst Hdrop Hinv. unfold stripIn. destruct (keepsText local d).
  - destruct (run_kept RELAXNG_URI (strip d) h p top rest Hst Hdrop Hinv)
      as (h' & rs & Hrun & Hinv' & _).
    exists h', rs. cbn [flat_map]. by rewrite app_nil_r.
  - exists h, []. rewrite app_nil_r.
    assert (p = {| bp_stack := mkFrame (f_node top) (f_children top) :: rest;
                   bp_drop := 0 |}) as <-; [| done].
    destruct p, top. cbn in *. by subst.
Qed.

Lemma convert_as_basic (d : xml) :
  allIn RELAXNG_URI d = true ->
  forall (h : store) (p : BasicParser) top rest local,
    bp_stack p = top :: rest -> bp_drop p = 0 -> parserInvariant h p ->
    (forall text, d = XText text ->
                  rest <> [] /\ exists n, f_node top = Some n /\ tag_local n = local) ->
    crun (h, p, tt) (events d) = run (h, p, tt) (flat_map events (stripIn local d)).
Proof.
  induction d as [text | node children IH] using xml_ind';
    intros Hall h p top rest local Hst Hdrop Hinv Htext.
  - destruct (Htext text eq_refl) as (Hrest & n & Hn & <-).
    destruct rest as [| next rest']; [done |].
    cbn [events runEvents ConversionParser_event ConversionParser_ontext].
    rewrite Hst, Hdrop, Hn. cbn [length Nat.leb Nat.eqb negb orb].
    unfold stripIn. cbn [keepsText].
    destruct (String.eqb (tag_local n) "param" || String.eqb (tag_local n) "value"
              || grammar.hasNonWhitespace text); [| done].
    cbn [flat_map events app runEvents BasicParser_event]. done.
  - cbn [allIn] in Hall. apply andb_true_iff in Hall as [Huri Hcs].
    assert (Hchildren : forall (h : store) (p : BasicParser) top rest,
      bp_stack p = top :: rest -> bp_drop p = 0 -> parserInvariant h p ->
      rest <> [] -> f_node top = Some node ->
      crun (h, p, tt) (flat_map events children) =
      run (h, p, tt) (flat_map events (flat_map (stripIn (tag_local node)) children))).
    { clear h p top rest Hst Hdrop Hinv Htext Huri.
      induction IH as [| c cs Hc _ IHcs]; intros h p top rest Hst Hdrop Hinv Hrest Hn;
        [done |].
      cbn [forallb] in Hcs. apply andb_true_iff in Hcs as [Hc' Hcs].
      cbn [flat_map]. rewrite flat_map_app, !runEvents_app.
      rewrite (Hc Hc' h p top rest (tag_local node) Hst Hdrop Hinv)
        by (intros _ _; split; [done | by exists node]).
      destruct (run_stripIn (tag_local node) c h p top rest Hst Hdrop Hinv)
        as (h' & rs & -> & Hinv').
      cbn [bind].
      exact (IHcs Hcs h' {| bp_stack := mkFrame (f_node top) (f_children top ++ rs)
                                          :: rest; bp_drop := 0 |}
               (mkFrame (f_node top) (f_children top ++ rs)) rest
               eq_refl eq_refl Hinv' Hrest Hn). }
    unfold stripIn. cbn [keepsText flat_map]. rewrite strip_XElem, app_nil_r.
    cbn [events runEvents ConversionParser_event BasicParser_event].
    unfold ConversionParser_onopentag.
    apply String.eqb_eq in Huri.
    assert (String.eqb (tag_uri node) "http://relaxng.org/ns/structure/1.0" = true)
      as ->.
    { apply String.eqb_eq. by rewrite Huri. }
    cbn [negb]. cbn [BasicParser_onopentag NullValidator_ontag bind].
    rewrite Huri, String.eqb_refl, Hdrop. cbn [negb Nat.eqb orb bind].
    rewrite !runEvents_app.
    rewrite (Hchildren h _ (mkFrame (Some node) []) (top :: rest)); try done.
    + by rewrite Hst.
    + destruct Hinv as [Hl Hnd Hpen]. by split.
Qed.

(** *** A document that is not all in the namespace *)

Lemma convert_throws (d : xml) :
  allIn RELAXNG_URI d = false ->
  forall (h : store) (p : BasicParser) top rest,
    bp_stack p = top :: rest -> bp_drop p = 0 -> parserInvariant h p ->
    exists uri,
      uri <> "http://relaxng.org/ns/structure/1.0" /\
      crun (h, p, tt) (events d) =
      Throw (Error ("node in unexpected namespace: " ++ uri)).
Proof.
  induction d as [text | node children IH] using xml_ind';
    intros Hall h p top rest Hst Hdrop Hinv; [done |].
  cbn [allIn] in Hall.
  cbn [events runEvents ConversionParser_event]. unfold ConversionParser_onopentag.
  destruct (String.eqb (tag_uri node) RELAXNG_URI) eqn:Huri.
  - cbn [andb] in Hall. apply String.eqb_eq in Huri.
    assert (String.eqb (tag_uri node) "http://relaxng.org/ns/structure/1.0" = true)
      as ->.
    { apply String.eqb_eq. by rewrite Huri. }
    cbn [negb]. cbn [BasicParser_onopentag NullValidator_ontag bind].
    rewrite Huri, String.eqb_refl, Hdrop. cbn [negb Nat.eqb orb bind].
    rewrite runEvents_app.
    assert (Hchildren : forall (h : store) (p : BasicParser) top rest,
      bp_stack p = top :: rest -> bp_drop p = 0 -> parserInvariant h p ->
      rest <> [] -> f_node top = Some node ->
      exists uri,
        uri <> "http://relaxng.org/ns/structure/1.0" /\
        crun (h, p, tt) (flat_map events children) =
        Throw (Error ("node in unexpected namespace: " ++ uri))).
    { clear h p top rest Hst Hdrop Hinv Huri.
      induction IH as [| c cs Hc _ IHcs]; intros h p top rest Hst Hdrop Hinv Hrest Hn;
        [done |].
      cbn [forallb] in Hall. cbn [flat_map]. rewrite runEvents_app.
      destruct (allIn RELAXNG_URI c) eqn:Hc'.
      - rewrite (convert_as_basic c Hc' h p top rest (tag_local node) Hst Hdrop Hinv)
          by (intros _ _; split; [done | by exists node]).
        destruct (run_stripIn (tag_local node) c h p top rest Hst Hdrop Hinv)
          as (h' & rs & -> & Hinv').
        cbn [bind].
        exact (IHcs Hall h' {| bp_stack := mkFrame (f_node top) (f_children top ++ rs)
                                             :: rest; bp_drop := 0 |}
                 (mkFrame (f_node top) (f_children top ++ rs)) rest
                 eq_refl eq_refl Hinv' Hrest Hn).
      - destruct (Hc eq_refl h p top rest Hst Hdrop Hinv) as (uri & Hne & ->).
        by exists uri. }
    destruct (Hchildren h {| bp_stack := mkFrame (Some node) [] :: bp_stack p;
                             bp_drop := 0 |}
                (mkFrame (Some node) []) (top :: rest)) as (uri & Hne & ->); try done.
    + by rewrite Hst.
    + destruct Hinv as [Hl Hnd Hpen]. by split.
    + by exists uri.
  - exists (tag_uri node). apply String.eqb_neq in Huri.
    assert (Hne : tag_uri node <> "http://relaxng.org/ns/structure/1.0").
    { by rewrite <- RELAXNG_URI_value. }
    split; [done |]. apply String.eqb_neq in Hne. by rewrite Hne.
Qed.

End ConversionRuns.

(** [ConversionParser] on the events of a document that is all in the
    namespace of Relax NG: the run returns, [root] is a new element
    without parent, and the document read off [root] is the document
    without the text that is white space only, but for the text of the
    [param] and [value] elements. *)
Theorem ConversionParser_strips_whitespace (RELAXNG_URI : string)
  (node : QualifiedTag) (children : list xml) (h : store) :
  RELAXNG_URI = "http://relaxng.org/ns/structure/1.0" ->
  linksAgree h ->
  allIn RELAXNG_URI (XElem node children) = true ->
  let d := XElem node children in
  exists h' p' (r : ref),
    runEvents unit
      (ConversionParser_event unit NullValidator_ontag NullValidator_ontag
         NullValidator_ontext RELAXNG_URI)
      (h, newBasicParser, tt) (events d) = Ret (h', p', tt) /\
    root h' p' = Ret (Some r) /\
    treeOf (S (height (strip d))) h' r = Some (strip d) /\
    h !! r = None /\
    parent h' r = None /\
    linksAgree h' /\
    (forall y : ref, is_Some (h !! y) -> h' !! y = h !! y).
Proof.
  intros HURI Hl Hall d.
  rewrite (convert_as_basic RELAXNG_URI HURI d Hall h newBasicParser (mkFrame None [])
             [] "" eq_refl eq_refl (parserInvariant_new h Hl)) by done.
  pose proof (kept_allIn RELAXNG_URI (strip d) (allIn_strip RELAXNG_URI d Hall)) as Hk.
  destruct (parse_document RELAXNG_URI (strip d) h Hl)
    as (h' & rs & Hrun & Htr & Hl' & Hsame).
  rewrite Hk in Htr.
  apply Forall2_cons_inv_r in Htr as (r & rs' & (Hr & Hfr & Hpar) & Hnil & ->).
  apply Forall2_nil_inv_r in Hnil as ->.
  exists h', {| bp_stack := [mkFrame None [r]]; bp_drop := 0 |}, r.
  subst d. split; [| split; [| done]].
  - unfold stripIn. cbn [keepsText flat_map]. by rewrite app_nil_r.
  - rewrite strip_XElem in Hr. by eapply root_of_element.
Qed.

(** [ConversionParser] on the events of a document that has an element
    of another namespace, at whatever depth: the run throws the error of
    [onopentag], and there is no tree. *)
Theorem ConversionParser_rejects_foreign (RELAXNG_URI : string) (d : xml) (h : store) :
  RELAXNG_URI = "http://relaxng.org/ns/structure/1.0" ->
  linksAgree h ->
  allIn RELAXNG_URI d = false ->
  exists uri,
    uri <> "http://relaxng.org/ns/structure/1.0" /\
    runEvents unit
      (ConversionParser_event unit NullValidator_ontag NullValidator_ontag
         NullValidator_ontext RELAXNG_URI)
      (h, newBasicParser, tt) (events d) =
    Throw (Error ("node in unexpected namespace: " ++ uri)).
Proof.
  intros HURI Hl Hall.
  apply (convert_throws RELAXNG_URI HURI d Hall h newBasicParser (mkFrame None []) []
           eq_refl eq_refl (parserInvariant_new h Hl)).
Qed.

Lemma ConversionParser_strips_whitespace_witness :
  exists h' p' (r : ref),
    runEvents unit
      (ConversionParser_event unit NullValidator_ontag NullValidator_ontag
         NullValidator_ontext "http://relaxng.org/ns/structure/1.0")
      (∅, newBasicParser, tt)
      (events
         (XElem (mkQualifiedTag "" "grammar" "http://relaxng.org/ns/structure/1.0" ∅ ∅)
            [XText " ";
             XElem (mkQualifiedTag "" "value" "http://relaxng.org/ns/structure/1.0" ∅ ∅)
               [XText " "];
             XText "x"])) = Ret (h', p', tt) /\
    root h' p' = Ret (Some r) /\
    treeOf 3 h' r =
    Some (XElem (mkQualifiedTag "" "grammar" "http://relaxng.org/ns/structure/1.0" ∅ ∅)
            [XElem (mkQualifiedTag "" "value" "http://relaxng.org/ns/structure/1.0" ∅ ∅)
               [XText " "];
             XText "x"]).
Proof.
  destruct (ConversionParser_strips_whitespace "http://relaxng.org/ns/structure/1.0"
              (mkQualifiedTag "" "grammar" "http://relaxng.org/ns/structure/1.0" ∅ ∅)
              [XText " ";
               XElem (mkQualifiedTag "" "value" "http://relaxng.org/ns/structure/1.0"
                        ∅ ∅) [XText " "];
               XText "x"] ∅ eq_refl
              (proj1 (invariant_linksAgree ∅)
                 ltac:(apply (bool_decide_unpack _); vm_compute; reflexivity))
              eq_refl)
    as (h' & p' & r & H1 & H2 & H3 & _).
  exists h', p', r. exact (conj H1 (conj H2 H3)).
Defined.

Lemma ConversionParser_rejects_foreign_witness :
  exists uri,
    uri <> "http://relaxng.org/ns/structure/1.0" /\
    runEvents unit
      (ConversionParser_event unit NullValidator_ontag NullValidator_ontag
         NullValidator_ontext "http://relaxng.org/ns/structure/1.0")
      (∅, newBasicParser, tt)
      (events
         (XElem (mkQualifiedTag "" "grammar" "http://relaxng.org/ns/structure/1.0" ∅ ∅)
            [XText "x";
             XElem (mkQualifiedTag "" "start" "http://relaxng.org/ns/structure/1.0" ∅ ∅)
               [XElem (mkQualifiedTag "a" "doc" "urn:annotations" ∅ ∅) []]])) =
    Throw (Error ("node in unexpected namespace: " ++ uri)).
Proof.
  apply (ConversionParser_rejects_foreign "http://relaxng.org/ns/structure/1.0"
           (XElem (mkQualifiedTag "" "grammar" "http://relaxng.org/ns/structure/1.0" ∅ ∅)
              [XText "x";
               XElem (mkQualifiedTag "" "start" "http://relaxng.org/ns/structure/1.0"
                        ∅ ∅)
                 [XElem (mkQualifiedTag "a" "doc" "urn:annotations" ∅ ∅) []]])
           ∅ eq_refl
           (proj1 (invariant_linksAgree ∅)
              ltac:(apply (bool_decide_unpack _); vm_compute; reflexivity))
           eq_refl).
Defined.

(** *** Copies *)

Lemma parent_unchanged (h h' : store) (y : ref) :
  h' !! y = h !! y -> parent h' y = parent h y.
Proof. intros Hy. unfold parent. by rewrite Hy. Qed.

(** [clone()] of a node that is the root of a tree, in a well-linked
    store: the call returns a new node without parent that stands for the
    same document as the node it was called on (the same tags,
    attributes, text and order); the store stays well linked and no node
    that was in it is touched. *)
Theorem clone_copies_the_tree fuel : forall (h : store) (node : ref) (t : xml),
  linksAgree h ->
  treeOf fuel h node = Some t ->
  exists h' (r : ref),
    clone fuel h node = Ret (h', r) /\
    treeOf fuel h' r = Some t /\
    h !! r = None /\
    parent h' r = None /\
    linksAgree h' /\
    (forall y : ref, is_Some (h !! y) -> h' !! y = h !! y).
Proof.
  induction fuel as [| fuel IH]; intros h node t Hl Htree; [done |].
  rewrite treeOf_S in Htree. cbn [clone].
  destruct (h !! node) as [[e | tx] |] eqn:Hnode; [| | done].
  - destruct (mapM (treeOf fuel h) (children e)) as [ts |] eqn:Hm; [| done].
    cbn in Htree. injection Htree as <-. apply mapM_Some in Hm.
    assert (Hall : forall cs ts (h : store),
      linksAgree h ->
      Forall2 (fun c t => treeOf fuel h c = Some t) cs ts ->
      exists h' (rs : list ref),
        mapNodes (clone fuel) h cs = Ret (h', rs) /\
        Forall2 (fun r t => treeOf fuel h' r = Some t) rs ts /\
        NoDup rs /\
        (forall r : ref, r ∈ rs ->
                         h !! r = None /\ is_Some (h' !! r) /\ parent h' r = None) /\
        linksAgree h' /\
        (forall y : ref, is_Some (h !! y) -> h' !! y = h !! y)).
    { clear h node e Hl Hnode ts Hm.
      induction cs as [| c cs IHcs]; intros ts h Hl Htr.
      - apply Forall2_nil_inv_l in Htr as ->. exists h, [].
        split; [done |]. split; [constructor |]. split; [apply NoDup_nil_2 |].
        split; [| done]. intros r Hr. by apply elem_of_nil in Hr.
      - apply Forall2_cons_inv_l in Htr as (t1 & ts' & Ht1 & Hts & ->).
        destruct (IH h c t1 Hl Ht1) as (h1 & r1 & Hc1 & Htr1 & Hfr1 & Hp1 & Hl1 & Hsame1).
        assert (Hts1 : Forall2 (fun c t => treeOf fuel h1 c = Some t) cs ts').
        { eapply Forall2_impl; [exact Hts |]. intros c' t'.
          apply treeOf_keepsShapes. by apply keepsShapes_unchanged. }
        destruct (IHcs ts' h1 Hl1 Hts1)
          as (h2 & rs & Hrun2 & Htr2 & Hnd2 & Hfr2 & Hl2 & Hsame2).
        assert (Hr1 : is_Some (h1 !! r1)).
        { destruct fuel; [done |]. rewrite treeOf_S in Htr1.
          destruct (h1 !! r1); [by eexists | done]. }
        exists h2, (r1 :: rs). cbn [mapNodes]. rewrite Hc1. cbn [bind]. rewrite Hrun2.
        cbn [bind]. split; [done |]. split; [| split; [| split; [| split]]].
        + constructor; [| done]. eapply treeOf_keepsShapes; [| exact Htr1].
          by apply keepsShapes_unchanged.
        + apply NoDup_cons. split; [| done]. intros Hin.
          apply Hfr2 in Hin as [Hnone _]. rewrite Hnone in Hr1. by destruct Hr1.
        + intros r [-> | Hr]%elem_of_cons.
          * split; [done |]. split; [by rewrite Hsame2 |].
            rewrite (parent_unchanged h1 h2); [done | by apply Hsame2].
          * destruct (Hfr2 r Hr) as (Hnone & Hsome & Hpar).
            split; [| done]. destruct (h !! r) as [n |] eqn:Hhr; [| done].
            rewrite Hsame1 in Hnone; [| by rewrite Hhr]. congruence.
        + done.
        + intros y Hy. rewrite Hsame2, Hsame1; [done | done |]. by rewrite Hsame1. }
    destruct (Hall (children e) ts h Hl Hm)
      as (h2 & rs & -> & Htr2 & Hnd2 & Hfr2 & Hl2 & Hsame2).
    cbn [bind].
    change (newElement h2 (prefix e) (local e) (uri e) (ns e) (attributes e) rs)
      with (fromSax h2 (tagOf e) rs).
    assert (Hrs : forall c : ref, c ∈ rs -> is_Some (h2 !! c) /\ parent h2 c = None).
    { intros c Hc. by destruct (Hfr2 c Hc) as (_ & ? & ?). }
    pose proof (fromSax_linksAgree h2 (tagOf e) rs Hl2 Hnd2 Hrs) as Hl3.
    destruct (fromSax_views h2 (tagOf e) rs)
      as (Hr & (e' & He' & Htag & Hch) & Hk & Hsame3 & Hp & Hc & Hd).
    { intros c Hc'. by apply Hrs. }
    exists (fst (fromSax h2 (tagOf e) rs)), (snd (fromSax h2 (tagOf e) rs)).
    set (h3 := fst (fromSax h2 (tagOf e) rs)) in *.
    set (r := snd (fromSax h2 (tagOf e) rs)) in *.
    split; [by rewrite (surjective_pairing (fromSax h2 (tagOf e) rs)) |].
    split; [| split; [| split; [| split; [done |]]]].
    + rewrite treeOf_S, He', Htag, Hch.
      assert (mapM (treeOf fuel h3) rs = Some ts) as ->; [| done].
      apply mapM_Some. eapply Forall2_impl; [exact Htr2 |]. intros c' t'.
      by apply treeOf_keepsShapes.
    + destruct (h !! r) as [n |] eqn:Hhr; [| done].
      rewrite Hsame2 in Hr; [| by rewrite Hhr]. congruence.
    + rewrite Hp, decide_False; [by apply parent_absent |].
      intros Hin. apply Hrs in Hin as [Hsome _]. rewrite Hr in Hsome.
      by destruct Hsome.
    + intros y Hy. rewrite Hsame3, Hsame2; [done | done | | by rewrite Hsame2].
      intros Hin. apply Hfr2 in Hin as [Hnone _]. rewrite Hnone in Hy.
      by destruct Hy.
  - injection Htree as <-.
    destruct (newText_views h (text tx)) as (Ht & Ht' & Hsame & Hp & Hc).
    exists (fst (newText h (text tx))), (snd (newText h (text tx))).
    set (h' := fst (newText h (text tx))) in *.
    set (r := snd (newText h (text tx))) in *.
    split; [by rewrite (surjective_pairing (newText h (text tx))) |].
    split; [by rewrite treeOf_S, Ht' |]. split; [done |].
    split; [rewrite Hp; by apply parent_absent |]. split; [| done].
    destruct Hl as [H1 H2 H3]. split.
    + intros q c. rewrite Hc, Hp. apply H1.
    + intros c q. rewrite Hc, Hp. apply H2.
    + intros q. rewrite Hc. apply H3.
Qed.

Lemma clone_copies_the_tree_witness :
  exists h' (r : ref),
    clone 2 (<[0 := ElementNode (mkElement None None "" "value" "" ∅ ∅ [1])]>
               (<[1 := TextNode (mkText (Some 0) "x")]> ∅)) 0 = Ret (h', r) /\
    treeOf 2 h' r = Some (XElem (mkQualifiedTag "" "value" "" ∅ ∅) [XText "x"]) /\
    parent h' r = None.
Proof.
  assert (Hl : linksAgree
                 (<[0 := ElementNode (mkElement None None "" "value" "" ∅ ∅ [1])]>
                    (<[1 := TextNode (mkText (Some 0) "x")]> ∅))).
  { apply invariant_linksAgree. apply (bool_decide_unpack _). vm_compute.
    reflexivity. }
  destruct (clone_copies_the_tree 2
              (<[0 := ElementNode (mkElement None None "" "value" "" ∅ ∅ [1])]>
                 (<[1 := TextNode (mkText (Some 0) "x")]> ∅)) 0
              (XElem (mkQualifiedTag "" "value" "" ∅ ∅) [XText "x"])
              Hl ltac:(vm_compute; reflexivity))
    as (h' & r & H1 & H2 & _ & H3 & _).
  exists h', r. exact (conj H1 (conj H2 H3)).
Defined.

End parser_facts.

(** ** Step 10 *)

Module step10_facts.
Import parser step10 parser_facts.

Section Diverges.

Variable findDescendantsByLocalName : store -> ref -> string -> list ref.
Variable findMultiDescendantsByLocalName :
  store -> ref -> list string -> string -> list ref.
Variable findMultiNames : store -> ref -> list string -> string -> list ref.
Variable XMLNS_NAMESPACE : string.

Abbreviation walk' :=
  (walk findDescendantsByLocalName findMultiDescendantsByLocalName
     findMultiNames XMLNS_NAMESPACE).
Abbreviation step10' :=
  (step10 findDescendantsByLocalName findMultiDescendantsByLocalName
     findMultiNames XMLNS_NAMESPACE).







(** A [choice], [group] or [interleave] with exactly one child that is
    itself the child of another element is replaced by its child, at the
    place it had, and [walk] returns this child for a further walk; the
    parent/child invariant is kept. *)
Lemma walk_replaces_single_child fuel check (h : store) el0 e c p :
  linksAgree h ->
  h !! el0 = Some (ElementNode e) ->
  isCombinator (local e) = true ->
  children e = [c] ->
  parent h el0 = Some p -> p <> el0 ->
  exists h' i,
    walk' (S fuel) check h el0 = Ret (h', Some c) /\
    linksAgree h' /\
    childrenOf h p !! i = Some el0 /\
    childrenOf h' p = <[i := c]> (childrenOf h p) /\
    parent h' c = Some p /\
    parent h' el0 = None.
Proof.
  intros Hinv Hel Hc Hcs Hp Hne.
  assert (Hch : childrenOf h el0 = [c]) by (unfold childrenOf; by rewrite Hel).
  assert (Hin : c ∈ childrenOf h el0) by (rewrite Hch; by left).
  destruct (replaceChildWith_keeps h p el0 c Hinv Hp)
    as (h' & i & Hr & Hinv' & Hi & Hcs' & Hpc & Hpe).
  { by eapply children_in_store. }
  { rewrite (children_parent h Hinv el0 c Hin). congruence. }
  exists h', i. split; [| done].
  cbn [walk]. rewrite Hel. unfold rewrite. rewrite Hc, Hch, Hp, Hr. done.
Qed.


End Diverges.



(** *** The first step of [walk] *)

Lemma linksAgree_ext (h h' : store) :
  (forall y, parent h' y = parent h y) ->
  (forall y, childrenOf h' y = childrenOf h y) ->
  linksAgree h -> linksAgree h'.
Proof.
  intros Hp Hc [H1 H2 H3]. split.
  - intros p c. rewrite Hc, Hp. apply H1.
  - intros c p. rewrite Hc, Hp. apply H2.
  - intros p. rewrite Hc. apply H3.
Qed.

(** The element that [makeElement] makes: a new object with the name, no
    parent and no children; nothing else changes. *)
Lemma makeElement_views (h : store) name :
  let h1 := fst (makeElement h name) in
  let r := snd (makeElement h name) in
  h !! r = None /\
  (forall y, parent h1 y = parent h y) /\
  (forall y, childrenOf h1 y = childrenOf h y) /\
  (forall y, isElement h1 y = if decide (y = r) then true else isElement h y) /\
  (forall y, localOf h1 y = if decide (y = r) then Some name else localOf h y) /\
  (forall y, is_Some (h1 !! y) <-> y = r \/ is_Some (h !! y)) /\
  (linksAgree h -> linksAgree h1).
Proof.
  cbn. set (r := fresh (dom h)).
  assert (Hr : h !! r = None) by (apply not_elem_of_dom, is_fresh).
  assert (Hp : forall y, parent (<[r := ElementNode (mkElement None None "" name "" ∅ ∅ [])]> h) y
                         = parent h y).
  { intros y. unfold parent. destruct (decide (r = y)) as [<- | Hne].
    - by rewrite lookup_insert_eq, Hr.
    - by rewrite lookup_insert_ne. }
  assert (Hc : forall y, childrenOf (<[r := ElementNode (mkElement None None "" name "" ∅ ∅ [])]> h) y
                         = childrenOf h y).
  { intros y. unfold childrenOf. destruct (decide (r = y)) as [<- | Hne].
    - by rewrite lookup_insert_eq, Hr.
    - by rewrite lookup_insert_ne. }
  split; [done |]. split; [done |]. split; [done |].
  split; [| split; [| split]].
  - intros y. unfold isElement. destruct (decide (y = r)) as [-> | Hne].
    + by rewrite lookup_insert_eq.
    + by rewrite lookup_insert_ne.
  - intros y. unfold localOf. destruct (decide (y = r)) as [-> | Hne].
    + by rewrite lookup_insert_eq.
    + by rewrite lookup_insert_ne.
  - intros y. rewrite lookup_insert_is_Some. split.
    + intros [<- | [_ H]]; [by left | by right].
    + intros [-> | H]; [by left |]. destruct (decide (r = y)); [by left | by right].
  - by apply linksAgree_ext.
Qed.

Lemma setLocal_views (h : store) el name :
  (forall y, parent (setLocal h el name) y = parent h y) /\
  (forall y, childrenOf (setLocal h el name) y = childrenOf h y) /\
  (forall y, isElement (setLocal h el name) y = isElement h y) /\
  (forall y, localOf (setLocal h el name) y =
             if decide (y = el /\ isElement h el = true) then Some name
             else localOf h y) /\
  (forall y, is_Some (setLocal h el name !! y) <-> is_Some (h !! y)) /\
  (linksAgree h -> linksAgree (setLocal h el name)).
Proof.
  assert (Hp : forall y, parent (setLocal h el name) y = parent h y).
  { intros y. unfold parent, setLocal.
    destruct (h !! el) as [[e | t] |] eqn:Hel; try done.
    destruct (decide (el = y)) as [<- | Hne].
    - by rewrite lookup_insert_eq, Hel.
    - by rewrite lookup_insert_ne. }
  assert (Hc : forall y, childrenOf (setLocal h el name) y = childrenOf h y).
  { intros y. unfold childrenOf, setLocal.
    destruct (h !! el) as [[e | t] |] eqn:Hel; try done.
    destruct (decide (el = y)) as [<- | Hne].
    - by rewrite lookup_insert_eq, Hel.
    - by rewrite lookup_insert_ne. }
  split; [done |]. split; [done |]. split; [| split; [| split]].
  - intros y. unfold isElement, setLocal.
    destruct (h !! el) as [[e | t] |] eqn:Hel; try done.
    destruct (decide (el = y)) as [<- | Hne].
    + by rewrite lookup_insert_eq, Hel.
    + by rewrite lookup_insert_ne.
  - intros y. unfold localOf, setLocal, isElement.
    destruct (h !! el) as [[e | t] |] eqn:Hel.
    + destruct (decide (y = el)) as [-> | Hne].
      * rewrite lookup_insert_eq. by rewrite decide_True.
      * rewrite lookup_insert_ne by done. rewrite decide_False; [done |].
        by intros [? _].
    + rewrite decide_False; [done |]. by intros [_ ?].
    + rewrite decide_False; [done |]. by intros [_ ?].
  - intros y. unfold setLocal.
    destruct (h !! el) as [[e | t] |] eqn:Hel; try done.
    rewrite lookup_insert_is_Some. split.
    + intros [<- | [_ H]]; [by eexists | done].
    + intros H. destruct (decide (el = y)); [by left | by right].
  - by apply linksAgree_ext.
Qed.

Lemma fresh_not_child (h : store) r :
  linksAgree h -> h !! r = None -> forall y, without r (childrenOf h y) = childrenOf h y.
Proof.
  intros Hinv Hr y. apply without_notin. intros Hin.
  apply (children_in_store h y r Hinv) in Hin. rewrite Hr in Hin. by destruct Hin.
Qed.

(** [const t = Element.makeElement(name); el.appendChild(t);] *)
Lemma appendNew_spec (h : store) el name :
  linksAgree h -> isElement h el = true ->
  let h1 := fst (makeElement h name) in
  let t := snd (makeElement h name) in
  exists h',
    appendChild h1 el t = Ret h' /\ h !! t = None /\ linksAgree h' /\
    childrenOf h' el = childrenOf h el ++ [t] /\
    (forall y, y <> el -> childrenOf h' y = childrenOf h y) /\
    (forall y, parent h' y = if decide (y = t) then Some el else parent h y) /\
    (forall y, isElement h' y = if decide (y = t) then true else isElement h y) /\
    (forall y, localOf h' y = if decide (y = t) then Some name else localOf h y) /\
    (forall y, is_Some (h' !! y) <-> y = t \/ is_Some (h !! y)).
Proof.
  intros Hinv Hel.
  destruct (makeElement_views h name) as (Hr & Hp1 & Hc1 & He1 & Hl1 & Hd1 & Hinv1).
  set (h1 := fst (makeElement h name)) in *.
  set (t := snd (makeElement h name)) in *. cbv zeta.
  assert (Hne : el <> t).
  { intros ->. unfold isElement in Hel. by rewrite Hr in Hel. }
  destruct (appendChild_spec h1 el t (Hinv1 Hinv)) as (h' & Ha & Hinv' & Hp & Hc & Hd & He & Hl).
  { rewrite He1. by rewrite decide_False. }
  { apply Hd1. by left. }
  exists h'. split; [done |]. split; [done |]. split; [done |].
  split; [| split; [| split; [| split; [| split]]]].
  - rewrite Hc, decide_True by done. by rewrite Hc1, fresh_not_child.
  - intros y Hy. rewrite Hc, decide_False by done. by rewrite Hc1, fresh_not_child.
  - intros y. rewrite Hp. by rewrite Hp1.
  - intros y. by rewrite He, He1.
  - intros y. by rewrite Hl, Hl1.
  - intros y. rewrite is_Some_dom, Hd, <- is_Some_dom. apply Hd1.
Qed.

(** [const g = Element.makeElement(name); g.grabChildren(el);
    el.appendChild(g);] *)
Lemma wrapInto_spec (h : store) el name :
  linksAgree h -> isElement h el = true ->
  let h1 := fst (grabInto h el name) in
  let g := snd (grabInto h el name) in
  exists h',
    appendChild h1 el g = Ret h' /\ h !! g = None /\ linksAgree h' /\
    childrenOf h' el = [g] /\
    childrenOf h' g = childrenOf h el /\
    (forall y, y <> el -> y <> g -> childrenOf h' y = childrenOf h y) /\
    (forall y, parent h' y =
               if decide (y = g) then Some el
               else if decide (y ∈ childrenOf h el) then Some g else parent h y) /\
    (forall y, isElement h' y = if decide (y = g) then true else isElement h y) /\
    (forall y, localOf h' y = if decide (y = g) then Some name else localOf h y) /\
    (forall y, is_Some (h' !! y) <-> y = g \/ is_Some (h !! y)).
Proof.
  intros Hinv Hel. unfold grabInto.
  destruct (makeElement_views h name) as (Hr & Hp1 & Hc1 & He1 & Hl1 & Hd1 & Hinv1).
  destruct (makeElement h name) as [h1 g] eqn:Hmk. cbn [fst snd] in *.
  assert (Hne : el <> g).
  { intros ->. unfold isElement in Hel. by rewrite Hr in Hel. }
  destruct (grabChildren_spec h1 g el (Hinv1 Hinv))
    as (Hinv2 & Hcg & Hce & Hco & Hp2 & Hd2 & He2 & Hl2); [| done |].
  { rewrite He1. by rewrite decide_True. }
  set (h2 := grabChildren h1 g el) in *.
  destruct (appendChild_spec h2 el g Hinv2) as (h' & Ha & Hinv' & Hp & Hc & Hd & He & Hl).
  { rewrite He2, He1. by rewrite decide_False. }
  { apply is_Some_dom. rewrite Hd2. apply is_Some_dom, Hd1. by left. }
  assert (Hg : g ∉ childrenOf h el).
  { intros Hin. apply (children_in_store h el g Hinv) in Hin. rewrite Hr in Hin.
    by destruct Hin. }
  exists h'. split; [done |]. split; [done |]. split; [done |].
  split; [| split; [| split; [| split; [| split; [| split]]]]].
  - rewrite Hc, decide_True by done. by rewrite Hce.
  - rewrite Hc, decide_False by done. rewrite Hcg, !Hc1.
    rewrite (childrenOf_not_element h g) by (unfold isElement; by rewrite Hr).
    by apply without_notin.
  - intros y Hy1 Hy2. rewrite Hc, decide_False by done. rewrite Hco by done.
    by rewrite Hc1, fresh_not_child.
  - intros y. rewrite Hp. destruct (decide (y = g)); [done |].
    rewrite Hp2, Hc1, Hp1. done.
  - intros y. by rewrite He, He2, He1.
  - intros y. by rewrite Hl, Hl2, Hl1.
  - intros y. rewrite is_Some_dom, Hd, Hd2, <- is_Some_dom. apply Hd1.
Qed.

Section Rewrite.
Variable findDescendantsByLocalName : store -> ref -> string -> list ref.
Variable findMultiDescendantsByLocalName :
  store -> ref -> list string -> string -> list ref.
Variable findMultiNames : store -> ref -> list string -> string -> list ref.
Variable XMLNS_NAMESPACE : string.

Abbreviation rewrite' :=
  (step10.rewrite findDescendantsByLocalName findMultiDescendantsByLocalName
     findMultiNames XMLNS_NAMESPACE).

(** The first step of [walk] on a [define], [oneOrMore] or [list] element
    with more than one child wraps the children in a new [group] element,
    and on an [except] element in a new [choice] element: the new element
    is the only child, it holds the former children in their order and is
    their parent; nothing else changes, and the links agree. With one child
    or none the tree is left as it is. *)
Theorem rewrite_wraps_children (fuel : nat) (check : bool) (h : store) (el : ref)
  (local wrapper : string) :
  linksAgree h ->
  isElement h el = true ->
  (local = "define" \/ local = "oneOrMore" \/ local = "list") /\ wrapper = "group" \/
  local = "except" /\ wrapper = "choice" ->
  (length (childrenOf h el) <= 1 ->
   rewrite' fuel check h el local = Ret (h, None)) /\
  (1 < length (childrenOf h el) ->
   exists h' g,
     rewrite' fuel check h el local = Ret (h', None) /\
     h !! g = None /\ linksAgree h' /\
     localOf h' g = Some wrapper /\
     childrenOf h' el = [g] /\
     childrenOf h' g = childrenOf h el /\
     parent h' g = Some el /\
     (forall c, c ∈ childrenOf h el -> parent h' c = Some g) /\
     (forall y, y <> g -> y ∉ childrenOf h el -> parent h' y = parent h y) /\
     (forall y, y <> el -> y <> g -> childrenOf h' y = childrenOf h y) /\
     (forall y, y <> g -> localOf h' y = localOf h y)).
Proof.
  intros Hinv Hel Hlocal.
  assert (Hbody : forall name,
             (length (childrenOf h el) <= 1 ->
              (let* h0 := if Nat.ltb 1 (length (childrenOf h el))
                          then let '(h0, group) := grabInto h el name in
                               appendChild h0 el group
                          else Ret h in
               Ret (h0, @None ref)) = Ret (h, None)) /\
             (1 < length (childrenOf h el) ->
              exists h' g,
                (let* h0 := if Nat.ltb 1 (length (childrenOf h el))
                            then let '(h0, group) := grabInto h el name in
                                 appendChild h0 el group
                            else Ret h in
                 Ret (h0, @None ref)) = Ret (h', None) /\
                h !! g = None /\ linksAgree h' /\
                localOf h' g = Some name /\
                childrenOf h' el = [g] /\
                childrenOf h' g = childrenOf h el /\
                parent h' g = Some el /\
                (forall c, c ∈ childrenOf h el -> parent h' c = Some g) /\
                (forall y, y <> g -> y ∉ childrenOf h el -> parent h' y = parent h y) /\
                (forall y, y <> el -> y <> g -> childrenOf h' y = childrenOf h y) /\
                (forall y, y <> g -> localOf h' y = localOf h y))).
  { intros name. split.
    - intros Hn. destruct (Nat.ltb_spec 1 (length (childrenOf h el))); [lia | done].
    - intros Hn. destruct (Nat.ltb_spec 1 (length (childrenOf h el))); [| lia].
      destruct (wrapInto_spec h el name Hinv Hel)
        as (h' & Ha & Hg & Hinv' & Hce & Hcg & Hco & Hp & _ & Hl & _).
      destruct (grabInto h el name) as [h1 g]. cbn [fst snd] in *.
      exists h', g. rewrite Ha. split; [done |]. split; [done |]. split; [done |].
      split; [by rewrite Hl, decide_True |]. split; [done |]. split; [done |].
      split; [by rewrite Hp, decide_True |].
      assert (Hgc : g ∉ childrenOf h el).
      { intros Hin. apply (children_in_store h el g Hinv) in Hin.
        rewrite Hg in Hin. by destruct Hin. }
      split; [| split; [| split]].
      + intros c Hc. rewrite Hp. rewrite decide_False by (by intros ->).
        by rewrite decide_True.
      + intros y Hy1 Hy2. rewrite Hp. by rewrite !decide_False.
      + done.
      + intros y Hy. rewrite Hl. by rewrite decide_False. }
  unfold step10.rewrite.
  destruct Hlocal as [[[-> | [-> | ->]] ->] | [-> ->]];
    cbn [isCombinator String.eqb Ascii.eqb Bool.eqb andb orb]; apply Hbody.
Qed.

End Rewrite.

Lemma rewrite_wraps_children_witness :
  exists h' g,
    step10.rewrite noDescendants noMulti noMulti "" 0 false defineOfTwo 0 "define"
      = Ret (h', None) /\
    defineOfTwo !! g = None /\ linksAgree h' /\
    localOf h' g = Some "group" /\
    childrenOf h' 0 = [g] /\
    childrenOf h' g = childrenOf defineOfTwo 0.
Proof.
  destruct (proj2 (rewrite_wraps_children noDescendants noMulti noMulti "" 0 false
                     defineOfTwo 0 "define" "group"
                     (proj1 (invariant_linksAgree defineOfTwo)
                        ltac:(apply (bool_decide_unpack _); vm_compute; reflexivity))
                     eq_refl ltac:(left; split; [by left | done]))
              ltac:(vm_compute; lia))
    as (h' & g & H1 & H2 & H3 & H4 & H5 & H6 & _).
  exists h', g. exact (conj H1 (conj H2 (conj H3 (conj H4 (conj H5 H6))))).
Defined.

Lemma in_store_not_fresh (h : store) (x r : ref) :
  is_Some (h !! x) -> h !! r = None -> x <> r.
Proof. intros Hx Hr ->. rewrite Hr in Hx. by destruct Hx. Qed.

Section Rewrite2.
Variable findDescendantsByLocalName : store -> ref -> string -> list ref.
Variable findMultiDescendantsByLocalName :
  store -> ref -> list string -> string -> list ref.
Variable findMultiNames : store -> ref -> list string -> string -> list ref.
Variable XMLNS_NAMESPACE : string.

Abbreviation rewrite' :=
  (step10.rewrite findDescendantsByLocalName findMultiDescendantsByLocalName
     findMultiNames XMLNS_NAMESPACE).

(** The first step of [walk] on an [optional] element makes it a [choice]
    whose last child is a new [empty] element, and on a [mixed] element an
    [interleave] whose last child is a new [text] element. The children
    that were there stay in front of it when there is at most one, and are
    wrapped in a new [group] element when there are more. The links agree
    afterwards. *)
Theorem rewrite_optional_mixed (fuel : nat) (check : bool) (h : store) (el : ref)
  (local newLocal lastLocal : string) :
  linksAgree h ->
  isElement h el = true ->
  local = "optional" /\ newLocal = "choice" /\ lastLocal = "empty" \/
  local = "mixed" /\ newLocal = "interleave" /\ lastLocal = "text" ->
  exists h' t,
    rewrite' fuel check h el local = Ret (h', None) /\
    h !! t = None /\ linksAgree h' /\
    localOf h' el = Some newLocal /\
    localOf h' t = Some lastLocal /\
    childrenOf h' t = [] /\
    parent h' t = Some el /\
    (length (childrenOf h el) <= 1 ->
     childrenOf h' el = childrenOf h el ++ [t] /\
     (forall y, y <> t -> parent h' y = parent h y) /\
     (forall y, y <> el -> childrenOf h' y = childrenOf h y)) /\
    (1 < length (childrenOf h el) ->
     exists g,
       h !! g = None /\ g <> t /\
       localOf h' g = Some "group" /\
       childrenOf h' el = [g; t] /\
       childrenOf h' g = childrenOf h el /\
       parent h' g = Some el /\
       (forall c, c ∈ childrenOf h el -> parent h' c = Some g) /\
       (forall y, y <> el -> y <> g -> childrenOf h' y = childrenOf h y)).
Proof.
  intros Hinv Hel Hlocal.
  assert (Hbody :
    exists h' t,
      (let h0 := setLocal h el newLocal in
       let* h1 := if Nat.ltb 1 (length (childrenOf h el))
                  then let '(h1, group) := grabInto h0 el "group" in
                       appendChild h1 el group
                  else Ret h0 in
       let '(h2, lastEl) := makeElement h1 lastLocal in
       let* h3 := appendChild h2 el lastEl in
       Ret (h3, @None ref)) = Ret (h', None) /\
      h !! t = None /\ linksAgree h' /\
      localOf h' el = Some newLocal /\
      localOf h' t = Some lastLocal /\
      childrenOf h' t = [] /\
      parent h' t = Some el /\
      (length (childrenOf h el) <= 1 ->
       childrenOf h' el = childrenOf h el ++ [t] /\
       (forall y, y <> t -> parent h' y = parent h y) /\
       (forall y, y <> el -> childrenOf h' y = childrenOf h y)) /\
      (1 < length (childrenOf h el) ->
       exists g,
         h !! g = None /\ g <> t /\
         localOf h' g = Some "group" /\
         childrenOf h' el = [g; t] /\
         childrenOf h' g = childrenOf h el /\
         parent h' g = Some el /\
         (forall c, c ∈ childrenOf h el -> parent h' c = Some g) /\
         (forall y, y <> el -> y <> g -> childrenOf h' y = childrenOf h y))).
  { cbv zeta.
    destruct (setLocal_views h el newLocal) as (Hp0 & Hc0 & He0 & Hl0 & Hd0 & Hinv0).
    set (h0 := setLocal h el newLocal) in *.
    assert (Hel0 : isElement h0 el = true) by (by rewrite He0).
    assert (Hinel : is_Some (h !! el)).
    { unfold isElement in Hel. destruct (h !! el); [by eexists | done]. }
    destruct (Nat.ltb_spec 1 (length (childrenOf h el))) as [Hn | Hn].
    - (* more than one child *)
      destruct (wrapInto_spec h0 el "group" (Hinv0 Hinv) Hel0)
        as (h1 & Ha & Hg & Hinv1 & Hce1 & Hcg1 & Hco1 & Hp1 & He1 & Hl1 & Hd1).
      destruct (grabInto h0 el "group") as [h0' g]. cbn [fst snd] in *.
      rewrite Ha. cbn [bind].
      assert (Hel1 : isElement h1 el = true).
      { rewrite He1. destruct (decide (el = g)); [done | by rewrite He0]. }
      destruct (appendNew_spec h1 el lastLocal Hinv1 Hel1)
        as (h' & Ha' & Ht & Hinv' & Hce & Hco & Hp & He & Hl & Hd).
      destruct (makeElement h1 lastLocal) as [h2 t]. cbn [fst snd] in *.
      rewrite Ha'. cbn [bind].
      assert (Hgh : h !! g = None).
      { destruct (h !! g) eqn:E; [| done]. assert (is_Some (h0 !! g)) as [? ?]
          by (apply Hd0; by eexists). congruence. }
      assert (Hgt : g <> t).
      { apply (in_store_not_fresh h1); [| done]. apply Hd1. by left. }
      assert (Hth : h !! t = None).
      { destruct (h !! t) eqn:E; [| done].
        assert (is_Some (h1 !! t)) as [? ?]
          by (apply Hd1; right; apply Hd0; by eexists). congruence. }
      assert (Helt : el <> t) by (by apply (in_store_not_fresh h)).
      assert (Helg : el <> g) by (by apply (in_store_not_fresh h)).
      exists h', t. split; [done |]. split; [done |]. split; [done |].
      split; [| split; [| split; [| split; [| split]]]].
      + rewrite Hl, decide_False by done. rewrite Hl1, decide_False by done.
        rewrite Hl0. by rewrite decide_True.
      + by rewrite Hl, decide_True.
      + rewrite Hco by done. apply childrenOf_not_element. unfold isElement.
        by rewrite Ht.
      + by rewrite Hp, decide_True.
      + intros ?. lia.
      + intros _. exists g. split; [done |]. split; [done |].
        split; [| split; [| split; [| split; [| split]]]].
        * rewrite Hl, decide_False by done. by rewrite Hl1, decide_True.
        * by rewrite Hce, Hce1.
        * rewrite Hco by done. by rewrite Hcg1, Hc0.
        * rewrite Hp, decide_False by done. by rewrite Hp1, decide_True.
        * intros c Hc. rewrite <- Hc0 in Hc.
          assert (Hcs : is_Some (h0 !! c))
            by (by eapply (children_in_store h0 el c (Hinv0 Hinv))).
          rewrite Hp, decide_False.
          -- rewrite Hp1. rewrite decide_False.
             ++ by rewrite decide_True.
             ++ intros ->. rewrite Hg in Hcs. by destruct Hcs.
          -- apply (in_store_not_fresh h1); [| done]. apply Hd1. by right.
        * intros y Hy1 Hy2. rewrite Hco by done. rewrite Hco1 by done. apply Hc0.
    - (* at most one child *)
      cbn [bind].
      destruct (appendNew_spec h0 el lastLocal (Hinv0 Hinv) Hel0)
        as (h' & Ha' & Ht & Hinv' & Hce & Hco & Hp & He & Hl & Hd).
      destruct (makeElement h0 lastLocal) as [h2 t]. cbn [fst snd] in *.
      rewrite Ha'. cbn [bind].
      assert (Hth : h !! t = None).
      { destruct (h !! t) eqn:E; [| done].
        assert (is_Some (h0 !! t)) as [? ?] by (apply Hd0; by eexists). congruence. }
      assert (Helt : el <> t) by (by apply (in_store_not_fresh h)).
      exists h', t. split; [done |]. split; [done |]. split; [done |].
      split; [| split; [| split; [| split; [| split]]]].
      + rewrite Hl, decide_False by done. rewrite Hl0. by rewrite decide_True.
      + by rewrite Hl, decide_True.
      + rewrite Hco by done. apply childrenOf_not_element. unfold isElement.
        by rewrite Ht.
      + by rewrite Hp, decide_True.
      + intros _. split; [by rewrite Hce, Hc0 |]. split.
        * intros y Hy. rewrite Hp, decide_False by done. apply Hp0.
        * intros y Hy. rewrite Hco by done. apply Hc0.
      + intros ?. lia. }
  unfold step10.rewrite.
  destruct Hlocal as [(-> & -> & ->) | (-> & -> & ->)];
    cbn [isCombinator String.eqb Ascii.eqb Bool.eqb andb orb]; apply Hbody.
Qed.

End Rewrite2.

Lemma rewrite_optional_mixed_witness :
  exists h' t,
    step10.rewrite noDescendants noMulti noMulti "" 0 false defineOfTwo 0 "optional"
      = Ret (h', None) /\
    defineOfTwo !! t = None /\ linksAgree h' /\
    localOf h' 0 = Some "choice" /\
    localOf h' t = Some "empty".
Proof.
  destruct (rewrite_optional_mixed noDescendants noMulti noMulti "" 0 false
              defineOfTwo 0 "optional" "choice" "empty"
              (proj1 (invariant_linksAgree defineOfTwo)
                 ltac:(apply (bool_decide_unpack _); vm_compute; reflexivity))
              eq_refl ltac:(by left))
    as (h' & t & H1 & H2 & H3 & H4 & H5 & _).
  exists h', t. exact (conj H1 (conj H2 (conj H3 (conj H4 H5)))).
Defined.

Lemma withoutAll_two (a b : ref) (l : list ref) :
  a ∉ l -> b ∉ l -> withoutAll [a; b] l = l.
Proof.
  intros Ha Hb. apply withoutAll_notin. intros c Hc Hin.
  apply elem_of_cons in Hin as [-> | Hin]; [done |].
  apply elem_of_cons in Hin as [-> | Hin]; [done |]. by apply elem_of_nil in Hin.
Qed.

Section Rewrite3.
Variable findDescendantsByLocalName : store -> ref -> string -> list ref.
Variable findMultiDescendantsByLocalName :
  store -> ref -> list string -> string -> list ref.
Variable findMultiNames : store -> ref -> list string -> string -> list ref.
Variable XMLNS_NAMESPACE : string.

Abbreviation rewrite' :=
  (step10.rewrite findDescendantsByLocalName findMultiDescendantsByLocalName
     findMultiNames XMLNS_NAMESPACE).

(** The first step of [walk] on a [zeroOrMore] element makes it a [choice]
    of a new [oneOrMore] element and a new [empty] element. The
    [oneOrMore] element holds the former children when there is at most
    one, and a new [group] element that holds them when there are more. The
    links agree afterwards. *)
Theorem rewrite_zeroOrMore (fuel : nat) (check : bool) (h : store) (el : ref) :
  linksAgree h ->
  isElement h el = true ->
  exists h' o e,
    rewrite' fuel check h el "zeroOrMore" = Ret (h', None) /\
    h !! o = None /\ h !! e = None /\ o <> e /\ linksAgree h' /\
    localOf h' el = Some "choice" /\
    localOf h' o = Some "oneOrMore" /\
    localOf h' e = Some "empty" /\
    childrenOf h' el = [o; e] /\
    childrenOf h' e = [] /\
    parent h' o = Some el /\
    parent h' e = Some el /\
    (length (childrenOf h el) <= 1 ->
     childrenOf h' o = childrenOf h el /\
     forall c, c ∈ childrenOf h el -> parent h' c = Some o) /\
    (1 < length (childrenOf h el) ->
     exists g,
       h !! g = None /\ g <> o /\ g <> e /\
       localOf h' g = Some "group" /\
       childrenOf h' o = [g] /\
       childrenOf h' g = childrenOf h el /\
       parent h' g = Some o /\
       forall c, c ∈ childrenOf h el -> parent h' c = Some g).
Proof.
  intros Hinv Hel. unfold step10.rewrite.
  cbn [isCombinator String.eqb Ascii.eqb Bool.eqb andb orb]. cbv zeta.
  destruct (setLocal_views h el "choice") as (Hp0 & Hc0 & He0 & Hl0 & Hd0 & Hinv0).
  set (h0 := setLocal h el "choice") in *.
  specialize (Hinv0 Hinv).
  assert (Hel0 : isElement h0 el = true) by (by rewrite He0).
  assert (Hinel : is_Some (h !! el)).
  { unfold isElement in Hel. destruct (h !! el); [by eexists | done]. }
  assert (Hfresh0 : forall r, h0 !! r = None -> h !! r = None).
  { intros r Hr. destruct (h !! r) eqn:E; [| done].
    assert (is_Some (h0 !! r)) as [? ?] by (apply Hd0; by eexists). congruence. }
  assert (Hcs : forall c, c ∈ childrenOf h el -> is_Some (h !! c))
    by (intros c Hc; by eapply children_in_store).
  (* the oneOrMore element *)
  destruct (makeElement_views h0 "oneOrMore") as (Ho & Hp1 & Hc1 & He1 & Hl1 & Hd1 & Hinv1).
  destruct (makeElement h0 "oneOrMore") as [h1 o]. cbn [fst snd] in *.
  specialize (Hinv1 Hinv0).
  assert (Hoh : h !! o = None) by (by apply Hfresh0).
  assert (Helo : el <> o) by (by apply (in_store_not_fresh h)).
  assert (Hel1 : isElement h1 el = true) by (by rewrite He1, decide_False).
  assert (Heo1 : isElement h1 o = true) by (by rewrite He1, decide_True).
  assert (Hco0 : childrenOf h0 o = []).
  { apply childrenOf_not_element. unfold isElement. by rewrite Ho. }
  assert (Hpo0 : parent h0 o = None) by (unfold parent; by rewrite Ho).
  (* what both branches reach before the [empty] element is made *)
  assert (Hmid : exists h3,
    (if Nat.ltb 1 (length (childrenOf h el))
     then let '(h2, group) := grabInto h1 el "group" in appendChild h2 o group
     else Ret (grabChildren h1 o el)) = Ret h3 /\
    linksAgree h3 /\
    childrenOf h3 el = [] /\
    parent h3 o = None /\
    isElement h3 el = true /\
    localOf h3 el = Some "choice" /\
    localOf h3 o = Some "oneOrMore" /\
    (forall y, h !! y = None -> y <> o -> o ∉ childrenOf h3 y) /\
    (forall r, h3 !! r = None -> h1 !! r = None) /\
    is_Some (h3 !! o) /\
    (length (childrenOf h el) <= 1 ->
     childrenOf h3 o = childrenOf h el /\
     forall c, c ∈ childrenOf h el -> parent h3 c = Some o) /\
    (1 < length (childrenOf h el) ->
     exists g,
       h !! g = None /\ g <> o /\ is_Some (h3 !! g) /\
       localOf h3 g = Some "group" /\
       childrenOf h3 o = [g] /\
       childrenOf h3 g = childrenOf h el /\
       parent h3 g = Some o /\
       forall c, c ∈ childrenOf h el -> parent h3 c = Some g)).
  { destruct (Nat.ltb_spec 1 (length (childrenOf h el))) as [Hn | Hn].
    - unfold grabInto.
      destruct (makeElement_views h1 "group") as (Hg & Hp2 & Hc2 & He2 & Hl2 & Hd2 & Hinv2).
      destruct (makeElement h1 "group") as [h1' g]. cbn [fst snd] in *.
      specialize (Hinv2 Hinv1).
      assert (Hgo : g <> o).
      { intros ->. assert (is_Some (h1 !! o)) as [? ?] by (apply Hd1; by left).
        congruence. }
      assert (Hgh : h !! g = None).
      { apply Hfresh0. destruct (h0 !! g) eqn:E; [| done].
        assert (is_Some (h1 !! g)) as [? ?] by (apply Hd1; right; by eexists).
        congruence. }
      assert (Helg : el <> g) by (by apply (in_store_not_fresh h)).
      destruct (grabChildren_spec h1' g el Hinv2)
        as (Hinv3 & Hcg3 & Hce3 & Hco3 & Hp3 & Hd3 & He3 & Hl3); [| done |].
      { by rewrite He2, decide_True. }
      set (h2 := grabChildren h1' g el) in *.
      destruct (appendChild_spec h2 o g Hinv3)
        as (h3 & Ha & Hinv4 & Hp4 & Hc4 & Hd4 & He4 & Hl4).
      { rewrite He3, He2, decide_False by done. done. }
      { apply is_Some_dom. rewrite Hd3. apply is_Some_dom, Hd2. by left. }
      assert (Hcel : childrenOf h1' el = childrenOf h el) by (by rewrite Hc2, Hc1, Hc0).
      assert (Hgcs : g ∉ childrenOf h el).
      { intros Hin. apply Hcs in Hin. rewrite Hgh in Hin. by destruct Hin. }
      assert (Hcg1 : childrenOf h1' g = []).
      { rewrite Hc2. apply childrenOf_not_element. unfold isElement. by rewrite Hg. }
      exists h3. split; [done |]. split; [done |].
      split; [| split; [| split; [| split; [| split; [| split; [| split; [| split; [| split]]]]]]]].
      + rewrite Hc4, decide_False by done. by rewrite Hce3.
      + rewrite Hp4, decide_False by done. rewrite Hp3.
        rewrite decide_False.
        * by rewrite Hp2, Hp1.
        * rewrite Hcel. intros Hin. apply Hcs in Hin. rewrite Hoh in Hin.
          by destruct Hin.
      + rewrite He4, He3, He2, decide_False by done. exact Hel1.
      + rewrite Hl4, Hl3, Hl2, decide_False by done.
        rewrite Hl1, decide_False by done. rewrite Hl0. by rewrite decide_True.
      + rewrite Hl4, Hl3, Hl2, decide_False by done. by rewrite Hl1, decide_True.
      + intros y Hy Hyo Hin. rewrite Hc4, decide_False in Hin by done.
        unfold without in Hin. apply list_elem_of_In, filter_In in Hin as [Hin _].
        apply list_elem_of_In in Hin.
        destruct (decide (y = g)) as [-> | Hyg].
        * rewrite Hcg3, Hcg1, Hcel in Hin. apply Hcs in Hin. rewrite Hoh in Hin.
          by destruct Hin.
        * destruct (decide (y = el)) as [-> | Hyel].
          -- rewrite Hce3 in Hin. by apply elem_of_nil in Hin.
          -- rewrite Hco3, Hc2, Hc1, Hc0 in Hin by done.
             rewrite childrenOf_not_element in Hin
               by (unfold isElement; by rewrite Hy).
             by apply elem_of_nil in Hin.
      + intros r Hr. destruct (h1 !! r) eqn:E; [| done].
        assert (is_Some (h3 !! r)) as [? ?]; [| congruence].
        apply is_Some_dom. rewrite Hd4, Hd3. apply is_Some_dom, Hd2. right.
        by eexists.
      + apply is_Some_dom. rewrite Hd4, Hd3. apply is_Some_dom, Hd2. right.
        apply Hd1. by left.
      + intros ?. lia.
      + intros _. exists g. split; [done |]. split; [done |].
        split; [| split; [| split; [| split; [| split]]]].
        * apply is_Some_dom. rewrite Hd4, Hd3. apply is_Some_dom, Hd2. by left.
        * rewrite Hl4, Hl3, Hl2. by rewrite decide_True.
        * rewrite Hc4, decide_True by done. rewrite Hco3 by done.
          rewrite Hc2, Hc1, Hco0. done.
        * rewrite Hc4, decide_False by done. rewrite Hcg3, Hcg1, Hcel.
          by apply without_notin.
        * by rewrite Hp4, decide_True.
        * intros c Hc. rewrite Hp4, decide_False
            by (intros ->; apply Hcs in Hc; rewrite Hgh in Hc; by destruct Hc).
          rewrite Hp3, Hcel. by rewrite decide_True.
    - destruct (grabChildren_spec h1 o el Hinv1 Heo1)
        as (Hinv3 & Hcg3 & Hce3 & Hco3 & Hp3 & Hd3 & He3 & Hl3); [done |].
      set (h3 := grabChildren h1 o el) in *.
      assert (Hcel : childrenOf h1 el = childrenOf h el) by (by rewrite Hc1, Hc0).
      exists h3. split; [done |]. split; [done |].
      split; [| split; [| split; [| split; [| split; [| split; [| split; [| split; [| split]]]]]]]].
      + done.
      + rewrite Hp3, decide_False.
        * by rewrite Hp1.
        * rewrite Hcel. intros Hin. apply Hcs in Hin. rewrite Hoh in Hin.
          by destruct Hin.
      + by rewrite He3.
      + rewrite Hl3, Hl1, decide_False by done. rewrite Hl0. by rewrite decide_True.
      + by rewrite Hl3, Hl1, decide_True.
      + intros y Hy Hyo Hin.
        destruct (decide (y = el)) as [-> | Hyel];
          [rewrite Hce3 in Hin; by apply elem_of_nil in Hin |].
        rewrite Hco3, Hc1, Hc0 in Hin by done.
        rewrite childrenOf_not_element in Hin by (unfold isElement; by rewrite Hy).
        by apply elem_of_nil in Hin.
      + intros r Hr. destruct (h1 !! r) eqn:E; [| done].
        assert (is_Some (h3 !! r)) as [? ?]; [| congruence].
        apply is_Some_dom. rewrite Hd3. apply is_Some_dom. by eexists.
      + apply is_Some_dom. rewrite Hd3. apply is_Some_dom, Hd1. by left.
      + intros _. split.
        * rewrite Hcg3, Hc1, Hco0, Hcel. done.
        * intros c Hc. rewrite Hp3, Hcel. by rewrite decide_True.
      + intros ?. lia. }
  destruct Hmid as (h3 & -> & Hinv3 & Hce3 & Hpo3 & Hel3 & Hlel3 & Hlo3 & Hnoo3 &
                    Hfr3 & Ho3 & Hfew & Hmany).
  cbn [bind].
  (* the empty element *)
  destruct (makeElement_views h3 "empty") as (He & Hp4 & Hc4 & He4 & Hl4 & Hd4 & Hinv4).
  destruct (makeElement h3 "empty") as [h4 e]. cbn [fst snd] in *.
  specialize (Hinv4 Hinv3).
  assert (Hoe : o <> e) by (by apply (in_store_not_fresh h3)).
  assert (Heh : h !! e = None).
  { apply Hfresh0. destruct (h0 !! e) eqn:E; [| done].
    exfalso. apply (eq_None_not_Some (h1 !! e)); [exact (Hfr3 e He) |].
    apply Hd1. right. by eexists. }
  assert (Hele : el <> e) by (by apply (in_store_not_fresh h)).
  destruct (appendChildren_spec h4 el [o; e] Hinv4)
    as (h5 & Ha & Hinv5 & Hc5 & Hp5 & Hd5 & He5 & Hl5).
  { by rewrite He4, decide_False. }
  { apply NoDup_cons. split; [| apply NoDup_singleton].
    by intros ->%list_elem_of_singleton. }
  { intros x Hx. apply Hd4. apply elem_of_cons in Hx as [-> | Hx]; [by right |].
    apply list_elem_of_singleton in Hx as ->. by left. }
  rewrite Ha. cbn [bind].
  assert (Hnot : forall l : list ref,
             (forall c, c ∈ l -> c <> o /\ c <> e) -> withoutAll [o; e] l = l).
  { intros l Hl. apply withoutAll_two; intros Hin; apply Hl in Hin; tauto. }
  assert (Hcsoe : forall c, c ∈ childrenOf h el -> c <> o /\ c <> e).
  { intros c Hc. apply Hcs in Hc. split; by apply (in_store_not_fresh h). }
  assert (Hin_oe : forall y, y ∈ [o; e] <-> y = o \/ y = e).
  { intros y. rewrite elem_of_cons, list_elem_of_singleton. tauto. }
  exists h5, o, e. split; [done |]. split; [done |]. split; [done |].
  split; [done |]. split; [done |].
  split; [| split; [| split; [| split; [| split; [| split; [| split; [| split]]]]]]].
  - rewrite Hl5, Hl4, decide_False by done. exact Hlel3.
  - rewrite Hl5, Hl4, decide_False by done. exact Hlo3.
  - by rewrite Hl5, Hl4, decide_True.
  - rewrite Hc5, decide_True by done. by rewrite Hc4, Hce3.
  - rewrite Hc5, decide_False by done. rewrite Hc4.
    rewrite childrenOf_not_element by (unfold isElement; by rewrite He). done.
  - rewrite Hp5, decide_True; [done |]. apply Hin_oe. by left.
  - rewrite Hp5, decide_True; [done |]. apply Hin_oe. by right.
  - intros Hn. destruct (Hfew Hn) as [Hco Hpc]. split.
    + rewrite Hc5, decide_False by done. rewrite Hc4, Hco. by apply Hnot.
    + intros c Hc. rewrite Hp5, decide_False.
      * rewrite Hp4. by apply Hpc.
      * rewrite Hin_oe. destruct (Hcsoe c Hc). tauto.
  - intros Hn. destruct (Hmany Hn) as (g & Hgh & Hgo & Hg3 & Hlg & Hcog & Hcg & Hpg & Hpc).
    assert (Hge : g <> e) by (by apply (in_store_not_fresh h3)).
    exists g. split; [done |]. split; [done |]. split; [done |].
    split; [| split; [| split; [| split]]].
    + rewrite Hl5, Hl4, decide_False by done. exact Hlg.
    + rewrite Hc5, decide_False by done. rewrite Hc4, Hcog. apply Hnot.
      intros c ->%list_elem_of_singleton. done.
    + rewrite Hc5, decide_False by (by apply not_eq_sym, (in_store_not_fresh h)).
      rewrite Hc4, Hcg. by apply Hnot.
    + rewrite Hp5, decide_False by (rewrite Hin_oe; tauto). by rewrite Hp4.
    + intros c Hc. rewrite Hp5, decide_False.
      * rewrite Hp4. by apply Hpc.
      * rewrite Hin_oe. destruct (Hcsoe c Hc). tauto.
Qed.

End Rewrite3.

Lemma rewrite_zeroOrMore_witness :
  exists h' o e,
    step10.rewrite noDescendants noMulti noMulti "" 0 false defineOfTwo 0 "zeroOrMore"
      = Ret (h', None) /\
    defineOfTwo !! o = None /\ defineOfTwo !! e = None /\ o <> e /\ linksAgree h' /\
    localOf h' 0 = Some "choice" /\
    childrenOf h' 0 = [o; e].
Proof.
  destruct (rewrite_zeroOrMore noDescendants noMulti noMulti "" 0 false defineOfTwo 0
              (proj1 (invariant_linksAgree defineOfTwo)
                 ltac:(apply (bool_decide_unpack _); vm_compute; reflexivity))
              eq_refl)
    as (h' & o & e & H1 & H2 & H3 & H4 & H5 & H6 & _ & _ & H9 & _).
  exists h', o, e.
  exact (conj H1 (conj H2 (conj H3 (conj H4 (conj H5 (conj H6 H9)))))).
Defined.

Lemma putAttribute_links (h : store) this name attr :
  (forall y, parent (putAttribute h this name attr) y = parent h y) /\
  (forall y, childrenOf (putAttribute h this name attr) y = childrenOf h y).
Proof.
  unfold parent, childrenOf, putAttribute.
  destruct (h !! this) as [[e | t] |] eqn:Hthis; try done.
  split; intros y; (destruct (decide (y = this)) as [-> | Hy];
    [rewrite lookup_insert_eq, Hthis | rewrite lookup_insert_ne by done]; done).
Qed.

Lemma getAttribute_setParent (h : store) x v y name :
  getAttribute (setParent h x v) y name = getAttribute h y name.
Proof.
  unfold getAttribute, setParent. destruct (h !! x) as [[e | t] |] eqn:Hx; try done;
    (destruct (decide (x = y)) as [<- | Hne];
     [rewrite lookup_insert_eq, Hx | rewrite lookup_insert_ne by done]; done).
Qed.

Lemma getAttribute_setChildren (h : store) x cs y name :
  getAttribute (setChildren h x cs) y name = getAttribute h y name.
Proof.
  unfold getAttribute, setChildren. destruct (h !! x) as [[e | t] |] eqn:Hx; try done.
  destruct (decide (x = y)) as [<- | Hne];
    [rewrite lookup_insert_eq, Hx | rewrite lookup_insert_ne by done]; done.
Qed.

Section Rewrite4.
Variable findDescendantsByLocalName : store -> ref -> string -> list ref.
Variable findMultiDescendantsByLocalName :
  store -> ref -> list string -> string -> list ref.
Variable findMultiNames : store -> ref -> list string -> string -> list ref.
Variable XMLNS_NAMESPACE : string.

Abbreviation rewrite' :=
  (step10.rewrite findDescendantsByLocalName findMultiDescendantsByLocalName
     findMultiNames XMLNS_NAMESPACE).

(** A [choice], [group] or [interleave] element with a single child is
    replaced by this child, which [walk] returns. Under a parent the child
    takes the place of the element in the array of the parent; at the root
    the child is taken out of the element and gets the [xmlns] attribute
    of the element, when it has one. The links agree afterwards. *)
Theorem rewrite_single_child (fuel : nat) (check : bool) (h : store) (el c : ref)
  (local : string) :
  linksAgree h ->
  isElement h el = true ->
  isCombinator local = true ->
  childrenOf h el = [c] ->
  (forall p,
      parent h el = Some p -> p <> el ->
      exists h' i,
        rewrite' fuel check h el local = Ret (h', Some c) /\
        linksAgree h' /\
        childrenOf h p !! i = Some el /\
        childrenOf h' p = <[i := c]> (childrenOf h p) /\
        parent h' c = Some p /\
        parent h' el = None) /\
  (parent h el = None ->
   isElement h c = true ->
   exists h',
     rewrite' fuel check h el local = Ret (h', Some c) /\
     linksAgree h' /\
     parent h' c = None /\
     childrenOf h' el = [] /\
     getAttribute h' c "xmlns" =
       match getAttribute h el "xmlns" with
       | Some xmlns => Some xmlns
       | None => getAttribute h c "xmlns"
       end).
Proof.
  intros Hinv Hel Hcomb Hcs. unfold step10.rewrite. rewrite Hcomb, Hcs.
  assert (Hc : parent h c = Some el).
  { apply (children_parent h Hinv). rewrite Hcs. apply elem_of_cons. by left. }
  split.
  - intros p Hp Hne. rewrite Hp.
    destruct (replaceChildWith_keeps h p el c Hinv Hp)
      as (h' & i & Hr & Hinv' & Hi & Hch & Hpc & Hpe).
    { by eapply parent_is_Some. }
    { rewrite Hc. by intros [= ->]. }
    exists h', i. by rewrite Hr.
  - intros Hp Helc. rewrite Hp.
    destruct (removeChildAt_spec h el 0 c Hinv) as (h1 & Hr & Hinv1 & Hpc & Hch & Hsame).
    { by rewrite Hcs. }
    rewrite Hr. cbn [bind].
    assert (Hattr : forall y name, getAttribute h1 y name = getAttribute h y name).
    { intros y name. unfold removeChildAt in Hr. rewrite Hcs in Hr. cbn in Hr.
      injection Hr as <-. by rewrite getAttribute_setParent, getAttribute_setChildren. }
    rewrite Hattr. destruct (getAttribute h el "xmlns") as [xmlns |] eqn:Hx.
    + rewrite (same_isElement _ _ _ _ Hsame), Helc. cbn [bind].
      destruct (putAttribute_links h1 c "xmlns"
                  (mkQualifiedAttribute "xmlns" "xmlns" "" XMLNS_NAMESPACE xmlns))
        as [Hpp Hpc'].
      eexists. split; [reflexivity |]. unfold setXMLNS.
      split; [by apply (linksAgree_ext h1) |].
      split; [by rewrite Hpp |]. split; [by rewrite Hpc', Hch, Hcs |].
      rewrite getAttribute_putAttribute
        by (by rewrite (same_isElement _ _ _ _ Hsame)).
      by rewrite decide_True.
    + cbn [bind]. exists h1. split; [done |]. split; [done |]. split; [done |].
      split; [by rewrite Hch, Hcs |]. apply Hattr.
Qed.

End Rewrite4.

Lemma rewrite_single_child_witness :
  exists h' i,
    step10.rewrite noDescendants noMulti noMulti "" 0 false defineOfChoiceOfOne 1
      "choice" = Ret (h', Some 2) /\
    linksAgree h' /\
    childrenOf defineOfChoiceOfOne 0 !! i = Some 1 /\
    childrenOf h' 0 = <[i := 2]> (childrenOf defineOfChoiceOfOne 0) /\
    parent h' 2 = Some 0 /\
    parent h' 1 = None.
Proof.
  apply (proj1 (rewrite_single_child noDescendants noMulti noMulti "" 0 false
                  defineOfChoiceOfOne 1 2 "choice"
                  (proj1 (invariant_linksAgree defineOfChoiceOfOne)
                     ltac:(apply (bool_decide_unpack _); vm_compute; reflexivity))
                  eq_refl eq_refl eq_refl) 0).
  - reflexivity.
  - discriminate.
Defined.

End step10_facts.
